(** * Guitar-chart note loaders: text (.chart) and MIDI classification engines

    A shallow embedding of [NotesLoaderChart.cpp] and [NotesLoaderMID.cpp]:
    the note emitters [addNote] / [placeNote], the text engine
    [parseNoteSection], the MIDI engine [addGHRBNote] with its predicate
    [checkHOPOConditions], and the System-Exclusive decoder
    [translateSysex].

    Conventions.
    - A C++ [int] is a [Z].  Signed overflow is undefined in C++.  The
      sum of a tick and a length, and the arithmetic of the sustain
      correction, which the fields of a single chart line can push out of
      range, are taken as the built code leaves them, modulo 2^32
      ([wrapInt]); a statement that depends on such a value assumes it in
      range.  The remaining arithmetic (the difference of two ticks, a
      row plus a duration) is exact: there the embedding covers the
      executions in which it does not overflow.
    - [/] on [int] truncates toward zero: [Z.quot].  [%] is [Z.rem].
    - An access outside a [std::vector] or a heap array is undefined
      behaviour; functions that can perform one return [option] and
      yield [None] there. *)

From Stdlib Require Import ZArith Lia Bool List String Ascii.
From stdpp Require Import gmap list strings.

Local Open Scope Z_scope.

(** ** Note types and the timeline (NoteTypes.h / NoteData.h) *)

Module NoteTypes.

(** The tap-note kinds the loaders read and write. *)
Inductive TapNoteType :=
| TapNoteType_Empty
| TapNoteType_Tap
| TapNoteType_HoldHead
| TapNoteType_Gem
| TapNoteType_GemHold
| TapNoteType_HOPO
| TapNoteType_HOPOHold.

#[global] Instance TapNoteType_eq_dec : EqDecision TapNoteType.
Proof. solve_decision. Defined.

Record TapNote := mkTapNote { type : TapNoteType; iDuration : Z }.

#[global] Instance TapNote_eq_dec : EqDecision TapNote.
Proof. solve_decision. Defined.

(** Modelled from the spec: the [TAP_*] constants live in NoteTypes.h,
    which is not part of the sources at hand.  Each category (tap, gem,
    HOPO) has a single and a held kind; a constant carries no duration. *)
Definition TAP_EMPTY := mkTapNote TapNoteType_Empty 0.
Definition TAP_ORIGINAL_TAP := mkTapNote TapNoteType_Tap 0.
Definition TAP_ORIGINAL_HOLD_HEAD := mkTapNote TapNoteType_HoldHead 0.
Definition TAP_ORIGINAL_GEM := mkTapNote TapNoteType_Gem 0.
Definition TAP_ORIGINAL_GEM_HOLD := mkTapNote TapNoteType_GemHold 0.
Definition TAP_ORIGINAL_HOPO := mkTapNote TapNoteType_HOPO 0.
Definition TAP_ORIGINAL_HOPO_HOLD := mkTapNote TapNoteType_HOPOHold 0.

(** Modelled from the spec: the timeline store [NoteData] is an external
    collaborator (NoteData.cpp is absent).  The spec asks of it only a
    sparse per-track container with: set a single event at a row, add a
    held event spanning two rows, query the event at a row (category and
    duration), clear the event at a row.  It is a finite map from
    (track, row) to the event stored there; an absent key reads as
    [TAP_EMPTY], and writing an empty event clears the key. *)
Abbreviation NoteData := (gmap (Z * Z) TapNote).

Definition GetTapNote (notes : NoteData) (track row : Z) : TapNote :=
  default TAP_EMPTY (notes !! (track, row)).

Definition SetTapNote (notes : NoteData) (track row : Z) (tn : TapNote)
  : NoteData :=
  if decide (type tn = TapNoteType_Empty)
  then delete (track, row) notes
  else <[(track, row) := tn]> notes.

(** The held event is stored at its start row with the span as duration. *)
Definition AddHoldNote (notes : NoteData) (track startRow endRow : Z)
  (tn : TapNote) : NoteData :=
  SetTapNote notes track startRow (mkTapNote (type tn) (endRow - startRow)).

Definition isHOPO (tn : TapNote) : bool :=
  bool_decide (type tn = TapNoteType_HOPO)
  || bool_decide (type tn = TapNoteType_HOPOHold).

Definition isStrum (tn : TapNote) : bool :=
  bool_decide (type tn = TapNoteType_Gem)
  || bool_decide (type tn = TapNoteType_GemHold).

Definition isTap (tn : TapNote) : bool :=
  bool_decide (type tn = TapNoteType_Tap)
  || bool_decide (type tn = TapNoteType_HoldHead).

(** The held kinds. *)
Definition isHeld (tn : TapNote) : bool :=
  bool_decide (type tn = TapNoteType_HoldHead)
  || bool_decide (type tn = TapNoteType_GemHold)
  || bool_decide (type tn = TapNoteType_HOPOHold).

(** Modelled from the spec: [BeatToNoteRow] (NoteTypes.h) is absent; the
    spec describes it as converting a fractional beat position to the
    timeline's discrete row unit.  The engines always call it as
    [BeatToNoteRow((float)tick / resolution)], so the model takes the tick
    and the resolution: the nearest row on a grid of 48 rows per beat (the
    tick count both loaders install), ties to even as [lrintf] rounds.
    Floating-point error of the quotient is not modelled.  The engines
    below take the conversion as a parameter; this instance serves
    concrete evaluations. *)
Definition ROWS_PER_BEAT : Z := 48.

Definition BeatToNoteRow (tick resolution : Z) : Z :=
  let q := (ROWS_PER_BEAT * tick) / resolution in
  let r := (ROWS_PER_BEAT * tick) mod resolution in
  if 2 * r <? resolution then q
  else if resolution <? 2 * r then q + 1
  else if Z.even q then q else q + 1.

(** An [int] has 32 bits.  [wrapInt z] is what an [int] operation whose
    exact result is [z] leaves in the built code: the two's-complement
    value, [z] itself when it is in range.  (The language leaves signed
    overflow undefined; the statements that depend on such a result
    assume it in range.) *)
Definition wrapInt (z : Z) : Z :=
  (z + 2147483648) mod 4294967296 - 2147483648.

(** [for (int i = 0; i < n; i++)]: the indices visited. *)
Definition indices (n : Z) : list Z := seqZ 0 n.

(** [v[i]] on a vector of ints; the caller guards the range. *)
Definition vget (v : list Z) (i : Z) : Z := default 0 (v !! Z.to_nat i).
Definition bget (v : list bool) (i : Z) : bool :=
  default false (v !! Z.to_nat i).

End NoteTypes.

Import NoteTypes.

(** ** The song configuration (song.ini) *)

Module Config.

(** Modelled from the spec: the configuration lookups are external
    collaborators ([IniFile] is absent); the spec names two, the HOPO
    frequency, an integer, and the eighth-note HOPO flag, a boolean.  A
    record holds what the two [GetValue] calls find in a file that was
    read: the value of the key, or [None] where the key is missing and the
    loader keeps what it had. *)
Record SongIni := mkSongIni {
  hopofreq : option Z;
  eighthnote_hopo : option bool
}.

End Config.

(** ** The text-chart engine (NotesLoaderChart.cpp) *)

Module Chart.

(** [addNote]: category 1 tap/hold, 2 gem/gemhold, 3 hopo/hopohold; any
    other category returns before touching the notes. *)
Definition addNote (notes : NoteData) (track start end_ noteCategory : Z)
  : NoteData :=
  let kinds :=
    if noteCategory =? 1 then Some (TAP_ORIGINAL_TAP, TAP_ORIGINAL_HOLD_HEAD)
    else if noteCategory =? 2 then Some (TAP_ORIGINAL_GEM, TAP_ORIGINAL_GEM_HOLD)
    else if noteCategory =? 3 then Some (TAP_ORIGINAL_HOPO, TAP_ORIGINAL_HOPO_HOLD)
    else None in
  match kinds with
  | None => notes
  | Some (singleTapKind, heldTapKind) =>
      if start <? end_
      then AddHoldNote notes track start end_ heldTapKind
      else SetTapNote notes track start singleTapKind
  end.

(** *** Tokenizing a line: [getLineWords] and [atoi] *)

Definition isspace (c : ascii) : bool :=
  let n := nat_of_ascii c in
  (n =? 32)%nat || ((9 <=? n)%nat && (n <=? 13)%nat).

Definition isTab (c : ascii) : bool := (nat_of_ascii c =? 9)%nat.

Fixpoint removeTabs (s : string) : string :=
  match s with
  | EmptyString => EmptyString
  | String c s' => if isTab c then removeTabs s' else String c (removeTabs s')
  end.

(** [istream_iterator<std::string>]: maximal runs of non-space characters;
    [cur] is the word being read, most recent character first. *)
Fixpoint splitWords (cur : list ascii) (s : string) : list string :=
  match s with
  | EmptyString =>
      match cur with
      | [] => []
      | _ => [string_of_list_ascii (rev cur)]
      end
  | String c s' =>
      if isspace c then
        match cur with
        | [] => splitWords [] s'
        | _ => string_of_list_ascii (rev cur) :: splitWords [] s'
        end
      else splitWords (c :: cur) s'
  end.

(** One [std::getline] result, tabs erased, split at spaces. *)
Definition getLineWords (line : string) : list string :=
  splitWords [] (removeTabs line).

Definition digitValue (c : ascii) : option Z :=
  let n := nat_of_ascii c in
  if (48 <=? n)%nat && (n <=? 57)%nat then Some (Z.of_nat n - 48) else None.

Fixpoint atoiDigits (acc : Z) (s : string) : Z :=
  match s with
  | EmptyString => acc
  | String c s' =>
      match digitValue c with
      | Some d => atoiDigits (10 * acc + d) s'
      | None => acc
      end
  end.

Fixpoint skipSpaces (s : string) : string :=
  match s with
  | EmptyString => EmptyString
  | String c s' => if isspace c then skipSpaces s' else s
  end.

(** C [atoi]: leading blanks, an optional sign, then the decimal digits up
    to the first other character; no digits gives 0. *)
Definition atoi (s : string) : Z :=
  match skipSpaces s with
  | String "-"%char s' => - atoiDigits 0 s'
  | String "+"%char s' => atoiDigits 0 s'
  | s' => atoiDigits 0 s'
  end.

(** *** Classification state of [parseNoteSection] *)

Record ChartState := mkChartState {
  newNotes : NoteData;
  iPrevNoteMark : list Z;
  iPrevNoteTrack : Z;
  iPrevNoteLength : list Z;
  bPrevNoteHOPO : list bool;
  iLastForcedRow : Z;
  iLastTapRow : Z;
  iLastChordRow : Z
}.

Definition initialState : ChartState :=
  mkChartState ∅ (replicate 5 (-1)) (-1) (replicate 5 (-1))
    (replicate 5 false) (-1) (-1) (-1).

Definition set_newNotes (n : NoteData) (st : ChartState) : ChartState :=
  mkChartState n (iPrevNoteMark st) (iPrevNoteTrack st) (iPrevNoteLength st)
    (bPrevNoteHOPO st) (iLastForcedRow st) (iLastTapRow st) (iLastChordRow st).

Definition set_iPrevNoteLength (v : list Z) (st : ChartState) : ChartState :=
  mkChartState (newNotes st) (iPrevNoteMark st) (iPrevNoteTrack st) v
    (bPrevNoteHOPO st) (iLastForcedRow st) (iLastTapRow st) (iLastChordRow st).

Definition set_bPrevNoteHOPO (v : list bool) (st : ChartState) : ChartState :=
  mkChartState (newNotes st) (iPrevNoteMark st) (iPrevNoteTrack st)
    (iPrevNoteLength st) v (iLastForcedRow st) (iLastTapRow st)
    (iLastChordRow st).

Definition set_iLastForcedRow (t : Z) (st : ChartState) : ChartState :=
  mkChartState (newNotes st) (iPrevNoteMark st) (iPrevNoteTrack st)
    (iPrevNoteLength st) (bPrevNoteHOPO st) t (iLastTapRow st)
    (iLastChordRow st).

Definition set_iLastTapRow (t : Z) (st : ChartState) : ChartState :=
  mkChartState (newNotes st) (iPrevNoteMark st) (iPrevNoteTrack st)
    (iPrevNoteLength st) (bPrevNoteHOPO st) (iLastForcedRow st) t
    (iLastChordRow st).

Definition set_iLastChordRow (t : Z) (st : ChartState) : ChartState :=
  mkChartState (newNotes st) (iPrevNoteMark st) (iPrevNoteTrack st)
    (iPrevNoteLength st) (bPrevNoteHOPO st) (iLastForcedRow st)
    (iLastTapRow st) t.

(** The outcome of one turn of the line loop. *)
Inductive LineResult :=
| LineBreak
| LineNext (st : ChartState)
| LineUndefined.

Section Engine.

(** [BeatToNoteRow tick resolution] stands for the source's
    [BeatToNoteRow((float)tick / resolution)]. *)
Variable BeatToNoteRow : Z -> Z -> Z.
Variables resolution iHopoResolution : Z.

(** *** Marker lines *)

(** "E *" and "N 5": record the forced row, then re-emit every lane's event
    on that row as HOPO when it reads as HOPO and as a gem otherwise. *)
Definition forcedMarker (tick : Z) (st : ChartState) : ChartState :=
  let r := BeatToNoteRow tick resolution in
  let notes :=
    foldl (fun nd l =>
             let tn := GetTapNote nd l r in
             let wasHopo := isHOPO tn in
             addNote nd l r (r + iDuration tn) (if wasHopo then 3 else 2))
          (newNotes st) (indices 5) in
  set_newNotes notes (set_iLastForcedRow tick st).

(** "E T": record the tap row, then turn every event on that row into a
    tap. *)
Definition tapMarker (tick : Z) (st : ChartState) : ChartState :=
  let r := BeatToNoteRow tick resolution in
  let notes :=
    foldl (fun nd l =>
             let tn := GetTapNote nd l r in
             if decide (tn = TAP_EMPTY) then nd
             else addNote nd l r (r + iDuration tn) 1)
          (newNotes st) (indices 5) in
  set_newNotes notes (set_iLastTapRow tick st).

(** *** A note line [tick = N track length], track in 0..4 *)

(** Sustain correction of the previous note on the same track.  The test,
    the corrected length and the corrected end are sums and differences
    of ints. *)
Definition sustainCorrection (iNoteMark iNoteTrack : Z) (st : ChartState)
  : ChartState :=
  let prevMark := vget (iPrevNoteMark st) iNoteTrack in
  if iNoteMark
     <=? wrapInt (wrapInt (vget (iPrevNoteLength st) iNoteTrack + prevMark) + 1)
  then
    let cleared :=
      SetTapNote (newNotes st) iNoteTrack
        (BeatToNoteRow prevMark resolution) TAP_EMPTY in
    let newLength :=
      wrapInt (wrapInt (iNoteMark - prevMark) - resolution ÷ 8) in
    let notes :=
      addNote cleared iNoteTrack
        (BeatToNoteRow prevMark resolution)
        (BeatToNoteRow (wrapInt (prevMark + newLength)) resolution)
        (if bget (bPrevNoteHOPO st) iNoteTrack then 3 else 2) in
    set_newNotes notes
      (set_iPrevNoteLength
         (<[Z.to_nat iNoteTrack := newLength]> (iPrevNoteLength st)) st)
  else st.

(** One turn of the chord loop: lane [k]'s last note, if a HOPO on another
    track within one tick, becomes a gem.  Its end tick is a sum of ints. *)
Definition chordBreak (iNoteMark iNoteTrack : Z) (st : ChartState) (k : Z)
  : ChartState :=
  let mark := vget (iPrevNoteMark st) k in
  if bget (bPrevNoteHOPO st) k && negb (k =? iNoteTrack)
     && (Z.abs (iNoteMark - mark) <=? 1)
  then
    let notes :=
      addNote (newNotes st) k
        (BeatToNoteRow mark resolution)
        (BeatToNoteRow (wrapInt (mark + vget (iPrevNoteLength st) k))
           resolution) 2 in
    set_bPrevNoteHOPO (<[Z.to_nat k := false]> (bPrevNoteHOPO st))
      (set_newNotes notes (set_iLastChordRow iNoteMark st))
  else st.

Definition chordBreaksHOPO (iNoteMark iNoteTrack : Z) (st : ChartState)
  : ChartState :=
  foldl (chordBreak iNoteMark iNoteTrack) st (indices 5).

Definition nearTapRow (iNoteMark : Z) (st : ChartState) : bool :=
  (Z.abs (iLastTapRow st - iNoteMark) <=? 1) && negb (iLastTapRow st =? -1).

Definition nearForcedRow (iNoteMark : Z) (st : ChartState) : bool :=
  (Z.abs (iLastForcedRow st - iNoteMark) <=? 1)
  && negb (iLastForcedRow st =? -1).

(** The [for k] loop computing [ShouldBeHOPO], with its two [break]s. *)
Fixpoint hopoScan (iNoteMark iNoteTrack : Z) (st : ChartState)
  (ks : list Z) (ShouldBeHOPO : bool) : bool :=
  match ks with
  | [] => ShouldBeHOPO
  | k :: ks' =>
      let mark := vget (iPrevNoteMark st) k in
      let ShouldBeHOPO' :=
        if (Z.abs (iNoteMark - mark) - 1 <=? iHopoResolution)
           && negb (iNoteTrack =? iPrevNoteTrack st)
           && negb (mark =? -1)
        then true else ShouldBeHOPO in
      if (Z.abs (iNoteMark - mark) <=? 1)
         || ((Z.abs (iLastChordRow st - iNoteMark) <=? 1)
             && negb (iLastChordRow st =? -1))
      then false
      else if negb (iPrevNoteTrack st =? -1)
              && negb (vget (iPrevNoteMark st) iNoteTrack =? -1)
              && negb (vget (iPrevNoteMark st) (iPrevNoteTrack st) =? -1)
              && (Z.abs (vget (iPrevNoteMark st) iNoteTrack
                         - vget (iPrevNoteMark st) (iPrevNoteTrack st)) <=? 1)
              && negb (iPrevNoteTrack st =? iNoteTrack)
      then false
      else hopoScan iNoteMark iNoteTrack st ks' ShouldBeHOPO'
  end.

(** The decision of the [else] branch: the scan, reversed on a forced row. *)
Definition decideHOPO (iNoteMark iNoteTrack : Z) (st : ChartState) : bool :=
  let ShouldBeHOPO := hopoScan iNoteMark iNoteTrack st (indices 5) false in
  if nearForcedRow iNoteMark st then negb ShouldBeHOPO else ShouldBeHOPO.

(** Emission of the incoming note: a tap on a tap row, else gem or HOPO.
    The end tick is a sum of ints. *)
Definition emitNote (iNoteMark iNoteTrack iNoteLength : Z) (st : ChartState)
  : ChartState :=
  let startRow := BeatToNoteRow iNoteMark resolution in
  let endRow := BeatToNoteRow (wrapInt (iNoteMark + iNoteLength)) resolution in
  if nearTapRow iNoteMark st then
    set_bPrevNoteHOPO (<[Z.to_nat iNoteTrack := false]> (bPrevNoteHOPO st))
      (set_newNotes (addNote (newNotes st) iNoteTrack startRow endRow 1) st)
  else
    let ShouldBeHOPO := decideHOPO iNoteMark iNoteTrack st in
    set_bPrevNoteHOPO
      (<[Z.to_nat iNoteTrack := ShouldBeHOPO]> (bPrevNoteHOPO st))
      (set_newNotes
         (addNote (newNotes st) iNoteTrack startRow endRow
            (if ShouldBeHOPO then 3 else 2)) st).

(** The three assignments closing the note branch. *)
Definition recordPrev (iNoteMark iNoteTrack iNoteLength : Z)
  (st : ChartState) : ChartState :=
  mkChartState (newNotes st)
    (<[Z.to_nat iNoteTrack := iNoteMark]> (iPrevNoteMark st))
    iNoteTrack
    (<[Z.to_nat iNoteTrack := iNoteLength]> (iPrevNoteLength st))
    (bPrevNoteHOPO st) (iLastForcedRow st) (iLastTapRow st)
    (iLastChordRow st).

(** The whole note branch.  The per-track vectors have five cells, so a
    track outside 0..4 is an out-of-range access. *)
Definition noteRecord (iNoteMark iNoteTrack iNoteLength : Z)
  (st : ChartState) : option ChartState :=
  if (0 <=? iNoteTrack) && (iNoteTrack <? 5) then
    Some (recordPrev iNoteMark iNoteTrack iNoteLength
            (emitNote iNoteMark iNoteTrack iNoteLength
               (chordBreaksHOPO iNoteMark iNoteTrack
                  (sustainCorrection iNoteMark iNoteTrack st))))
  else None.

(** *** The line loop *)

Definition firstChar (w : string) : option ascii :=
  match w with
  | EmptyString => None
  | String c _ => Some c
  end.

Definition eventLine (vsWords : list string) (st : ChartState)
  : option ChartState :=
  w0 ← vsWords !! 0%nat;
  w3 ← vsWords !! 3%nat;
  let st1 := if String.eqb w3 "*" then forcedMarker (atoi w0) st else st in
  let st2 := if String.eqb w3 "T" then tapMarker (atoi w0) st1 else st1 in
  Some st2.

Definition noteLine (vsWords : list string) (st : ChartState)
  : option ChartState :=
  w0 ← vsWords !! 0%nat;
  w3 ← vsWords !! 3%nat;
  let iNoteTrack := atoi w3 in
  if iNoteTrack =? 5 then Some (forcedMarker (atoi w0) st)
  else
    w4 ← vsWords !! 4%nat;
    noteRecord (atoi w0) iNoteTrack (atoi w4) st.

Definition parseLine (line : string) (st : ChartState) : LineResult :=
  let vsWords := getLineWords line in
  match vsWords with
  | [] => LineBreak
  | w0 :: _ =>
      if bool_decide (firstChar w0 = Some "{"%char) then LineNext st
      else if bool_decide (firstChar w0 = Some "}"%char) then LineBreak
      else
        match vsWords !! 2%nat with
        | None => LineUndefined
        | Some w2 =>
            if String.eqb w2 "E" then
              match eventLine vsWords st with
              | Some st' => LineNext st'
              | None => LineUndefined
              end
            else if String.eqb w2 "N" then
              match noteLine vsWords st with
              | Some st' => LineNext st'
              | None => LineUndefined
              end
            else LineNext st
        end
  end.

Fixpoint parseLines (lines : list string) (st : ChartState)
  : option ChartState :=
  match lines with
  | [] => Some st
  | line :: rest =>
      match parseLine line st with
      | LineBreak => Some st
      | LineNext st' => parseLines rest st'
      | LineUndefined => None
      end
  end.

(** [parseNoteSection] on the lines the stream still holds. *)
Definition parseNoteSection (lines : list string) : option NoteData :=
  newNotes <$> parseLines lines initialState.

End Engine.

(** *** Section tags: [difficultyToString] and [parseDifficulty] *)

(** The difficulty enumeration (Difficulty.h) with the member the tag
    parser answers when it finds no name. *)
Inductive Difficulty :=
| Difficulty_Beginner
| Difficulty_Easy
| Difficulty_Medium
| Difficulty_Hard
| Difficulty_Challenge
| Difficulty_Edit
| Difficulty_Invalid.

Definition difficultyToString (diff : Difficulty) : string :=
  match diff with
  | Difficulty_Challenge => "Expert"
  | Difficulty_Hard => "Hard"
  | Difficulty_Medium => "Medium"
  | Difficulty_Easy => "Easy"
  | _ => "Unknown"
  end.

(** [str.find(name) != std::string::npos] *)
Definition found (name str : string) : bool :=
  match String.index 0 name str with
  | Some _ => true
  | None => false
  end.

Definition parseDifficulty (str : string) : Difficulty :=
  if found "Expert" str then Difficulty_Challenge
  else if found "Hard" str then Difficulty_Hard
  else if found "Medium" str then Difficulty_Medium
  else if found "Easy" str then Difficulty_Easy
  else Difficulty_Invalid.

(** *** The HOPO threshold of [parseHeader] *)

(** What the Resolution line of the header leaves in [*iHopoResolution]:
    [resolution] is the value just read, [iHopoResolution] the threshold
    before the line, [ini] the configuration, [None] when song.ini could
    not be read.  [3 / 8] and [3 / 16] are quotients of ints. *)
Definition parseHeaderHopoResolution (resolution iHopoResolution : Z)
  (ini : option Config.SongIni) : Z :=
  match ini with
  | None => resolution ÷ 4
  | Some ini =>
      let fromFreq :=
        match Config.hopofreq ini with
        | Some hopoRes =>
            if hopoRes =? 0 then resolution ÷ 2
            else if hopoRes =? 1 then resolution * (3 ÷ 8)
            else if hopoRes =? 3 then resolution * (3 ÷ 16)
            else if hopoRes =? 4 then resolution ÷ 8
            else resolution ÷ 4
        | None => iHopoResolution
        end in
      match Config.eighthnote_hopo ini with
      | Some true => fromFreq ÷ 2
      | _ => fromFreq
      end
  end.

End Chart.

(** ** The MIDI engine (NotesLoaderMID.cpp) *)

Module MID.

(** The difficulty enumeration (Difficulty.h); the loader names four of its
    members. *)
Inductive Difficulty :=
| Difficulty_Beginner
| Difficulty_Easy
| Difficulty_Medium
| Difficulty_Hard
| Difficulty_Challenge
| Difficulty_Edit.

#[global] Instance Difficulty_eq_dec : EqDecision Difficulty.
Proof. solve_decision. Defined.

(** *** [translateSysex] *)

Definition commHeader : list Z := [0x50; 0x53; 0x00; 0x00].
Definition tapIndicator : Z * Z := (0xFF, 0x04).
Definition openIndicator : Z := 0x01.
Definition easyIndicator : Z := 0x00.
Definition medIndicator : Z := 0x01.
Definition hardIndicator : Z := 0x02.
Definition expIndicator : Z := 0x03.
Definition onIndicator : Z * Z := (0x01, 0xF7).
Definition offIndicator : Z * Z := (0x00, 0xF7).

(** The header loop: [Some false] at the first differing byte. *)
Fixpoint headerMatches (pData : list Z) (i : nat) (header : list Z)
  : option bool :=
  match header with
  | [] => Some true
  | h :: header' =>
      c ← pData !! i;
      if c =? h then headerMatches pData (S i) header' else Some false
  end.

(** The payload is the list of its [char] values as the comparisons see
    them after integer promotion.  Result: -1 do nothing, 1 tap start,
    2 tap stop, 3 open start, 4 open stop. *)
Definition translateSysex (pData : list Z) (diff : Difficulty) : option Z :=
  ok ← headerMatches pData 0 commHeader;
  if negb ok then Some (-1)
  else
    p4 ← pData !! 4%nat;
    p5 ← pData !! 5%nat;
    let kind :=
      if (p4 =? tapIndicator.1) && (p5 =? tapIndicator.2) then Some 1
      else if (p5 =? openIndicator)
              && (((p4 =? easyIndicator) && bool_decide (diff = Difficulty_Easy))
                  || ((p4 =? medIndicator) && bool_decide (diff = Difficulty_Medium))
                  || ((p4 =? hardIndicator) && bool_decide (diff = Difficulty_Hard))
                  || ((p4 =? expIndicator) && bool_decide (diff = Difficulty_Challenge)))
      then Some 3
      else None in
    match kind with
    | None => Some (-1)
    | Some ret =>
        p7 ← pData !! 7%nat;
        if p7 =? onIndicator.2 then
          p6 ← pData !! 6%nat;
          if p6 =? offIndicator.1 then Some (ret + 1)
          else if negb (p6 =? onIndicator.1) then Some (-1)
          else Some ret
        else Some ret
    end.

(** *** Classification state *)

Inductive HOPORules := GH_HOPO_Rules | RB_HOPO_Rules | Unknown_Rules.

#[global] Instance HOPORules_eq_dec : EqDecision HOPORules.
Proof. solve_decision. Defined.

Inductive ChartFrets := FIVE_FRETS | SIX_FRETS.

#[global] Instance ChartFrets_eq_dec : EqDecision ChartFrets.
Proof. solve_decision. Defined.

Record GuitarData := mkGuitarData {
  iPrevNoteMark : list Z;
  iPrevNoteTrack : Z;
  iLastForcedHOPO : Z;
  iLastForcedStrum : Z;
  iLastChordRow : Z;
  iResolution : Z;
  iHopoResolution : Z;
  iCols : Z;
  bInTapSection : bool;
  bInOpenSection : bool;
  hopoRules : HOPORules;
  fretType : ChartFrets
}.

Definition getNewGuitarData (resolution hopoResolution : Z)
  (rules : HOPORules) (fretType : ChartFrets) : GuitarData :=
  let cols := if decide (fretType = FIVE_FRETS) then 6 else 7 in
  mkGuitarData (replicate (Z.to_nat cols) (-1)) (-1) (-1) (-1) (-1)
    resolution hopoResolution cols false false rules fretType.

Definition set_iLastForcedHOPO (t : Z) (gd : GuitarData) : GuitarData :=
  mkGuitarData (iPrevNoteMark gd) (iPrevNoteTrack gd) t (iLastForcedStrum gd)
    (iLastChordRow gd) (iResolution gd) (iHopoResolution gd) (iCols gd)
    (bInTapSection gd) (bInOpenSection gd) (hopoRules gd) (fretType gd).

Definition set_iLastForcedStrum (t : Z) (gd : GuitarData) : GuitarData :=
  mkGuitarData (iPrevNoteMark gd) (iPrevNoteTrack gd) (iLastForcedHOPO gd) t
    (iLastChordRow gd) (iResolution gd) (iHopoResolution gd) (iCols gd)
    (bInTapSection gd) (bInOpenSection gd) (hopoRules gd) (fretType gd).

Definition set_iLastChordRow (t : Z) (gd : GuitarData) : GuitarData :=
  mkGuitarData (iPrevNoteMark gd) (iPrevNoteTrack gd) (iLastForcedHOPO gd)
    (iLastForcedStrum gd) t (iResolution gd) (iHopoResolution gd) (iCols gd)
    (bInTapSection gd) (bInOpenSection gd) (hopoRules gd) (fretType gd).

Definition set_bInTapSection (b : bool) (gd : GuitarData) : GuitarData :=
  mkGuitarData (iPrevNoteMark gd) (iPrevNoteTrack gd) (iLastForcedHOPO gd)
    (iLastForcedStrum gd) (iLastChordRow gd) (iResolution gd)
    (iHopoResolution gd) (iCols gd) b (bInOpenSection gd) (hopoRules gd)
    (fretType gd).

Definition set_bInOpenSection (b : bool) (gd : GuitarData) : GuitarData :=
  mkGuitarData (iPrevNoteMark gd) (iPrevNoteTrack gd) (iLastForcedHOPO gd)
    (iLastForcedStrum gd) (iLastChordRow gd) (iResolution gd)
    (iHopoResolution gd) (iCols gd) (bInTapSection gd) b (hopoRules gd)
    (fretType gd).

(** [gd.iPrevNoteMark[col] = start; gd.iPrevNoteTrack = col;] *)
Definition set_prevNote (col start : Z) (gd : GuitarData) : GuitarData :=
  mkGuitarData (<[Z.to_nat col := start]> (iPrevNoteMark gd)) col
    (iLastForcedHOPO gd) (iLastForcedStrum gd) (iLastChordRow gd)
    (iResolution gd) (iHopoResolution gd) (iCols gd) (bInTapSection gd)
    (bInOpenSection gd) (hopoRules gd) (fretType gd).

Definition getNoteRangeForDifficulty (diff : Difficulty)
  (fretType : ChartFrets) (lower upper : Z) : Z * Z :=
  let isGHL := bool_decide (fretType = SIX_FRETS) in
  match diff with
  | Difficulty_Easy => (if isGHL then 58 else 60, 66)
  | Difficulty_Medium => (if isGHL then 70 else 72, 78)
  | Difficulty_Hard => (if isGHL then 82 else 84, 90)
  | Difficulty_Challenge => (if isGHL then 94 else 96, 102)
  | _ => (lower, upper)
  end.

(** [placeNote]: as the text engine's emitter, except that an unknown
    category writes the empty kinds. *)
Definition placeNote (notes : NoteData) (track start end_ noteCategory : Z)
  : NoteData :=
  let kinds :=
    if noteCategory =? 1 then (TAP_ORIGINAL_TAP, TAP_ORIGINAL_HOLD_HEAD)
    else if noteCategory =? 2 then (TAP_ORIGINAL_GEM, TAP_ORIGINAL_GEM_HOLD)
    else if noteCategory =? 3 then (TAP_ORIGINAL_HOPO, TAP_ORIGINAL_HOPO_HOLD)
    else (TAP_EMPTY, TAP_EMPTY) in
  if start <? end_
  then AddHoldNote notes track start end_ kinds.2
  else SetTapNote notes track start kinds.1.

(** *** [checkHOPOConditions] *)

(** One turn of the [while (k < gd.iCols)] loop on the triple
    (ShouldBeHOPO, prevNoteTrack, prevNoteMark). *)
Definition hopoLoopBody (iNoteTrack iNoteMark : Z) (gd : GuitarData)
  (acc : bool * Z * Z) (k : Z) : bool * Z * Z :=
  let '(ShouldBeHOPO, prevNoteTrack, prevNoteMark) := acc in
  let mark := vget (iPrevNoteMark gd) k in
  let ShouldBeHOPO' :=
    if (iNoteMark - mark <=? iHopoResolution gd)
       && negb (iNoteTrack =? k)
       && negb (mark =? -1)
    then true else ShouldBeHOPO in
  if prevNoteMark <? mark
  then (ShouldBeHOPO', k, mark)
  else (ShouldBeHOPO', prevNoteTrack, prevNoteMark).

Definition checkHOPOConditions (iNoteTrack iNoteMark : Z) (gd : GuitarData)
  : bool :=
  if iLastForcedStrum gd =? iNoteMark then false
  else if (iLastForcedHOPO gd =? iNoteMark)
          && negb (iLastForcedHOPO gd =? -1) then true
  else if (iLastChordRow gd =? iNoteMark)
          && negb (iLastChordRow gd =? -1) then false
  else
    let '(ShouldBeHOPO, prevNoteTrack, prevNoteMark) :=
      foldl (hopoLoopBody iNoteTrack iNoteMark gd) (false, -1, -1)
        (indices (iCols gd)) in
    if bool_decide (hopoRules gd = RB_HOPO_Rules)
       && negb (prevNoteTrack =? -1)
       && negb (vget (iPrevNoteMark gd) iNoteTrack =? -1)
       && negb (prevNoteMark =? -1)
       && (vget (iPrevNoteMark gd) iNoteTrack =? prevNoteMark)
    then false
    else ShouldBeHOPO.

(** *** The event stream of a track (MidiFile.h) *)

Inductive MidiNoteSubType :=
| MidiNote_NoteOn
| MidiNote_NoteOff
| MidiNote_OtherSubType.

Inductive MidiEvent :=
| MidiEvent_SYSEX (pData : list Z)
| MidiEvent_Note (subType : MidiNoteSubType) (note velocity tick : Z)
| MidiEvent_Other.

(** The loop state: the notes, the start tick of the note-on held in each
    slot of [notesInProgress], and the guitar data. *)
Record TrackState := mkTrackState {
  trackNotes : NoteData;
  notesInProgress : list (option Z);
  trackData : GuitarData
}.

(** *** [addGHRBNote] *)

Section Engine.

(** [BeatToNoteRow tick resolution] stands for the source's
    [BeatToNoteRow((float)tick / resolution)]. *)
Variable BeatToNoteRow : Z -> Z -> Z.

(** The scan filling [taps] on the pair (isChordRow, highestNote). *)
Definition chordScan (taps : Z -> TapNote) (acc : bool * Z) (i : Z)
  : bool * Z :=
  if decide (taps i = TAP_EMPTY) then acc
  else (true, if acc.2 <? i then i else acc.2).

(** The forced-HOPO loop, lanes from the top down, on the pair
    (notes, foundHighest). *)
Definition forcedHOPOBody (taps : Z -> TapNote) (startRow : Z)
  (acc : NoteData * bool) (i : Z) : NoteData * bool :=
  if decide (taps i = TAP_EMPTY) then acc
  else if acc.2 then (SetTapNote acc.1 i startRow TAP_EMPTY, true)
  else (placeNote acc.1 i startRow (startRow + iDuration (taps i)) 3, true).

Definition forcedStrumBody (taps : Z -> TapNote) (startRow : Z)
  (notes : NoteData) (i : Z) : NoteData :=
  if decide (taps i = TAP_EMPTY) then notes
  else placeNote notes i startRow (startRow + iDuration (taps i)) 2.

(** The tail of the normal-note branch: the two assignments on [gd].  The
    array has [iCols] cells. *)
Definition recordNote (notes : NoteData) (col start : Z) (gd : GuitarData)
  : option (NoteData * GuitarData) :=
  if (0 <=? col) && (col <? iCols gd)
     && (Z.to_nat col <? length (iPrevNoteMark gd))%nat
  then Some (notes, set_prevNote col start gd)
  else None.

(** The held computation: the end tick the note is placed with. *)
Definition realEnd (start end_ : Z) (gd : GuitarData) : Z :=
  if iResolution gd ÷ 2 <? end_ - start
  then end_ - iResolution gd ÷ 8
  else start.

(** The [else] block "this is a normal note"; [taps], [isChordRow] and
    [highestNote] are the snapshot of the start row taken on entry. *)
Definition normalNote (notes : NoteData) (taps : Z -> TapNote)
  (isChordRow : bool) (highestNote : Z) (col start startRow endRow : Z)
  (gd : GuitarData) : option (NoteData * GuitarData) :=
  let col :=
    if bInOpenSection gd || ((col =? -1) && (iCols gd =? 7))
    then iCols gd - 1 else col in
  if bInTapSection gd then
    recordNote (placeNote notes col startRow endRow 1) col start gd
  else if isChordRow then
    let wasHopo := isHOPO (taps highestNote) in
    if start =? iLastForcedHOPO gd then
      if col <? highestNote then Some (notes, gd)
      else
        recordNote
          (placeNote (SetTapNote notes highestNote startRow TAP_EMPTY)
             col startRow endRow (if wasHopo then 3 else 2))
          col start (set_iLastChordRow start gd)
    else
      let notes1 :=
        if wasHopo
        then placeNote notes highestNote startRow
               (startRow + iDuration (taps highestNote)) 2
        else notes in
      recordNote (placeNote notes1 col startRow endRow 2)
        col start (set_iLastChordRow start gd)
  else
    let isHopo := checkHOPOConditions col start gd in
    recordNote
      (placeNote notes col startRow endRow (if isHopo then 3 else 2))
      col start gd.

Definition addGHRBNote (notes : NoteData) (col start end_ : Z)
  (gd : GuitarData) : option (NoteData * GuitarData) :=
  let col := if (iCols gd =? 7) && (col <? 7) then col - 1 else col in
  let startRow := BeatToNoteRow start (iResolution gd) in
  let endRow := BeatToNoteRow (realEnd start end_ gd) (iResolution gd) in
  let taps := fun i => GetTapNote notes i startRow in
  let '(isChordRow, highestNote) :=
    foldl (chordScan taps) (false, -1) (indices (iCols gd)) in
  if ((col =? 5) && (iCols gd =? 6)) || ((col =? 7) && (iCols gd =? 7)) then
    let notes' :=
      if isChordRow
      then (foldl (forcedHOPOBody taps startRow) (notes, false)
              (reverse (indices (iCols gd)))).1
      else notes in
    Some (notes', set_iLastForcedHOPO start gd)
  else if ((col =? 6) && (iCols gd =? 6)) || ((col =? 8) && (iCols gd =? 7))
  then
    let notes' :=
      if isChordRow
      then foldl (forcedStrumBody taps startRow) notes (indices (iCols gd))
      else notes in
    Some (notes', set_iLastForcedStrum start gd)
  else
    normalNote notes taps isChordRow highestNote col start startRow endRow gd.

(** *** [getGHRBNotesFromTrack] *)

(** The System-Exclusive branch of the event loop. *)
Definition sysexEvent (pData : list Z) (diff : Difficulty) (gd : GuitarData)
  : option GuitarData :=
  type ← translateSysex pData diff;
  Some (if 2 <? type then set_bInTapSection (Z.rem type 2 =? 1) gd
        else if 0 <? type then set_bInOpenSection (Z.rem type 2 =? 1) gd
        else gd).

(** A note-off, or a note-on of velocity 0, closes the slot. *)
Definition closeNote (idx tick : Z) (ts : TrackState) : option TrackState :=
  slot ← notesInProgress ts !! Z.to_nat idx;
  match slot with
  | Some start =>
      if start <? tick then
        '(notes, gd) ←
          addGHRBNote (trackNotes ts) idx start tick (trackData ts);
        Some (mkTrackState notes
                (<[Z.to_nat idx := None]> (notesInProgress ts)) gd)
      else Some ts
  | None => Some ts
  end.

(** A note-on of positive velocity opens the slot unless one is open. *)
Definition openNote (idx tick : Z) (ts : TrackState) : option TrackState :=
  slot ← notesInProgress ts !! Z.to_nat idx;
  match slot with
  | None =>
      Some (mkTrackState (trackNotes ts)
              (<[Z.to_nat idx := Some tick]> (notesInProgress ts))
              (trackData ts))
  | Some _ => Some ts
  end.

Definition noteEvent (low high : Z) (subType : MidiNoteSubType)
  (note velocity tick : Z) (ts : TrackState) : option TrackState :=
  let idx := note - low in
  if (0 <=? idx) && (note <=? high) then
    match subType with
    | MidiNote_NoteOn =>
        if 0 <? velocity then openNote idx tick ts
        else if velocity =? 0 then closeNote idx tick ts
        else Some ts
    | MidiNote_NoteOff => closeNote idx tick ts
    | MidiNote_OtherSubType => Some ts
    end
  else Some ts.

Definition trackEvent (diff : Difficulty) (low high : Z) (evt : MidiEvent)
  (ts : TrackState) : option TrackState :=
  match evt with
  | MidiEvent_SYSEX pData =>
      gd ← sysexEvent pData diff (trackData ts);
      Some (mkTrackState (trackNotes ts) (notesInProgress ts) gd)
  | MidiEvent_Note subType note velocity tick =>
      noteEvent low high subType note velocity tick ts
  | MidiEvent_Other => Some ts
  end.

Fixpoint trackEvents (diff : Difficulty) (low high : Z)
  (track : list MidiEvent) (ts : TrackState) : option TrackState :=
  match track with
  | [] => Some ts
  | evt :: rest =>
      ts' ← trackEvent diff low high evt ts;
      trackEvents diff low high rest ts'
  end.

Definition getGHRBNotesFromTrack (track : list MidiEvent) (diff : Difficulty)
  (rules : HOPORules) (fretType : ChartFrets) (resolution HOPOres : Z)
  : option NoteData :=
  let cols := if decide (fretType = FIVE_FRETS) then 6 else 7 in
  let bonusCols := if decide (fretType = SIX_FRETS) then 2 else 1 in
  let '(low, high) := getNoteRangeForDifficulty diff fretType 0 0 in
  let gd := getNewGuitarData resolution HOPOres rules fretType in
  trackNotes <$>
    trackEvents diff low high track
      (mkTrackState ∅ (replicate (Z.to_nat (cols + bonusCols)) None) gd).

End Engine.

(** *** [compareToString] *)

(** [cstr] is the character buffer from the pointer on, [str] the
    characters of the string; a read past the buffer is undefined. *)
Fixpoint compareFrom (cstr : list ascii) (i : nat) (str : list ascii)
  : option bool :=
  match str with
  | [] => c ← cstr !! i; Some (bool_decide (c = Ascii.zero))
  | s :: str' =>
      c ← cstr !! i;
      if bool_decide (c = s) then compareFrom cstr (S i) str' else Some false
  end.

Definition compareToString (cstr : list ascii) (str : list ascii)
  : option bool :=
  compareFrom cstr 0 str.

(** *** The HOPO threshold of [parseINI] *)

(** What [parseINI] leaves in [*hopoResolution]; [ini] is [None] when
    song.ini could not be read.  Case 4 divides by the double 1.5 and
    converts the sum back to [int]: the truncation of
    (2 resolution + 30) / 3. *)
Definition parseINI (resolution hopoResolution : Z)
  (ini : option Config.SongIni) : Z :=
  match ini with
  | None => resolution ÷ 3 + 10
  | Some ini =>
      let fromFreq :=
        match Config.hopofreq ini with
        | Some hopoRes =>
            if hopoRes =? 0 then resolution ÷ 6 + 10
            else if hopoRes =? 1 then resolution ÷ 4 + 10
            else if hopoRes =? 3 then resolution ÷ 2 + 10
            else if hopoRes =? 4 then (2 * resolution + 30) ÷ 3
            else if hopoRes =? 5 then resolution + 10
            else resolution ÷ 3 + 10
        | None => hopoResolution
        end in
      match Config.eighthnote_hopo ini with
      | Some true => fromFreq ÷ 2
      | _ => fromFreq
      end
  end.

(** *** [getGenericNotesFromTrack] *)

(** The loop state: the notes and the tick of the note-on held in each
    slot of [notesInProgress]. *)
Record GenericState := mkGenericState {
  genericNotes : NoteData;
  genericInProgress : list (option Z)
}.

(** [notesInProgress[idx]]: a negative index is out of range as much as
    one past the end. *)
Definition genericSlot (idx : Z) (gs : GenericState) : option (option Z) :=
  if idx <? 0 then None else genericInProgress gs !! Z.to_nat idx.

Section Generic.

Variable BeatToNoteRow : Z -> Z -> Z.

Definition genericNoteOn (idx tick : Z) (gs : GenericState)
  : option GenericState :=
  slot ← genericSlot idx gs;
  match slot with
  | None =>
      Some (mkGenericState (genericNotes gs)
              (<[Z.to_nat idx := Some tick]> (genericInProgress gs)))
  | Some _ => Some gs
  end.

Definition genericNoteOff (resolution idx tick : Z) (gs : GenericState)
  : option GenericState :=
  slot ← genericSlot idx gs;
  match slot with
  | Some startTick =>
      let start := BeatToNoteRow startTick resolution in
      let end_ := BeatToNoteRow tick resolution in
      if start <? end_ then
        let notes :=
          if end_ - start <? 24
          then AddHoldNote (genericNotes gs) idx start end_
                 TAP_ORIGINAL_HOLD_HEAD
          else SetTapNote (genericNotes gs) idx start TAP_ORIGINAL_TAP in
        Some (mkGenericState notes
                (<[Z.to_nat idx := None]> (genericInProgress gs)))
      else Some gs
  | None => Some gs
  end.

(** One event; [note % cols] with [cols] zero is undefined. *)
Definition genericEvent (resolution cols : Z) (evt : MidiEvent)
  (gs : GenericState) : option GenericState :=
  match evt with
  | MidiEvent_Note subType note velocity tick =>
      if cols =? 0 then None
      else
        let idx := Z.rem note cols in
        match subType with
        | MidiNote_NoteOn => genericNoteOn idx tick gs
        | MidiNote_NoteOff => genericNoteOff resolution idx tick gs
        | MidiNote_OtherSubType => Some gs
        end
  | _ => Some gs
  end.

Fixpoint genericEvents (resolution cols : Z) (track : list MidiEvent)
  (gs : GenericState) : option GenericState :=
  match track with
  | [] => Some gs
  | evt :: rest =>
      gs' ← genericEvent resolution cols evt gs;
      genericEvents resolution cols rest gs'
  end.

(** A negative [cols] has no vector of slots. *)
Definition getGenericNotesFromTrack (track : list MidiEvent)
  (resolution cols : Z) : option NoteData :=
  if cols <? 0 then None
  else
    genericNotes <$>
      genericEvents resolution cols track
        (mkGenericState ∅ (replicate (Z.to_nat cols) None)).

End Generic.

End MID.

(** ** Vocabulary of the statements *)

(** What an emitter call with a known category leaves at its start row. *)
Definition emitted (single held : TapNoteType) (start end_ : Z) : TapNote :=
  if start <? end_ then mkTapNote held (end_ - start) else mkTapNote single 0.

Definition categoryNote (noteCategory start end_ : Z) : TapNote :=
  if noteCategory =? 1
  then emitted TapNoteType_Tap TapNoteType_HoldHead start end_
  else if noteCategory =? 2
  then emitted TapNoteType_Gem TapNoteType_GemHold start end_
  else emitted TapNoteType_HOPO TapNoteType_HOPOHold start end_.

(** What the statements ask of the row conversion at a resolution: it is
    monotone in the tick, and ticks a quarter of a beat apart fall on
    different rows. *)
Definition rowMonotone (row : Z -> Z -> Z) (resolution : Z) : Prop :=
  ∀ a b, a <= b -> row a resolution <= row b resolution.


(** The per-track vectors of the text engine keep their five cells. *)
Definition wfState (st : Chart.ChartState) : Prop :=
  length (Chart.iPrevNoteMark st) = 5%nat
  ∧ length (Chart.iPrevNoteLength st) = 5%nat
  ∧ length (Chart.bPrevNoteHOPO st) = 5%nat.

(** The state of lane [a] once the chord loop at tick [t] has demoted the
    note it held in state [st0]: flag cleared, chord tick recorded, and the
    note re-emitted as a gem from its stored start and duration. *)
Definition demoted (BeatToNoteRow : Z -> Z -> Z) (resolution : Z) (t a : Z)
  (st0 st : Chart.ChartState) : Prop :=
  let mark := vget (Chart.iPrevNoteMark st0) a in
  let startRow := BeatToNoteRow mark resolution in
  let endRow :=
    BeatToNoteRow (wrapInt (mark + vget (Chart.iPrevNoteLength st0) a))
      resolution in
  bget (Chart.bPrevNoteHOPO st) a = false
  ∧ Chart.iLastChordRow st = t
  ∧ GetTapNote (Chart.newNotes st) a startRow
    = categoryNote 2 startRow endRow.

(** The lane array of the MIDI engine has its [iCols] cells, six or seven. *)
Definition wfGuitar (gd : MID.GuitarData) : Prop :=
  (MID.iCols gd = 6 ∨ MID.iCols gd = 7)
  ∧ length (MID.iPrevNoteMark gd) = Z.to_nat (MID.iCols gd).

(** The lanes of playable notes as [getGHRBNotesFromTrack] numbers them:
    0..4 on five frets, 0..6 on six; the lanes above are the markers. *)
Definition playableLane (gd : MID.GuitarData) (col : Z) : Prop :=
  (MID.iCols gd = 6 ∧ 0 <= col <= 4) ∨ (MID.iCols gd = 7 ∧ 0 <= col <= 6).

(** The forced-HOPO marker lane: 5 on five frets, 7 on six. *)
Definition forcedHOPOLane (gd : MID.GuitarData) (col : Z) : Prop :=
  (MID.iCols gd = 6 ∧ col = 5) ∨ (MID.iCols gd = 7 ∧ col = 7).

(** The lane scan of the MIDI predicate: some lane other than the current
    one holds a last note no further back than the HOPO threshold. *)
Definition laneScan (iNoteTrack iNoteMark : Z) (gd : MID.GuitarData) : bool :=
  existsb
    (fun k =>
       (iNoteMark - vget (MID.iPrevNoteMark gd) k <=? MID.iHopoResolution gd)
       && negb (iNoteTrack =? k)
       && negb (vget (MID.iPrevNoteMark gd) k =? -1))
    (indices (MID.iCols gd)).

(** The latest last-note tick over all lanes, -1 when no lane has a note. *)
Definition lastNoteMax (gd : MID.GuitarData) : Z :=
  foldr (fun k m => Z.max (vget (MID.iPrevNoteMark gd) k) m) (-1)
    (indices (MID.iCols gd)).

(** The three tests of the text engine's lane scan, named apart: the tick
    is on the last chord row; this track took part in the chord the
    preceding note closed; lane [k]'s last note is within one tick; lane
    [k]'s last note is close enough, on a track change, to make a HOPO. *)
Definition onChordRow (iNoteMark : Z) (st : Chart.ChartState) : bool :=
  (Z.abs (Chart.iLastChordRow st - iNoteMark) <=? 1)
  && negb (Chart.iLastChordRow st =? -1).

Definition afterOwnChord (iNoteTrack : Z) (st : Chart.ChartState) : bool :=
  negb (Chart.iPrevNoteTrack st =? -1)
  && negb (vget (Chart.iPrevNoteMark st) iNoteTrack =? -1)
  && negb (vget (Chart.iPrevNoteMark st) (Chart.iPrevNoteTrack st) =? -1)
  && (Z.abs (vget (Chart.iPrevNoteMark st) iNoteTrack
             - vget (Chart.iPrevNoteMark st) (Chart.iPrevNoteTrack st)) <=? 1)
  && negb (Chart.iPrevNoteTrack st =? iNoteTrack).

Definition laneWithinOne (iNoteMark : Z) (st : Chart.ChartState) (k : Z)
  : bool :=
  Z.abs (iNoteMark - vget (Chart.iPrevNoteMark st) k) <=? 1.

Definition laneInReach (iHopoResolution iNoteMark iNoteTrack : Z)
  (st : Chart.ChartState) (k : Z) : bool :=
  (Z.abs (iNoteMark - vget (Chart.iPrevNoteMark st) k) - 1
   <=? iHopoResolution)
  && negb (iNoteTrack =? Chart.iPrevNoteTrack st)
  && negb (vget (Chart.iPrevNoteMark st) k =? -1).

(** What every state of the text engine satisfies: five cells per vector,
    and a preceding track that is -1 or a lane. *)
Definition chartInvariant (st : Chart.ChartState) : Prop :=
  wfState st
  ∧ (Chart.iPrevNoteTrack st = -1 ∨ 0 <= Chart.iPrevNoteTrack st < 5).

(** The byte [translateSysex] expects for a difficulty in an open-note
    payload; the two members it never names have none. *)
Definition difficultyIndicator (diff : MID.Difficulty) : option Z :=
  match diff with
  | MID.Difficulty_Easy => Some MID.easyIndicator
  | MID.Difficulty_Medium => Some MID.medIndicator
  | MID.Difficulty_Hard => Some MID.hardIndicator
  | MID.Difficulty_Challenge => Some MID.expIndicator
  | _ => None
  end.

(** A payload laid out as the decoder reads it: header, two type bytes,
    two trailer bytes, then whatever follows. *)
Definition sysexBytes (typeBytes trailer : Z * Z) (tail : list Z) : list Z :=
  MID.commHeader ++ [typeBytes.1; typeBytes.2; trailer.1; trailer.2] ++ tail.

(** The forced-strum marker lane: 6 on five frets, 8 on six. *)
Definition forcedStrumLane (gd : MID.GuitarData) (col : Z) : Prop :=
  (MID.iCols gd = 6 ∧ col = 6) ∨ (MID.iCols gd = 7 ∧ col = 8).

(** The column a playable lane's note is placed in: the last column in an
    open section; on six frets lane 0, the open strum, goes to the last
    column and the frets move down by one; on five frets the lane itself. *)
Definition noteColumn (gd : MID.GuitarData) (col : Z) : Z :=
  if MID.bInOpenSection gd then MID.iCols gd - 1
  else if MID.iCols gd =? 7 then (if col =? 0 then 6 else col - 1)
  else col.

(** The notes occupy only the first [n] tracks. *)
Definition tracksWithin (notes : NoteData) (n : Z) : Prop :=
  ∀ i r, GetTapNote notes i r ≠ TAP_EMPTY -> 0 <= i < n.

(** The lanes of a guitar track as the MIDI file numbers them, playable
    lanes and markers together: seven on five frets, nine on six. *)
Definition midiLanes (gd : MID.GuitarData) : Z :=
  if MID.iCols gd =? 6 then 7 else 9.

(** What the event loop of [getGHRBNotesFromTrack] keeps: the lane array
    of the guitar data, one slot per lane of the file, and the notes on
    the tracks of the note data. *)
Definition trackInvariant (ts : MID.TrackState) : Prop :=
  wfGuitar (MID.trackData ts)
  ∧ length (MID.notesInProgress ts)
    = Z.to_nat (midiLanes (MID.trackData ts))
  ∧ tracksWithin (MID.trackNotes ts) (MID.iCols (MID.trackData ts)).

(** A System-Exclusive event whose payload holds every byte the decoder
    reads; any other event. *)
Definition sysexReadable (diff : MID.Difficulty) (evt : MID.MidiEvent)
  : Prop :=
  match evt with
  | MID.MidiEvent_SYSEX pData => is_Some (MID.translateSysex pData diff)
  | _ => True
  end.

(** The four difficulties the loader names. *)
Definition namedDifficulty (diff : MID.Difficulty) : Prop :=
  diff = MID.Difficulty_Easy ∨ diff = MID.Difficulty_Medium
  ∨ diff = MID.Difficulty_Hard ∨ diff = MID.Difficulty_Challenge.


(** A line of a note section the engine can read without indexing past
    its words or its five lanes: an empty line, a brace, or a line of at
    least three words, four when it is an event, and five when it is a
    note, which then names track 0 to 5. *)
Definition lineReadable (line : string) : Prop :=
  let vsWords := Chart.getLineWords line in
  match vsWords with
  | [] => True
  | w0 :: _ =>
      Chart.firstChar w0 = Some "{"%char
      ∨ Chart.firstChar w0 = Some "}"%char
      ∨ ((3 <= length vsWords)%nat
         ∧ (vsWords !! 2%nat = Some "E"%string ->
            (4 <= length vsWords)%nat)
         ∧ (vsWords !! 2%nat = Some "N"%string ->
            (5 <= length vsWords)%nat
            ∧ ∀ w3, vsWords !! 3%nat = Some w3 -> 0 <= Chart.atoi w3 <= 5))
  end.


(** A note event of non-negative pitch; any other event. *)
Definition pitchNonneg (evt : MID.MidiEvent) : Prop :=
  match evt with
  | MID.MidiEvent_Note _ note _ _ => 0 <= note
  | _ => True
  end.

(** What the generic loader places: plain taps, and hold heads shorter
    than 24 rows. *)
Definition genericKinds (notes : NoteData) : Prop :=
  ∀ i r,
    GetTapNote notes i r = TAP_EMPTY
    ∨ GetTapNote notes i r = TAP_ORIGINAL_TAP
    ∨ (type (GetTapNote notes i r) = TapNoteType_HoldHead
       ∧ 0 < iDuration (GetTapNote notes i r) < 24).


(** The values a payload byte takes when [char] is signed. *)
Definition signedChar (b : Z) : Prop := -128 <= b <= 127.


(** A note as the emitters write it: one of the three categories, with a
    positive duration on a held kind and none on a single kind. *)
Definition noteKind (tn : TapNote) : Prop :=
  isTap tn || isStrum tn || isHOPO tn = true
  ∧ if isHeld tn then 0 < iDuration tn else iDuration tn = 0.

Definition notesKinded (notes : NoteData) : Prop :=
  ∀ i r, GetTapNote notes i r = TAP_EMPTY ∨ noteKind (GetTapNote notes i r).


(** The values of an [int]. *)
Definition inInt (z : Z) : Prop := -2147483648 <= z <= 2147483647.




(** A payload byte, 0 to 255, as the comparisons of [translateSysex] see
    it once the [char] holding it is promoted to [int]: itself where
    [char] is unsigned, and 256 less from 128 on where [char] is signed. *)
Definition promoteChar (signed : bool) (byte : Z) : Z :=
  if signed && (128 <=? byte) then byte - 256 else byte.

Definition payloadOf (signed : bool) (bytes : list Z) : list Z :=
  promoteChar signed <$> bytes.


(** * Properties *)

(** ** The timeline *)

Lemma GetTapNote_SetTapNote (notes : NoteData) (track row : Z) (tn : TapNote) :
  GetTapNote (SetTapNote notes track row tn) track row
  = if decide (type tn = TapNoteType_Empty) then TAP_EMPTY else tn.
Proof.
  unfold GetTapNote, SetTapNote. case_decide.
  - by rewrite lookup_delete_eq.
  - by rewrite lookup_insert_eq.
Qed.

Lemma GetTapNote_SetTapNote_ne (notes : NoteData) (track row track' row' : Z)
  (tn : TapNote) :
  (track, row) ≠ (track', row') ->
  GetTapNote (SetTapNote notes track row tn) track' row'
  = GetTapNote notes track' row'.
Proof.
  intros Hne. unfold GetTapNote, SetTapNote. case_decide.
  - by rewrite lookup_delete_ne.
  - by rewrite lookup_insert_ne.
Qed.

Lemma GetTapNote_AddHoldNote_ne (notes : NoteData)
  (track startRow endRow track' row' : Z) (tn : TapNote) :
  (track, startRow) ≠ (track', row') ->
  GetTapNote (AddHoldNote notes track startRow endRow tn) track' row'
  = GetTapNote notes track' row'.
Proof. intros. unfold AddHoldNote. by apply GetTapNote_SetTapNote_ne. Qed.

Lemma categoryNote_held (c start end_ : Z) :
  isHeld (categoryNote c start end_) = (start <? end_).
Proof.
  unfold categoryNote, emitted.
  destruct (c =? 1), (c =? 2), (start <? end_); reflexivity.
Qed.


Lemma categoryNote_kind (c start end_ : Z) :
  isTap (categoryNote c start end_) = (c =? 1)
  ∧ isStrum (categoryNote c start end_) = negb (c =? 1) && (c =? 2)
  ∧ isHOPO (categoryNote c start end_) = negb (c =? 1) && negb (c =? 2).
Proof.
  unfold categoryNote, emitted.
  destruct (c =? 1), (c =? 2), (start <? end_); done.
Qed.

Lemma GetTapNote_addNote (notes : NoteData) (track start end_ c : Z) :
  c = 1 ∨ c = 2 ∨ c = 3 ->
  GetTapNote (Chart.addNote notes track start end_ c) track start
  = categoryNote c start end_.
Proof.
  intros [-> | [-> | ->]]; unfold Chart.addNote, categoryNote, emitted; simpl;
    destruct (start <? end_); unfold AddHoldNote;
    by rewrite GetTapNote_SetTapNote.
Qed.

Lemma GetTapNote_addNote_ne (notes : NoteData) (track start end_ c : Z)
  (track' row' : Z) :
  (track, start) ≠ (track', row') ->
  GetTapNote (Chart.addNote notes track start end_ c) track' row'
  = GetTapNote notes track' row'.
Proof.
  intros Hne. unfold Chart.addNote.
  destruct (c =? 1); [|destruct (c =? 2); [|destruct (c =? 3); [|done]]];
    destruct (start <? end_);
    by (apply GetTapNote_AddHoldNote_ne || apply GetTapNote_SetTapNote_ne).
Qed.

Lemma GetTapNote_placeNote (notes : NoteData) (track start end_ c : Z) :
  c = 1 ∨ c = 2 ∨ c = 3 ->
  GetTapNote (MID.placeNote notes track start end_ c) track start
  = categoryNote c start end_.
Proof.
  intros [-> | [-> | ->]]; unfold MID.placeNote, categoryNote, emitted; simpl;
    destruct (start <? end_); unfold AddHoldNote;
    by rewrite GetTapNote_SetTapNote.
Qed.

Lemma GetTapNote_placeNote_ne (notes : NoteData) (track start end_ c : Z)
  (track' row' : Z) :
  (track, start) ≠ (track', row') ->
  GetTapNote (MID.placeNote notes track start end_ c) track' row'
  = GetTapNote notes track' row'.
Proof.
  intros Hne. unfold MID.placeNote.
  destruct (start <? end_);
    by (apply GetTapNote_AddHoldNote_ne || apply GetTapNote_SetTapNote_ne).
Qed.

(** ** The emitters on an unknown category *)

(** C10.  For every track, start row, end row and every note category
    outside 1, 2, 3, the text engine's [addNote] returns the note data it
    was given, unchanged at every track and row; the MIDI engine's
    [placeNote], by contrast, leaves an empty event at the start row. *)
Theorem addNote_unknown_category_frame
  (notes : NoteData) (track start end_ noteCategory : Z) :
  noteCategory ≠ 1 -> noteCategory ≠ 2 -> noteCategory ≠ 3 ->
  Chart.addNote notes track start end_ noteCategory = notes
  ∧ (∀ t r, GetTapNote (Chart.addNote notes track start end_ noteCategory) t r
            = GetTapNote notes t r)
  ∧ GetTapNote (MID.placeNote notes track start end_ noteCategory) track start
    = TAP_EMPTY.
Proof.
  intros H1 H2 H3.
  assert (Hadd : Chart.addNote notes track start end_ noteCategory = notes).
  { unfold Chart.addNote.
    destruct (Z.eqb_spec noteCategory 1); [done|].
    destruct (Z.eqb_spec noteCategory 2); [done|].
    destruct (Z.eqb_spec noteCategory 3); done. }
  split; [exact Hadd|]. split; [intros; by rewrite Hadd|].
  unfold MID.placeNote.
  destruct (Z.eqb_spec noteCategory 1); [done|].
  destruct (Z.eqb_spec noteCategory 2); [done|].
  destruct (Z.eqb_spec noteCategory 3); [done|].
  simpl. destruct (start <? end_); unfold AddHoldNote;
    by rewrite GetTapNote_SetTapNote.
Qed.

Lemma addNote_unknown_category_frame_witness :
  let notes : NoteData := {[ (2, 10) := TAP_ORIGINAL_HOPO ]} in
  Chart.addNote notes 2 10 20 7 = notes
  ∧ (∀ t r, GetTapNote (Chart.addNote notes 2 10 20 7) t r
            = GetTapNote notes t r)
  ∧ GetTapNote (MID.placeNote notes 2 10 20 7) 2 10 = TAP_EMPTY.
Proof.
  intros notes.
  apply (addNote_unknown_category_frame notes 2 10 20 7); lia.
Defined.

(** ** The row grid of the model conversion *)


Lemma BeatToNoteRow_monotone (resolution : Z) :
  0 < resolution -> rowMonotone BeatToNoteRow resolution.
Proof.
  intros Hres a b Hab. unfold BeatToNoteRow, ROWS_PER_BEAT. cbv zeta.
  pose proof (Z.div_mod (48 * a) resolution ltac:(lia)) as Ha.
  pose proof (Z.div_mod (48 * b) resolution ltac:(lia)) as Hb.
  pose proof (Z.mod_pos_bound (48 * a) resolution Hres) as Hra.
  pose proof (Z.mod_pos_bound (48 * b) resolution Hres) as Hrb.
  assert (Hq : (48 * a) / resolution <= (48 * b) / resolution)
    by (apply Z.div_le_mono; lia).
  set (qa := (48 * a) / resolution) in *.
  set (qb := (48 * b) / resolution) in *.
  set (ra := (48 * a) mod resolution) in *.
  set (rb := (48 * b) mod resolution) in *.
  destruct (Z.eq_dec qa qb) as [Heq | Hne].
  - assert (ra <= rb) by nia.
    rewrite <- Heq.
    repeat case_match; lia.
  - repeat case_match; lia.
Qed.


(** ** Vector cells *)

Lemma vget_insert_eq (v : list Z) (i x : Z) :
  (Z.to_nat i < length v)%nat -> vget (<[Z.to_nat i := x]> v) i = x.
Proof. intros. unfold vget. by rewrite list_lookup_insert_eq. Qed.

Lemma vget_insert_ne (v : list Z) (i j x : Z) :
  0 <= i -> 0 <= j -> i ≠ j -> vget (<[Z.to_nat i := x]> v) j = vget v j.
Proof.
  intros. unfold vget. rewrite list_lookup_insert_ne; [done | lia].
Qed.

Lemma bget_insert_eq (v : list bool) (i : Z) (x : bool) :
  (Z.to_nat i < length v)%nat -> bget (<[Z.to_nat i := x]> v) i = x.
Proof. intros. unfold bget. by rewrite list_lookup_insert_eq. Qed.

Lemma bget_insert_ne (v : list bool) (i j : Z) (x : bool) :
  0 <= i -> 0 <= j -> i ≠ j -> bget (<[Z.to_nat i := x]> v) j = bget v j.
Proof.
  intros. unfold bget. rewrite list_lookup_insert_ne; [done | lia].
Qed.

Lemma indices_5 : indices 5 = [0; 1; 2; 3; 4].
Proof. reflexivity. Qed.

(** ** The text engine *)

(** Reduce projections of the setters, and nothing else. *)
(** ** Ints in range *)

Lemma wrapInt_id (z : Z) : inInt z -> wrapInt z = z.
Proof.
  unfold inInt, wrapInt. intros Hz.
  rewrite Z.mod_small by lia. lia.
Qed.

(** ** What the emitters leave in a cell *)

Lemma categoryNote_noteKind (c start end_ : Z) :
  noteKind (categoryNote c start end_).
Proof.
  unfold noteKind. rewrite categoryNote_held.
  destruct (categoryNote_kind c start end_) as (-> & -> & ->).
  split; [by destruct (c =? 1), (c =? 2)|].
  unfold categoryNote, emitted.
  destruct (Z.ltb_spec start end_), (c =? 1), (c =? 2); cbn [iDuration]; lia.
Qed.

Lemma notesKinded_clear (notes : NoteData) (i r : Z) :
  notesKinded notes -> notesKinded (SetTapNote notes i r TAP_EMPTY).
Proof.
  intros Hk i' r'.
  destruct (decide ((i, r) = (i', r'))) as [[= <- <-] | Hne].
  - left. by rewrite GetTapNote_SetTapNote.
  - rewrite GetTapNote_SetTapNote_ne by done. apply Hk.
Qed.

Lemma notesKinded_placeNote (notes : NoteData) (i start end_ c : Z) :
  notesKinded notes -> notesKinded (MID.placeNote notes i start end_ c).
Proof.
  intros Hk i' r'.
  destruct (decide ((i, start) = (i', r'))) as [[= <- <-] | Hne].
  - destruct (decide (c = 1 ∨ c = 2 ∨ c = 3)) as [Hc | Hc].
    + right. rewrite GetTapNote_placeNote by done.
      apply categoryNote_noteKind.
    + left. unfold MID.placeNote.
      destruct (Z.eqb_spec c 1); [lia|].
      destruct (Z.eqb_spec c 2); [lia|].
      destruct (Z.eqb_spec c 3); [lia|].
      cbn [fst snd]. destruct (start <? end_); unfold AddHoldNote;
        by rewrite GetTapNote_SetTapNote.
  - rewrite GetTapNote_placeNote_ne by done. apply Hk.
Qed.

Lemma notesKinded_addNote (notes : NoteData) (i start end_ c : Z) :
  notesKinded notes -> notesKinded (Chart.addNote notes i start end_ c).
Proof.
  intros Hk i' r'.
  destruct (decide ((i, start) = (i', r'))) as [[= <- <-] | Hne].
  - destruct (decide (c = 1 ∨ c = 2 ∨ c = 3)) as [Hc | Hc].
    + right. rewrite GetTapNote_addNote by done.
      apply categoryNote_noteKind.
    + unfold Chart.addNote.
      destruct (Z.eqb_spec c 1); [lia|].
      destruct (Z.eqb_spec c 2); [lia|].
      destruct (Z.eqb_spec c 3); [lia|]. apply Hk.
  - rewrite GetTapNote_addNote_ne by done. apply Hk.
Qed.


Ltac chart_fields :=
  cbn [Chart.newNotes Chart.iPrevNoteMark Chart.iPrevNoteTrack
       Chart.iPrevNoteLength Chart.bPrevNoteHOPO Chart.iLastForcedRow
       Chart.iLastTapRow Chart.iLastChordRow Chart.set_newNotes
       Chart.set_iPrevNoteLength Chart.set_bPrevNoteHOPO
       Chart.set_iLastForcedRow Chart.set_iLastTapRow
       Chart.set_iLastChordRow Chart.recordPrev].

Section ChartProperties.

Variable BeatToNoteRow : Z -> Z -> Z.
Variables resolution iHopoResolution : Z.

Local Abbreviation row t := (BeatToNoteRow t resolution).
Local Abbreviation sustainCorrection :=
  (Chart.sustainCorrection BeatToNoteRow resolution).
Local Abbreviation chordBreak := (Chart.chordBreak BeatToNoteRow resolution).
Local Abbreviation chordBreaksHOPO :=
  (Chart.chordBreaksHOPO BeatToNoteRow resolution).
Local Abbreviation emitNote :=
  (Chart.emitNote BeatToNoteRow resolution iHopoResolution).
Local Abbreviation noteRecord :=
  (Chart.noteRecord BeatToNoteRow resolution iHopoResolution).
Local Abbreviation forcedMarker := (Chart.forcedMarker BeatToNoteRow resolution).
Local Abbreviation demoted := (demoted BeatToNoteRow resolution).

Lemma noteRecord_unfold_at (h iNoteMark iNoteTrack iNoteLength : Z)
  (st : Chart.ChartState) :
  0 <= iNoteTrack < 5 ->
  Chart.noteRecord BeatToNoteRow resolution h
    iNoteMark iNoteTrack iNoteLength st
  = Some (Chart.recordPrev iNoteMark iNoteTrack iNoteLength
            (Chart.emitNote BeatToNoteRow resolution h
               iNoteMark iNoteTrack iNoteLength
               (chordBreaksHOPO iNoteMark iNoteTrack
                  (sustainCorrection iNoteMark iNoteTrack st)))).
Proof.
  intros H. unfold Chart.noteRecord.
  destruct (Z.leb_spec 0 iNoteTrack); [|lia].
  destruct (Z.ltb_spec iNoteTrack 5); [done|lia].
Qed.

Lemma noteRecord_unfold (iNoteMark iNoteTrack iNoteLength : Z)
  (st : Chart.ChartState) :
  0 <= iNoteTrack < 5 ->
  noteRecord iNoteMark iNoteTrack iNoteLength st
  = Some (Chart.recordPrev iNoteMark iNoteTrack iNoteLength
            (emitNote iNoteMark iNoteTrack iNoteLength
               (chordBreaksHOPO iNoteMark iNoteTrack
                  (sustainCorrection iNoteMark iNoteTrack st)))).
Proof. apply noteRecord_unfold_at. Qed.

Lemma emitNote_tap_row (h h' t r len : Z) (st : Chart.ChartState) :
  Chart.nearTapRow t st = true ->
  Chart.emitNote BeatToNoteRow resolution h t r len st
  = Chart.emitNote BeatToNoteRow resolution h' t r len st.
Proof. intros H. unfold Chart.emitNote. by rewrite H. Qed.


(** *** The sustain block and the chord loop touch only their own lanes *)

Lemma sustainCorrection_fields (t r : Z) (st : Chart.ChartState) :
  Chart.iPrevNoteMark (sustainCorrection t r st) = Chart.iPrevNoteMark st
  ∧ Chart.iPrevNoteTrack (sustainCorrection t r st) = Chart.iPrevNoteTrack st
  ∧ Chart.bPrevNoteHOPO (sustainCorrection t r st) = Chart.bPrevNoteHOPO st
  ∧ Chart.iLastForcedRow (sustainCorrection t r st) = Chart.iLastForcedRow st
  ∧ Chart.iLastTapRow (sustainCorrection t r st) = Chart.iLastTapRow st
  ∧ Chart.iLastChordRow (sustainCorrection t r st) = Chart.iLastChordRow st
  ∧ length (Chart.iPrevNoteLength (sustainCorrection t r st))
    = length (Chart.iPrevNoteLength st).
Proof.
  unfold Chart.sustainCorrection. case_match; chart_fields; repeat split; try done.
  by rewrite length_insert.
Qed.

Lemma sustainCorrection_other_lane (t r a : Z) (st : Chart.ChartState) :
  0 <= r -> 0 <= a -> a ≠ r ->
  vget (Chart.iPrevNoteLength (sustainCorrection t r st)) a
  = vget (Chart.iPrevNoteLength st) a
  ∧ ∀ row', GetTapNote (Chart.newNotes (sustainCorrection t r st)) a row'
            = GetTapNote (Chart.newNotes st) a row'.
Proof.
  intros Hr Ha Hne. unfold Chart.sustainCorrection. case_match; chart_fields; [|done].
  split; [by apply vget_insert_ne|].
  intros row'. rewrite GetTapNote_addNote_ne by congruence.
  apply GetTapNote_SetTapNote_ne. congruence.
Qed.

Lemma chordBreak_fields (t b k : Z) (st : Chart.ChartState) :
  Chart.iPrevNoteMark (chordBreak t b st k) = Chart.iPrevNoteMark st
  ∧ Chart.iPrevNoteLength (chordBreak t b st k) = Chart.iPrevNoteLength st
  ∧ Chart.iPrevNoteTrack (chordBreak t b st k) = Chart.iPrevNoteTrack st
  ∧ Chart.iLastForcedRow (chordBreak t b st k) = Chart.iLastForcedRow st
  ∧ Chart.iLastTapRow (chordBreak t b st k) = Chart.iLastTapRow st
  ∧ length (Chart.bPrevNoteHOPO (chordBreak t b st k))
    = length (Chart.bPrevNoteHOPO st)
  ∧ (Chart.iLastChordRow (chordBreak t b st k) = t
     ∨ Chart.iLastChordRow (chordBreak t b st k) = Chart.iLastChordRow st).
Proof.
  unfold Chart.chordBreak. case_match; chart_fields; repeat split; auto.
  by rewrite length_insert.
Qed.

Lemma chordBreaksHOPO_fields (t b : Z) (ks : list Z) (st : Chart.ChartState) :
  let st' := foldl (chordBreak t b) st ks in
  Chart.iPrevNoteMark st' = Chart.iPrevNoteMark st
  ∧ Chart.iPrevNoteLength st' = Chart.iPrevNoteLength st
  ∧ Chart.iPrevNoteTrack st' = Chart.iPrevNoteTrack st
  ∧ Chart.iLastForcedRow st' = Chart.iLastForcedRow st
  ∧ Chart.iLastTapRow st' = Chart.iLastTapRow st
  ∧ length (Chart.bPrevNoteHOPO st') = length (Chart.bPrevNoteHOPO st).
Proof.
  revert st. induction ks as [|k ks IH]; intros st; simpl; [done|].
  destruct (IH (chordBreak t b st k)) as (-> & -> & -> & -> & -> & ->).
  destruct (chordBreak_fields t b k st) as (-> & -> & -> & -> & -> & -> & _).
  done.
Qed.

Lemma chordBreak_other_lane (t b k a : Z) (st : Chart.ChartState) :
  0 <= k -> 0 <= a -> k ≠ a ->
  bget (Chart.bPrevNoteHOPO (chordBreak t b st k)) a
  = bget (Chart.bPrevNoteHOPO st) a
  ∧ ∀ row', GetTapNote (Chart.newNotes (chordBreak t b st k)) a row'
            = GetTapNote (Chart.newNotes st) a row'.
Proof.
  intros Hk Ha Hne. unfold Chart.chordBreak. case_match; chart_fields; [|done].
  split; [by apply bget_insert_ne|].
  intros row'. apply GetTapNote_addNote_ne. congruence.
Qed.

Lemma chordBreak_keeps_demoted (t b a k : Z) (st0 st : Chart.ChartState) :
  0 <= k -> 0 <= a ->
  demoted t a st0 st -> demoted t a st0 (chordBreak t b st k).
Proof.
  intros Hk Ha (Hflag & Hrow & Hnote).
  destruct (Z.eq_dec k a) as [-> | Hne].
  - unfold Chart.chordBreak. rewrite Hflag. done.
  - destruct (chordBreak_other_lane t b k a st Hk Ha Hne) as [Hf Hn].
    destruct (chordBreak_fields t b k st) as (_ & _ & _ & _ & _ & _ & Hc).
    split; [by rewrite Hf|]. split; [destruct Hc; congruence|].
    by rewrite Hn.
Qed.

Lemma chordBreaks_keep_demoted (t b a : Z) (ks : list Z)
  (st0 st : Chart.ChartState) :
  Forall (Z.le 0) ks -> 0 <= a ->
  demoted t a st0 st -> demoted t a st0 (foldl (chordBreak t b) st ks).
Proof.
  intros Hks Ha. revert st.
  induction Hks as [|k ks Hk Hks IH]; intros st Hd; simpl; [done|].
  apply IH. by apply chordBreak_keeps_demoted.
Qed.

Lemma chordBreaks_demote (t b a : Z) (ks : list Z)
  (st0 st : Chart.ChartState) :
  Forall (Z.le 0) ks -> 0 <= a -> a ∈ ks -> a ≠ b ->
  (Z.to_nat a < length (Chart.bPrevNoteHOPO st))%nat ->
  Chart.iPrevNoteMark st = Chart.iPrevNoteMark st0 ->
  Chart.iPrevNoteLength st = Chart.iPrevNoteLength st0 ->
  bget (Chart.bPrevNoteHOPO st) a = true ->
  Z.abs (t - vget (Chart.iPrevNoteMark st0) a) <= 1 ->
  demoted t a st0 (foldl (chordBreak t b) st ks).
Proof.
  intros Hks Ha Hin Hab Hlen Hm Hl Hflag Hnear. revert st Hlen Hm Hl Hflag.
  induction Hks as [|k ks Hk Hks IH]; intros st Hlen Hm Hl Hflag; simpl.
  - by apply elem_of_nil in Hin.
  - destruct (Z.eq_dec k a) as [-> | Hne].
    + apply chordBreaks_keep_demoted; [done..|].
      unfold Chart.chordBreak, demoted. rewrite Hflag, Hm, Hl.
      destruct (Z.eqb_spec a b); [done|].
      destruct (Z.leb_spec (Z.abs (t - vget (Chart.iPrevNoteMark st0) a)) 1);
        [|lia].
      cbn [andb negb]. chart_fields.
      split; [by apply bget_insert_eq|]. split; [done|].
      by apply GetTapNote_addNote; auto.
    + apply elem_of_cons in Hin as [? | Hin]; [congruence|].
      destruct (chordBreak_fields t b k st) as (Hm' & Hl' & _ & _ & _ & Hlen' & _).
      destruct (chordBreak_other_lane t b k a st Hk Ha Hne) as [Hf' _].
      apply IH; [done| lia | congruence | congruence | congruence].
Qed.

Lemma emitNote_other_lane (t b len a : Z) (st : Chart.ChartState) :
  0 <= b -> 0 <= a -> a ≠ b ->
  bget (Chart.bPrevNoteHOPO (emitNote t b len st)) a
  = bget (Chart.bPrevNoteHOPO st) a
  ∧ Chart.iLastChordRow (emitNote t b len st) = Chart.iLastChordRow st
  ∧ ∀ row', GetTapNote (Chart.newNotes (emitNote t b len st)) a row'
            = GetTapNote (Chart.newNotes st) a row'.
Proof.
  intros Hb Ha Hne. unfold Chart.emitNote. case_match; chart_fields.
  - split; [by apply bget_insert_ne|]. split; [done|].
    intros row'. apply GetTapNote_addNote_ne. congruence.
  - split; [by apply bget_insert_ne|]. split; [done|].
    intros row'. apply GetTapNote_addNote_ne. congruence.
Qed.

Lemma recordPrev_fields (t r len : Z) (st : Chart.ChartState) :
  Chart.newNotes (Chart.recordPrev t r len st) = Chart.newNotes st
  ∧ Chart.bPrevNoteHOPO (Chart.recordPrev t r len st) = Chart.bPrevNoteHOPO st
  ∧ Chart.iLastChordRow (Chart.recordPrev t r len st) = Chart.iLastChordRow st.
Proof. done. Qed.

(** C3.  For every incoming note record at tick [t] on track [b], and for
    every other track [a] whose last note was classified HOPO and lies
    within one tick of [t]: after the note branch, track [a]'s note has been
    re-emitted as a strum from its stored start and duration, so it reads
    as a strum and no longer as a HOPO; its HOPO flag is cleared; and [t]
    is the last chord tick. *)
Theorem chord_breaks_HOPO (st : Chart.ChartState) (t b len a : Z) :
  let mark := vget (Chart.iPrevNoteMark st) a in
  let duration := vget (Chart.iPrevNoteLength st) a in
  wfState st -> 0 <= b < 5 -> 0 <= a < 5 -> a ≠ b ->
  bget (Chart.bPrevNoteHOPO st) a = true ->
  Z.abs (t - mark) <= 1 ->
  ∃ st', noteRecord t b len st = Some st'
  ∧ GetTapNote (Chart.newNotes st') a (row mark)
    = categoryNote 2 (row mark) (row (wrapInt (mark + duration)))
  ∧ isStrum (GetTapNote (Chart.newNotes st') a (row mark)) = true
  ∧ isHOPO (GetTapNote (Chart.newNotes st') a (row mark)) = false
  ∧ bget (Chart.bPrevNoteHOPO st') a = false
  ∧ Chart.iLastChordRow st' = t.
Proof.
  intros mark duration (Hm & Hl & Hh) Hb Ha Hab Hflag Hnear.
  eexists. split; [by apply noteRecord_unfold|].
  set (st1 := sustainCorrection t b st).
  set (st2 := chordBreaksHOPO t b st1).
  destruct (sustainCorrection_fields t b st)
    as (Hm1 & _ & Hh1 & _ & _ & _ & _).
  destruct (sustainCorrection_other_lane t b a st) as [Hl1 _]; [lia..|].
  fold st1 in Hm1, Hh1, Hl1.
  assert (Hd : demoted t a st1 st2).
  { subst st2. unfold Chart.chordBreaksHOPO. rewrite indices_5.
    apply chordBreaks_demote; try done; try lia.
    - repeat constructor; lia.
    - rewrite !elem_of_cons. lia.
    - rewrite Hh1. lia.
    - by rewrite Hh1.
    - by rewrite Hm1. }
  destruct Hd as (Hf2 & Hc2 & Hn2). cbv zeta in Hn2.
  rewrite Hm1, Hl1 in Hn2. fold mark duration in Hn2.
  destruct (emitNote_other_lane t b len a st2) as (Hf3 & Hc3 & Hn3); [lia..|].
  destruct (recordPrev_fields t b len (emitNote t b len st2))
    as (Hn4 & Hf4 & Hc4).
  rewrite Hn4, Hf4, Hc4, Hn3, Hf3, Hc3, Hn2.
  destruct (categoryNote_kind 2 (row mark) (row (wrapInt (mark + duration))))
    as (_ & Hs & Hp).
  rewrite Hs, Hp. done.
Qed.

(** *** What the note branch leaves at the incoming note's own cell *)

Lemma nearTapRow_chordBreaks_sustain (t r : Z) (st : Chart.ChartState) :
  Chart.nearTapRow t (chordBreaksHOPO t r (sustainCorrection t r st))
  = Chart.nearTapRow t st
  ∧ Chart.nearForcedRow t (chordBreaksHOPO t r (sustainCorrection t r st))
    = Chart.nearForcedRow t st
  ∧ length (Chart.bPrevNoteHOPO (chordBreaksHOPO t r (sustainCorrection t r st)))
    = length (Chart.bPrevNoteHOPO st).
Proof.
  unfold Chart.nearTapRow, Chart.nearForcedRow, Chart.chordBreaksHOPO.
  destruct (chordBreaksHOPO_fields t r (indices 5) (sustainCorrection t r st))
    as (_ & _ & _ & -> & -> & ->).
  destruct (sustainCorrection_fields t r st) as (_ & _ & -> & -> & -> & _).
  done.
Qed.

(** The category the note branch emits the incoming note in. *)
Lemma noteRecord_emits (st : Chart.ChartState) (t r len : Z) :
  let st2 := chordBreaksHOPO t r (sustainCorrection t r st) in
  let category :=
    if Chart.nearTapRow t st then 1
    else if Chart.decideHOPO iHopoResolution t r st2 then 3 else 2 in
  wfState st -> 0 <= r < 5 ->
  ∃ st', noteRecord t r len st = Some st'
  ∧ GetTapNote (Chart.newNotes st') r (row t)
    = categoryNote category (row t) (row (wrapInt (t + len)))
  ∧ bget (Chart.bPrevNoteHOPO st') r = (category =? 3).
Proof.
  intros st2 category (Hm & Hl & Hh) Hr.
  destruct (nearTapRow_chordBreaks_sustain t r st) as (Htap & _ & Hlen).
  fold st2 in Htap, Hlen.
  eexists. split; [by apply noteRecord_unfold|]. fold st2.
  unfold Chart.emitNote. rewrite Htap. subst category.
  destruct (Chart.nearTapRow t st); chart_fields.
  - split; [apply GetTapNote_addNote; auto|].
    apply bget_insert_eq. lia.
  - split.
    + apply GetTapNote_addNote. destruct (Chart.decideHOPO _ _ _ _); auto.
    + rewrite bget_insert_eq by lia.
      by destruct (Chart.decideHOPO _ _ _ _).
Qed.

Lemma forcedMarker_fields (f : Z) (st : Chart.ChartState) :
  Chart.iLastForcedRow (forcedMarker f st) = f
  ∧ Chart.iPrevNoteMark (forcedMarker f st) = Chart.iPrevNoteMark st
  ∧ Chart.iPrevNoteTrack (forcedMarker f st) = Chart.iPrevNoteTrack st
  ∧ Chart.iLastChordRow (forcedMarker f st) = Chart.iLastChordRow st.
Proof. done. Qed.

Lemma hopoScan_forcedMarker (t r f : Z) (st : Chart.ChartState)
  (ks : list Z) (b : bool) :
  Chart.hopoScan iHopoResolution t r (forcedMarker f st) ks b
  = Chart.hopoScan iHopoResolution t r st ks b.
Proof.
  destruct (forcedMarker_fields f st) as (_ & Hm & Ht & Hc).
  revert b. induction ks as [|k ks IH]; intros b; [done|].
  cbn [Chart.hopoScan]. rewrite Hm, Ht, Hc, IH. done.
Qed.

Lemma nearForcedRow_spec (t : Z) (st : Chart.ChartState) :
  Chart.nearForcedRow t st = true
  ↔ Z.abs (Chart.iLastForcedRow st - t) <= 1 ∧ Chart.iLastForcedRow st ≠ -1.
Proof.
  unfold Chart.nearForcedRow. rewrite andb_true_iff, negb_true_iff.
  by rewrite Z.leb_le, Z.eqb_neq.
Qed.

Lemma nearTapRow_spec (t : Z) (st : Chart.ChartState) :
  Chart.nearTapRow t st = true
  ↔ Z.abs (Chart.iLastTapRow st - t) <= 1 ∧ Chart.iLastTapRow st ≠ -1.
Proof.
  unfold Chart.nearTapRow. rewrite andb_true_iff, negb_true_iff.
  by rewrite Z.leb_le, Z.eqb_neq.
Qed.

(** The note branch off a tap row, for a decision [d] named apart. *)
Lemma noteRecord_decision (st : Chart.ChartState) (t r len : Z) (d : bool) :
  wfState st -> 0 <= r < 5 ->
  Chart.nearTapRow t st = false ->
  Chart.decideHOPO iHopoResolution t r
    (chordBreaksHOPO t r (sustainCorrection t r st)) = d ->
  ∃ st', noteRecord t r len st = Some st'
  ∧ bget (Chart.bPrevNoteHOPO st') r = d
  ∧ isHOPO (GetTapNote (Chart.newNotes st') r (row t)) = d
  ∧ isStrum (GetTapNote (Chart.newNotes st') r (row t)) = negb d.
Proof.
  intros Hwf Hr Htap Hd.
  destruct (noteRecord_emits st t r len Hwf Hr) as (st' & Hrec & Hget & Hflag).
  rewrite Htap, Hd in Hget. rewrite Htap, Hd in Hflag.
  exists st'. split; [exact Hrec|]. rewrite Hget, Hflag.
  destruct (categoryNote_kind (if d then 3 else 2) (row t) (row (wrapInt (t + len))))
    as (_ & -> & ->).
  by destruct d.
Qed.

(** C4.  For every note that reaches the HOPO decision (its tick is not on
    a tap row): when its tick lies within one of the last forced-marker
    tick and a marker has been recorded, the note is stored and emitted
    with the opposite of the decision the lane scan computed (strum
    becomes HOPO, HOPO becomes strum); otherwise with the computed
    decision.  Only the last marker tick is kept: after two markers at
    different ticks the decision for a tick near the second is reversed
    once, also when that tick is near the first as well, and a tick away
    from the second is not reversed; a marker leaves the scan itself
    unchanged. *)
Theorem forced_marker_inversion :
  (∀ (st : Chart.ChartState) (t r len : Z),
     let st2 := chordBreaksHOPO t r (sustainCorrection t r st) in
     let computed :=
       Chart.hopoScan iHopoResolution t r st2 (indices 5) false in
     let emittedAs := if Chart.nearForcedRow t st
                      then negb computed else computed in
     wfState st -> 0 <= r < 5 ->
     ¬ (Z.abs (Chart.iLastTapRow st - t) <= 1 ∧ Chart.iLastTapRow st ≠ -1) ->
     (Chart.nearForcedRow t st = true
      ↔ Z.abs (Chart.iLastForcedRow st - t) <= 1
        ∧ Chart.iLastForcedRow st ≠ -1)
     ∧ ∃ st', noteRecord t r len st = Some st'
       ∧ bget (Chart.bPrevNoteHOPO st') r = emittedAs
       ∧ isHOPO (GetTapNote (Chart.newNotes st') r (row t)) = emittedAs
       ∧ isStrum (GetTapNote (Chart.newNotes st') r (row t))
         = negb emittedAs)
  ∧ (∀ (st : Chart.ChartState) (f1 f2 t r : Z),
       let st' := forcedMarker f2 (forcedMarker f1 st) in
       let computed :=
         Chart.hopoScan iHopoResolution t r st (indices 5) false in
       f1 ≠ f2 -> f2 ≠ -1 ->
       Chart.iLastForcedRow st' = f2
       ∧ Chart.hopoScan iHopoResolution t r st' (indices 5) false = computed
       ∧ (Z.abs (f2 - t) <= 1 ->
          Chart.decideHOPO iHopoResolution t r st' = negb computed)
       ∧ (1 < Z.abs (f2 - t) ->
          Chart.decideHOPO iHopoResolution t r st' = computed)).
Proof.
  split.
  - intros st t r len st2 computed emittedAs Hwf Hr Hnotap.
    split; [apply nearForcedRow_spec|].
    apply noteRecord_decision; [done | done | |].
    + apply not_true_is_false. by rewrite nearTapRow_spec.
    + unfold Chart.decideHOPO.
      destruct (nearTapRow_chordBreaks_sustain t r st) as (_ & -> & _).
      done.
  - intros st f1 f2 t r st' computed Hne Hrec.
    assert (Hscan :
      Chart.hopoScan iHopoResolution t r st' (indices 5) false = computed).
    { unfold st'. by rewrite !hopoScan_forcedMarker. }
    destruct (forcedMarker_fields f2 (forcedMarker f1 st)) as (Hf & _).
    split; [exact Hf|]. split; [exact Hscan|].
    unfold Chart.decideHOPO, Chart.nearForcedRow. rewrite Hscan.
    fold st' in Hf. rewrite Hf.
    split; intros Hnear.
    + destruct (Z.leb_spec (Z.abs (f2 - t)) 1); [|lia].
      destruct (Z.eqb_spec f2 (-1)); [lia|]. done.
    + destruct (Z.leb_spec (Z.abs (f2 - t)) 1); [lia|]. done.
Qed.

(** On a tap row the note branch never consults the HOPO threshold. *)
Lemma noteRecord_tap_row (st : Chart.ChartState) (t r len : Z) :
  wfState st -> 0 <= r < 5 ->
  Z.abs (Chart.iLastTapRow st - t) <= 1 -> Chart.iLastTapRow st ≠ -1 ->
  ∃ st', noteRecord t r len st = Some st'
  ∧ GetTapNote (Chart.newNotes st') r (row t)
    = categoryNote 1 (row t) (row (wrapInt (t + len)))
  ∧ bget (Chart.bPrevNoteHOPO st') r = false
  ∧ ∀ iHopoResolution',
      Chart.noteRecord BeatToNoteRow resolution iHopoResolution' t r len st
      = Some st'.
Proof.
  intros Hwf Hr Hnear Hrec.
  assert (Htap : Chart.nearTapRow t st = true) by by apply nearTapRow_spec.
  destruct (noteRecord_emits st t r len Hwf Hr) as (st' & Hnote & Hget & Hflag).
  rewrite Htap in Hget, Hflag.
  exists st'. split; [exact Hnote|]. split; [exact Hget|].
  split; [exact Hflag|].
  intros h'. rewrite <- Hnote.
  rewrite (noteRecord_unfold_at h') by done.
  rewrite noteRecord_unfold by done.
  rewrite (emitNote_tap_row h' iHopoResolution); [done|].
  destruct (nearTapRow_chordBreaks_sustain t r st) as (-> & _ & _).
  exact Htap.
Qed.


(** *** The lane scan in closed form *)

Lemma hopoScan_open (t r : Z) (st : Chart.ChartState) (ks : list Z)
  (b : bool) :
  onChordRow t st = false -> afterOwnChord r st = false ->
  Chart.hopoScan iHopoResolution t r st ks b
  = forallb (fun k => negb (laneWithinOne t st k)) ks
    && (b || existsb (laneInReach iHopoResolution t r st) ks).
Proof.
  intros Hchord Hown. unfold onChordRow in Hchord.
  unfold afterOwnChord in Hown.
  revert b. induction ks as [|k ks IH]; intros b.
  - cbn [Chart.hopoScan forallb existsb]. by destruct b.
  - cbn [Chart.hopoScan forallb existsb]. rewrite Hchord, Hown, orb_false_r.
    fold (laneWithinOne t st k). fold (laneInReach iHopoResolution t r st k).
    destruct (laneWithinOne t st k); [done|]. rewrite IH.
    cbn [negb andb].
    destruct (laneInReach iHopoResolution t r st k), b; cbn [orb];
      by rewrite ?orb_true_r.
Qed.

Lemma hopoScan_closed_false (t r : Z) (st : Chart.ChartState) (k : Z)
  (ks : list Z) (b : bool) :
  onChordRow t st = true ∨ afterOwnChord r st = true ->
  Chart.hopoScan iHopoResolution t r st (k :: ks) b = false.
Proof.
  intros H. cbn [Chart.hopoScan].
  fold (onChordRow t st). fold (afterOwnChord r st).
  destruct H as [-> | ->]; [by rewrite orb_true_r|].
  by destruct (_ || _).
Qed.

Lemma hopoScan_lanes (t r : Z) (st : Chart.ChartState) (k : Z)
  (ks : list Z) :
  Chart.hopoScan iHopoResolution t r st (k :: ks) false
  = negb (onChordRow t st) && negb (afterOwnChord r st)
    && forallb (fun k => negb (laneWithinOne t st k)) (k :: ks)
    && existsb (laneInReach iHopoResolution t r st) (k :: ks).
Proof.
  destruct (onChordRow t st) eqn:Hchord.
  { rewrite hopoScan_closed_false by auto. done. }
  destruct (afterOwnChord r st) eqn:Hown.
  { rewrite hopoScan_closed_false by auto. done. }
  by rewrite hopoScan_open.
Qed.


(** *** When a text note is a strum, and when a HOPO *)

Lemma scan_tests_after_blocks (t r : Z) (st : Chart.ChartState) :
  let st2 := chordBreaksHOPO t r (sustainCorrection t r st) in
  afterOwnChord r st2 = afterOwnChord r st
  ∧ (∀ k, laneWithinOne t st2 k = laneWithinOne t st k)
  ∧ (∀ k, laneInReach iHopoResolution t r st2 k
          = laneInReach iHopoResolution t r st k).
Proof.
  intros st2. subst st2. unfold Chart.chordBreaksHOPO.
  destruct (chordBreaksHOPO_fields t r (indices 5) (sustainCorrection t r st))
    as (Hm & _ & Ht & _).
  destruct (sustainCorrection_fields t r st) as (Hm' & Ht' & _).
  unfold afterOwnChord, laneWithinOne, laneInReach.
  rewrite Hm, Ht, Hm', Ht'. done.
Qed.


(** Off tap rows and forced rows, a text note is emitted as a strum, and
    its HOPO flag stays clear, in each of these cases: it is on the track
    of the preceding note; no lane holds a previous note; some lane's last
    note (or its initial -1) lies within one tick; the tick, other than
    -1, is within one of the last chord row. *)
Theorem text_note_strum_cases (st : Chart.ChartState) (t r len : Z) :
  wfState st -> 0 <= r < 5 ->
  Chart.nearTapRow t st = false ->
  Chart.nearForcedRow t st = false ->
  r = Chart.iPrevNoteTrack st
  ∨ (∀ k, 0 <= k < 5 -> vget (Chart.iPrevNoteMark st) k = -1)
  ∨ (∃ k, 0 <= k < 5 ∧ Z.abs (t - vget (Chart.iPrevNoteMark st) k) <= 1)
  ∨ (t ≠ -1 ∧ Z.abs (Chart.iLastChordRow st - t) <= 1
     ∧ Chart.iLastChordRow st ≠ -1) ->
  ∃ st', noteRecord t r len st = Some st'
  ∧ bget (Chart.bPrevNoteHOPO st') r = false
  ∧ isHOPO (GetTapNote (Chart.newNotes st') r (row t)) = false
  ∧ isStrum (GetTapNote (Chart.newNotes st') r (row t)) = true.
Proof.
  intros Hwf Hr Htap Hforced Hcase.
  apply (noteRecord_decision st t r len false Hwf Hr Htap).
  unfold Chart.decideHOPO.
  destruct (nearTapRow_chordBreaks_sustain t r st) as (_ & -> & _).
  rewrite Hforced, indices_5, hopoScan_lanes, <- indices_5.
  destruct (scan_tests_after_blocks t r st) as (-> & Hone & Hreach).
  set (st2 := chordBreaksHOPO t r (sustainCorrection t r st)) in *.
  destruct Hcase
    as [Hsame | [Hnone | [(k & Hk & Hnear) | (Htick & Hnear & Hrec)]]].
  - (* same track *)
    assert (existsb (laneInReach iHopoResolution t r st2) (indices 5) = false)
      as ->; [|by rewrite andb_false_r].
    apply not_true_is_false. intros H.
    apply existsb_exists in H as (k & _ & H). rewrite Hreach in H.
    unfold laneInReach in H. rewrite <- Hsame, Z.eqb_refl in H.
    by rewrite andb_false_r in H.
  - (* no previous note *)
    assert (existsb (laneInReach iHopoResolution t r st2) (indices 5) = false)
      as ->; [|by rewrite andb_false_r].
    apply not_true_is_false. intros H.
    apply existsb_exists in H as (k & Hk & H). rewrite Hreach in H.
    apply list_elem_of_In, elem_of_seqZ in Hk.
    unfold laneInReach in H. rewrite (Hnone k) in H by lia.
    by rewrite andb_false_r in H.
  - (* a lane within one tick *)
    assert (forallb (fun k => negb (laneWithinOne t st2 k)) (indices 5)
            = false) as ->; [|by rewrite andb_false_r].
    apply not_true_is_false. intros H.
    rewrite forallb_forall in H.
    specialize (H k). rewrite Hone in H. unfold laneWithinOne in H.
    destruct (Z.leb_spec (Z.abs (t - vget (Chart.iPrevNoteMark st) k)) 1);
      [|lia].
    discriminate H. apply list_elem_of_In, elem_of_seqZ. lia.
  - (* on the last chord row *)
    assert (onChordRow t st2 = true) as ->; [|done].
    subst st2. unfold Chart.chordBreaksHOPO.
    unfold onChordRow.
    assert (Hrow :
      Chart.iLastChordRow
        (foldl (chordBreak t r) (sustainCorrection t r st) (indices 5)) = t
      ∨ Chart.iLastChordRow
          (foldl (chordBreak t r) (sustainCorrection t r st) (indices 5))
        = Chart.iLastChordRow st).
    { destruct (sustainCorrection_fields t r st)
        as (_ & _ & _ & _ & _ & <- & _).
      generalize (sustainCorrection t r st). generalize (indices 5).
      intros ks. induction ks as [|j ks IH]; intros s; cbn [foldl]; [auto|].
      destruct (chordBreak_fields t r j s) as (_ & _ & _ & _ & _ & _ & Hc).
      destruct (IH (chordBreak t r s j)) as [-> | ->]; [auto|].
      destruct Hc as [-> | ->]; auto. }
    destruct Hrow as [-> | ->].
    + rewrite Z.sub_diag. cbn [Z.abs Z.leb Z.compare andb].
      by destruct (Z.eqb_spec t (-1)).
    + destruct (Z.leb_spec (Z.abs (Chart.iLastChordRow st - t)) 1); [|lia].
      by destruct (Z.eqb_spec (Chart.iLastChordRow st) (-1)).
Qed.


(** *** The marker lines *)

Lemma forcedMarker_fold (r : Z) (ks : list Z) (nd : NoteData) :
  NoDup ks ->
  let body := fun nd l =>
    Chart.addNote nd l r (r + iDuration (GetTapNote nd l r))
      (if isHOPO (GetTapNote nd l r) then 3 else 2) in
  (∀ l, l ∈ ks ->
     GetTapNote (foldl body nd ks) l r
     = categoryNote (if isHOPO (GetTapNote nd l r) then 3 else 2) r
         (r + iDuration (GetTapNote nd l r)))
  ∧ (∀ l r', l ∉ ks ∨ r' ≠ r ->
       GetTapNote (foldl body nd ks) l r' = GetTapNote nd l r').
Proof.
  intros Hnd body. revert nd.
  induction ks as [|k ks IH]; intros nd; cbn [foldl].
  - split; [intros l Hl; by apply elem_of_nil in Hl | done].
  - apply NoDup_cons in Hnd as [Hk Hnd].
    destruct (IH Hnd (body nd k)) as [Hin Hout].
    assert (Hstep : ∀ l r', (k, r) ≠ (l, r') ->
              GetTapNote (body nd k) l r' = GetTapNote nd l r').
    { intros l r' Hne. by apply GetTapNote_addNote_ne. }
    split.
    + intros l Hl. apply elem_of_cons in Hl as [-> | Hl].
      * rewrite Hout by auto. apply GetTapNote_addNote.
        destruct (isHOPO _); auto.
      * rewrite (Hin l Hl). rewrite Hstep; [done|]. intros [= ->]. done.
    + intros l r' Hfree. rewrite Hout.
      * apply Hstep. intros [= -> ->]. destruct Hfree as [H | H]; [|done].
        apply H, elem_of_cons. auto.
      * destruct Hfree as [H | H]; [left | by right].
        intros Hl. apply H, elem_of_cons. auto.
Qed.

(** A forced marker ("E *" or lane 5) records its tick and re-emits the
    five lanes of its row without toggling anything: an event that reads
    as HOPO stays a HOPO, every other event becomes a gem, taps included,
    and an empty lane receives a plain gem.  No other cell changes. *)
Theorem forcedMarker_reemits_row (f : Z) (st : Chart.ChartState) :
  let st' := forcedMarker f st in
  Chart.iLastForcedRow st' = f
  ∧ (∀ l, 0 <= l < 5 ->
       let old := GetTapNote (Chart.newNotes st) l (row f) in
       let new := GetTapNote (Chart.newNotes st') l (row f) in
       new = categoryNote (if isHOPO old then 3 else 2) (row f)
               (row f + iDuration old)
       ∧ isHOPO new = isHOPO old
       ∧ isTap new = false
       ∧ (old = TAP_EMPTY -> new = TAP_ORIGINAL_GEM))
  ∧ (∀ l r', ¬ (0 <= l < 5 ∧ r' = row f) ->
       GetTapNote (Chart.newNotes st') l r'
       = GetTapNote (Chart.newNotes st) l r').
Proof.
  intros st'. split; [done|].
  destruct (forcedMarker_fold (row f) (indices 5) (Chart.newNotes st)
              (NoDup_seqZ 0 5)) as [Hin Hout].
  split.
  - intros l Hl old new.
    assert (Hnew : new = categoryNote (if isHOPO old then 3 else 2) (row f)
                           (row f + iDuration old)).
    { apply Hin, elem_of_seqZ. lia. }
    split; [exact Hnew|]. rewrite Hnew.
    destruct (categoryNote_kind (if isHOPO old then 3 else 2) (row f)
                (row f + iDuration old)) as (-> & _ & ->).
    split; [by destruct (isHOPO old)|]. split; [by destruct (isHOPO old)|].
    intros ->. cbn [isHOPO TAP_EMPTY type iDuration bool_decide orb].
    unfold categoryNote, emitted. cbn [Z.eqb Pos.eqb].
    by rewrite Z.add_0_r, Z.ltb_irrefl.
  - intros l r' Hfree. apply Hout.
    destruct (decide (r' = row f)) as [-> | Hne]; [left | by right].
    unfold indices. rewrite elem_of_seqZ. lia.
Qed.

Lemma tapMarker_fold (r : Z) (ks : list Z) (nd : NoteData) :
  NoDup ks ->
  let body := fun nd l =>
    if decide (GetTapNote nd l r = TAP_EMPTY) then nd
    else Chart.addNote nd l r (r + iDuration (GetTapNote nd l r)) 1 in
  (∀ l, l ∈ ks ->
     GetTapNote (foldl body nd ks) l r
     = if decide (GetTapNote nd l r = TAP_EMPTY) then TAP_EMPTY
       else categoryNote 1 r (r + iDuration (GetTapNote nd l r)))
  ∧ (∀ l r', l ∉ ks ∨ r' ≠ r ->
       GetTapNote (foldl body nd ks) l r' = GetTapNote nd l r').
Proof.
  intros Hnd body. revert nd.
  induction ks as [|k ks IH]; intros nd; cbn [foldl].
  - split; [intros l Hl; by apply elem_of_nil in Hl | done].
  - apply NoDup_cons in Hnd as [Hk Hnd].
    destruct (IH Hnd (body nd k)) as [Hin Hout].
    assert (Hstep : ∀ l r', (k, r) ≠ (l, r') ->
              GetTapNote (body nd k) l r' = GetTapNote nd l r').
    { intros l r' Hne. unfold body. case_decide; [done|].
      by apply GetTapNote_addNote_ne. }
    split.
    + intros l Hl. apply elem_of_cons in Hl as [-> | Hl].
      * rewrite Hout by auto. unfold body.
        destruct (decide (GetTapNote nd k r = TAP_EMPTY)) as [He | Hne];
          [done|].
        apply GetTapNote_addNote. auto.
      * rewrite (Hin l Hl). rewrite Hstep; [done|]. intros [= ->]. done.
    + intros l r' Hfree. rewrite Hout.
      * apply Hstep. intros [= -> ->]. destruct Hfree as [H | H]; [|done].
        apply H, elem_of_cons. auto.
      * destruct Hfree as [H | H]; [left | by right].
        intros Hl. apply H, elem_of_cons. auto.
Qed.

(** A tap marker ("E T") records its tick and turns every event already on
    its row, on the five lanes, into a tap of the same span; empty lanes
    stay empty and no other cell changes. *)
Theorem tapMarker_retags_row (t : Z) (st : Chart.ChartState) :
  let st' := Chart.tapMarker BeatToNoteRow resolution t st in
  Chart.iLastTapRow st' = t
  ∧ (∀ l, 0 <= l < 5 ->
       let old := GetTapNote (Chart.newNotes st) l (row t) in
       let new := GetTapNote (Chart.newNotes st') l (row t) in
       (old = TAP_EMPTY -> new = TAP_EMPTY)
       ∧ (old ≠ TAP_EMPTY ->
          new = categoryNote 1 (row t) (row t + iDuration old)
          ∧ isTap new = true))
  ∧ (∀ l r', ¬ (0 <= l < 5 ∧ r' = row t) ->
       GetTapNote (Chart.newNotes st') l r'
       = GetTapNote (Chart.newNotes st) l r').
Proof.
  intros st'. split; [done|].
  destruct (tapMarker_fold (row t) (indices 5) (Chart.newNotes st)
              (NoDup_seqZ 0 5)) as [Hin Hout].
  split.
  - intros l Hl old new.
    assert (Hnew : new = if decide (old = TAP_EMPTY) then TAP_EMPTY
                         else categoryNote 1 (row t) (row t + iDuration old)).
    { apply Hin, elem_of_seqZ. lia. }
    split.
    + intros He. rewrite Hnew. by rewrite decide_True.
    + intros Hne. rewrite Hnew, decide_False by done.
      split; [done|].
      by destruct (categoryNote_kind 1 (row t) (row t + iDuration old))
        as (-> & _).
  - intros l r' Hfree. apply Hout.
    destruct (decide (r' = row t)) as [-> | Hne]; [left | by right].
    unfold indices. rewrite elem_of_seqZ. lia.
Qed.

(** *** The line loop *)

Lemma noteRecord_None (t r len : Z) (st : Chart.ChartState) :
  ¬ (0 <= r < 5) -> noteRecord t r len st = None.
Proof.
  intros H. unfold Chart.noteRecord.
  destruct (Z.leb_spec 0 r); [|done].
  destruct (Z.ltb_spec r 5); [lia|done].
Qed.

Lemma emitNote_fields (t r len : Z) (st : Chart.ChartState) :
  Chart.iPrevNoteMark (emitNote t r len st) = Chart.iPrevNoteMark st
  ∧ Chart.iPrevNoteLength (emitNote t r len st) = Chart.iPrevNoteLength st
  ∧ length (Chart.bPrevNoteHOPO (emitNote t r len st))
    = length (Chart.bPrevNoteHOPO st).
Proof.
  unfold Chart.emitNote. case_match; chart_fields; by rewrite length_insert.
Qed.

Lemma recordPrev_wf (t r len : Z) (st : Chart.ChartState) :
  wfState st -> 0 <= r < 5 -> chartInvariant (Chart.recordPrev t r len st).
Proof.
  intros (Hm & Hl & Hh) Hr. split; [|right; chart_fields; lia].
  unfold wfState. chart_fields. by rewrite !length_insert.
Qed.

Lemma noteRecord_invariant (t r len : Z) (st st' : Chart.ChartState) :
  chartInvariant st -> noteRecord t r len st = Some st' ->
  chartInvariant st'.
Proof.
  intros [(Hm & Hl & Hh) _] Hrec.
  destruct (decide (0 <= r < 5)) as [Hr | Hr];
    [|by rewrite noteRecord_None in Hrec].
  rewrite noteRecord_unfold in Hrec by done. injection Hrec as <-.
  apply recordPrev_wf; [|done].
  destruct (emitNote_fields t r len
              (chordBreaksHOPO t r (sustainCorrection t r st)))
    as (Hm3 & Hl3 & Hh3).
  destruct (nearTapRow_chordBreaks_sustain t r st) as (_ & _ & Hlen).
  destruct (chordBreaksHOPO_fields t r (indices 5) (sustainCorrection t r st))
    as (Hm2 & Hl2 & _).
  destruct (sustainCorrection_fields t r st) as (Hm1 & _ & _ & _ & _ & _ & Hl1).
  unfold wfState. rewrite Hm3, Hl3, Hh3, Hlen.
  unfold Chart.chordBreaksHOPO. rewrite Hm2, Hl2, Hm1, Hl1. done.
Qed.

Lemma parseLine_invariant (line : string) (st st' : Chart.ChartState) :
  chartInvariant st ->
  Chart.parseLine BeatToNoteRow resolution iHopoResolution line st
  = Chart.LineNext st' ->
  chartInvariant st'.
Proof.
  intros Hinv. unfold Chart.parseLine.
  destruct (Chart.getLineWords line) as [|w0 ws] eqn:Hwords; [done|].
  case_match; [by intros [= <-]|]. case_match; [done|].
  destruct ((w0 :: ws) !! 2%nat) as [w2|]; [|done].
  destruct (String.eqb w2 "E").
  { unfold Chart.eventLine.
    destruct ((w0 :: ws) !! 0%nat) as [v0|]; [|done].
    destruct ((w0 :: ws) !! 3%nat) as [v3|]; [|done].
    cbn [mbind option_bind]. intros [= <-].
    destruct (String.eqb v3 "*"), (String.eqb v3 "T"); exact Hinv. }
  destruct (String.eqb w2 "N"); [|by intros [= <-]].
  unfold Chart.noteLine.
  destruct ((w0 :: ws) !! 0%nat) as [v0|]; [|done].
  destruct ((w0 :: ws) !! 3%nat) as [v3|]; [|done].
  cbn [mbind option_bind].
  destruct (Chart.atoi v3 =? 5); [intros [= <-]; exact Hinv|].
  destruct ((w0 :: ws) !! 4%nat) as [v4|]; [|done].
  cbn [mbind option_bind].
  destruct (Chart.noteRecord _ _ _ _ _ _ _) as [st1|] eqn:Hrec; [|done].
  intros [= <-]. by eapply noteRecord_invariant.
Qed.

(** Every state the line loop reaches from the initial one keeps five
    cells in each per-track vector and a preceding track that is -1 or a
    lane, so the engine's own indexing stays in range. *)
Theorem parseLines_invariant (lines : list string) (st' : Chart.ChartState) :
  Chart.parseLines BeatToNoteRow resolution iHopoResolution lines
    Chart.initialState = Some st' ->
  chartInvariant st'.
Proof.
  assert (Hinit : chartInvariant Chart.initialState).
  { split; [repeat split|by left]. }
  revert Hinit. generalize Chart.initialState.
  induction lines as [|line rest IH]; intros st Hinv; cbn [Chart.parseLines].
  - by intros [= <-].
  - destruct (Chart.parseLine _ _ _ line st) as [|st1|] eqn:Hline.
    + by intros [= <-].
    + apply IH. by eapply parseLine_invariant.
    + done.
Qed.

(** A blank line or a line opening with a closing brace ends the section:
    nothing after it is read. *)
Theorem parseLines_stops_at_terminator (pre rest : list string)
  (line : string) (st : Chart.ChartState) :
  Chart.getLineWords line = []
  ∨ (∃ w ws, Chart.getLineWords line = w :: ws
             ∧ Chart.firstChar w = Some "}"%char) ->
  Chart.parseLines BeatToNoteRow resolution iHopoResolution
    (pre ++ line :: rest) st
  = Chart.parseLines BeatToNoteRow resolution iHopoResolution pre st.
Proof.
  intros Hterm.
  assert (Hbreak : ∀ s,
    Chart.parseLine BeatToNoteRow resolution iHopoResolution line s
    = Chart.LineBreak).
  { intros s. unfold Chart.parseLine.
    destruct Hterm as [-> | (w & ws & -> & Hw)]; [done|].
    rewrite Hw. done. }
  revert st. induction pre as [|l pre IH]; intros st;
    cbn [app Chart.parseLines].
  - by rewrite Hbreak.
  - destruct (Chart.parseLine _ _ _ l st); [done | apply IH | done].
Qed.

(** *** The line loop stays in bounds *)

Lemma tracksWithin_addNote (notes : NoteData) (n i start end_ c : Z) :
  tracksWithin notes n -> 0 <= i < n ->
  tracksWithin (Chart.addNote notes i start end_ c) n.
Proof.
  intros Hw Hi i' r' Hocc.
  destruct (decide ((i, start) = (i', r'))) as [[= <- <-] | Hne]; [done|].
  rewrite GetTapNote_addNote_ne in Hocc by done. by apply (Hw i' r').
Qed.

Lemma tracksWithin_clear (notes : NoteData) (n i r : Z) :
  tracksWithin notes n -> tracksWithin (SetTapNote notes i r TAP_EMPTY) n.
Proof.
  intros Hw i' r' Hocc.
  destruct (decide ((i, r) = (i', r'))) as [[= <- <-] | Hne].
  - by rewrite GetTapNote_SetTapNote in Hocc.
  - rewrite GetTapNote_SetTapNote_ne in Hocc by done. by apply (Hw i' r').
Qed.

Lemma sustainCorrection_within (t r : Z) (st : Chart.ChartState) :
  0 <= r < 5 -> tracksWithin (Chart.newNotes st) 5 ->
  tracksWithin (Chart.newNotes (sustainCorrection t r st)) 5.
Proof.
  intros Hr Hw. unfold Chart.sustainCorrection.
  destruct (_ <=? _); [|done]. chart_fields.
  apply tracksWithin_addNote; [|done]. by apply tracksWithin_clear.
Qed.

Lemma chordBreaks_within (t r : Z) (ks : list Z) (st : Chart.ChartState) :
  (∀ k, k ∈ ks -> 0 <= k < 5) -> tracksWithin (Chart.newNotes st) 5 ->
  tracksWithin (Chart.newNotes (foldl (chordBreak t r) st ks)) 5.
Proof.
  revert st. induction ks as [|k ks IH]; intros st Hks Hw; cbn [foldl];
    [done|].
  assert (Hk : 0 <= k < 5) by (apply Hks, elem_of_cons; auto).
  apply IH; [intros j Hj; apply Hks, elem_of_cons; auto|].
  unfold Chart.chordBreak. destruct (_ && _); [|done]. chart_fields.
  by apply tracksWithin_addNote.
Qed.

Lemma emitNote_within (t r len : Z) (st : Chart.ChartState) :
  0 <= r < 5 -> tracksWithin (Chart.newNotes st) 5 ->
  tracksWithin (Chart.newNotes (emitNote t r len st)) 5.
Proof.
  intros Hr Hw. unfold Chart.emitNote.
  destruct (Chart.nearTapRow t st); chart_fields;
    by apply tracksWithin_addNote.
Qed.

Lemma markerFold_within (body : NoteData -> Z -> NoteData) (ks : list Z)
  (nd : NoteData) :
  (∀ nd l, 0 <= l < 5 -> tracksWithin nd 5 -> tracksWithin (body nd l) 5) ->
  (∀ k, k ∈ ks -> 0 <= k < 5) -> tracksWithin nd 5 ->
  tracksWithin (foldl body nd ks) 5.
Proof.
  intros Hbody. revert nd.
  induction ks as [|k ks IH]; intros nd Hks Hw; cbn [foldl]; [done|].
  apply IH; [intros j Hj; apply Hks, elem_of_cons; auto|].
  apply Hbody; [|done]. apply Hks, elem_of_cons. auto.
Qed.

Lemma indices_5_range (k : Z) : k ∈ indices 5 -> 0 <= k < 5.
Proof. intros Hk. apply elem_of_seqZ in Hk. lia. Qed.

Lemma forcedMarker_within (f : Z) (st : Chart.ChartState) :
  tracksWithin (Chart.newNotes st) 5 ->
  tracksWithin (Chart.newNotes (forcedMarker f st)) 5.
Proof.
  intros Hw. unfold Chart.forcedMarker. chart_fields.
  apply markerFold_within; [|apply indices_5_range|done].
  intros nd l Hl Hnd. by apply tracksWithin_addNote.
Qed.

Lemma tapMarker_within (f : Z) (st : Chart.ChartState) :
  tracksWithin (Chart.newNotes st) 5 ->
  tracksWithin (Chart.newNotes (Chart.tapMarker BeatToNoteRow resolution f st))
    5.
Proof.
  intros Hw. unfold Chart.tapMarker. chart_fields.
  apply markerFold_within; [|apply indices_5_range|done].
  intros nd l Hl Hnd. cbv zeta. case_decide; [done|].
  by apply tracksWithin_addNote.
Qed.

Lemma noteRecord_within (t r len : Z) (st : Chart.ChartState) :
  0 <= r < 5 -> tracksWithin (Chart.newNotes st) 5 ->
  ∃ st', noteRecord t r len st = Some st'
         ∧ tracksWithin (Chart.newNotes st') 5.
Proof.
  intros Hr Hw. rewrite noteRecord_unfold by done.
  eexists. split; [reflexivity|].
  destruct (recordPrev_fields t r len
              (emitNote t r len (chordBreaksHOPO t r (sustainCorrection t r st))))
    as [-> _].
  apply emitNote_within; [done|]. unfold Chart.chordBreaksHOPO.
  apply chordBreaks_within; [apply indices_5_range|].
  by apply sustainCorrection_within.
Qed.

(** One readable line, from a state that satisfies the invariant. *)
Lemma parseLine_readable (line : string) (st : Chart.ChartState) :
  chartInvariant st -> tracksWithin (Chart.newNotes st) 5 ->
  lineReadable line ->
  Chart.parseLine BeatToNoteRow resolution iHopoResolution line st
  = Chart.LineBreak
  ∨ ∃ st',
      Chart.parseLine BeatToNoteRow resolution iHopoResolution line st
      = Chart.LineNext st'
      ∧ chartInvariant st' ∧ tracksWithin (Chart.newNotes st') 5.
Proof.
  intros Hinv Hw Hread.
  assert (Hnext : ∀ st',
    Chart.parseLine BeatToNoteRow resolution iHopoResolution line st
    = Chart.LineNext st' ->
    tracksWithin (Chart.newNotes st') 5 ->
    Chart.parseLine BeatToNoteRow resolution iHopoResolution line st
    = Chart.LineBreak
    ∨ ∃ st',
        Chart.parseLine BeatToNoteRow resolution iHopoResolution line st
        = Chart.LineNext st'
        ∧ chartInvariant st' ∧ tracksWithin (Chart.newNotes st') 5).
  { intros st' Hline Hw'. right. exists st'. split; [done|].
    split; [by eapply parseLine_invariant|done]. }
  unfold lineReadable in Hread. cbv zeta in Hread.
  destruct (Chart.parseLine BeatToNoteRow resolution iHopoResolution line st)
    as [|st1|] eqn:Hline; [by left| |].
  - apply (Hnext st1 eq_refl). clear Hnext.
    unfold Chart.parseLine in Hline.
    destruct (Chart.getLineWords line) as [|w0 ws] eqn:Hwords; [done|].
    case_match; [by injection Hline as <-|]. case_match; [done|].
    destruct ((w0 :: ws) !! 2%nat) as [w2|] eqn:H2; [|done].
    destruct (String.eqb_spec w2 "E").
    { unfold Chart.eventLine in Hline.
      destruct ((w0 :: ws) !! 0%nat) as [v0|]; [|done].
      destruct ((w0 :: ws) !! 3%nat) as [v3|]; [|done].
      cbn [mbind option_bind] in Hline. injection Hline as <-.
      destruct (String.eqb v3 "*"), (String.eqb v3 "T");
        auto using forcedMarker_within, tapMarker_within. }
    destruct (String.eqb_spec w2 "N"); [|by injection Hline as <-].
    unfold Chart.noteLine in Hline.
    destruct ((w0 :: ws) !! 0%nat) as [v0|]; [|done].
    destruct ((w0 :: ws) !! 3%nat) as [v3|] eqn:H3; [|done].
    cbn [mbind option_bind] in Hline.
    destruct (Z.eqb_spec (Chart.atoi v3) 5).
    { injection Hline as <-. by apply forcedMarker_within. }
    destruct ((w0 :: ws) !! 4%nat) as [v4|]; [|done].
    cbn [mbind option_bind] in Hline.
    destruct (decide (0 <= Chart.atoi v3 < 5)) as [Hr | Hr];
      [|by rewrite noteRecord_None in Hline].
    destruct (noteRecord_within (Chart.atoi v0) (Chart.atoi v3)
                (Chart.atoi v4) st Hr Hw) as (st' & Hrec & Hw').
    rewrite Hrec in Hline. by injection Hline as <-.
  - exfalso. clear Hnext. unfold Chart.parseLine in Hline.
    destruct (Chart.getLineWords line) as [|w0 ws] eqn:Hwords; [done|].
    destruct Hread as [H | [H | (Hlen & HE & HN)]].
    { rewrite H in Hline. by rewrite bool_decide_eq_true_2 in Hline. }
    { rewrite H in Hline. case_bool_decide; [done|].
      by rewrite bool_decide_eq_true_2 in Hline. }
    case_match; [done|]. case_match; [done|].
    destruct (lookup_lt_is_Some_2 (w0 :: ws) 2) as [w2 H2]; [lia|].
    destruct (lookup_lt_is_Some_2 (w0 :: ws) 0) as [v0 H0']; [lia|].
    rewrite H2 in Hline.
    destruct (String.eqb_spec w2 "E") as [HE' | _].
    { rewrite HE' in H2. specialize (HE H2).
      destruct (lookup_lt_is_Some_2 (w0 :: ws) 3) as [w3 H3]; [lia|].
      unfold Chart.eventLine in Hline. rewrite H0', H3 in Hline.
      done. }
    destruct (String.eqb_spec w2 "N") as [HN' | _]; [|done].
    rewrite HN' in H2. destruct (HN H2) as [Hlen5 Htrack].
    destruct (lookup_lt_is_Some_2 (w0 :: ws) 3) as [w3 H3]; [lia|].
    destruct (lookup_lt_is_Some_2 (w0 :: ws) 4) as [w4 H4]; [lia|].
    unfold Chart.noteLine in Hline. rewrite H0', H3 in Hline.
    cbn [mbind option_bind] in Hline.
    destruct (Z.eqb_spec (Chart.atoi w3) 5); [done|].
    rewrite H4 in Hline. cbn [mbind option_bind] in Hline.
    specialize (Htrack w3 H3).
    destruct (noteRecord_within (Chart.atoi v0) (Chart.atoi w3)
                (Chart.atoi w4) st ltac:(lia) Hw) as (st' & Hrec & _).
    by rewrite Hrec in Hline.
Qed.

(** On a section of readable lines the text loader returns: no line is
    read past its words and no note record indexes outside the five lanes;
    and every note of the result lies on one of the tracks 0 to 4. *)
Theorem parseNoteSection_in_bounds (lines : list string) :
  Forall lineReadable lines ->
  ∃ notes,
    Chart.parseNoteSection BeatToNoteRow resolution iHopoResolution lines
    = Some notes
    ∧ tracksWithin notes 5.
Proof.
  intros Hread. unfold Chart.parseNoteSection.
  assert (Hinit : chartInvariant Chart.initialState
                  ∧ tracksWithin (Chart.newNotes Chart.initialState) 5).
  { split; [split; [repeat split|by left]|]. intros i r H. by elim H. }
  revert Hinit. generalize Chart.initialState.
  induction lines as [|line rest IH]; intros st [Hinv Hw];
    cbn [Chart.parseLines].
  { exists (Chart.newNotes st). done. }
  apply Forall_cons in Hread as [Hline Hrest].
  destruct (parseLine_readable line st Hinv Hw Hline)
    as [-> | (st' & -> & Hinv' & Hw')].
  - exists (Chart.newNotes st). done.
  - by apply IH.
Qed.


(** *** The kinds of the notes *)

Lemma sustainCorrection_kinded (t r : Z) (st : Chart.ChartState) :
  notesKinded (Chart.newNotes st) ->
  notesKinded (Chart.newNotes (sustainCorrection t r st)).
Proof.
  intros Hk. unfold Chart.sustainCorrection.
  destruct (_ <=? _); [|done]. chart_fields.
  by apply notesKinded_addNote, notesKinded_clear.
Qed.

Lemma chordBreaks_kinded (t r : Z) (ks : list Z) (st : Chart.ChartState) :
  notesKinded (Chart.newNotes st) ->
  notesKinded (Chart.newNotes (foldl (chordBreak t r) st ks)).
Proof.
  revert st. induction ks as [|k ks IH]; intros st Hk; cbn [foldl]; [done|].
  apply IH. unfold Chart.chordBreak. destruct (_ && _); [|done].
  chart_fields. by apply notesKinded_addNote.
Qed.

Lemma emitNote_kinded (t r len : Z) (st : Chart.ChartState) :
  notesKinded (Chart.newNotes st) ->
  notesKinded (Chart.newNotes (emitNote t r len st)).
Proof.
  intros Hk. unfold Chart.emitNote.
  destruct (Chart.nearTapRow t st); chart_fields;
    by apply notesKinded_addNote.
Qed.

Lemma markerFold_kinded (body : NoteData -> Z -> NoteData) (ks : list Z)
  (nd : NoteData) :
  (∀ nd l, notesKinded nd -> notesKinded (body nd l)) ->
  notesKinded nd -> notesKinded (foldl body nd ks).
Proof.
  intros Hbody. revert nd.
  induction ks as [|k ks IH]; intros nd Hk; cbn [foldl]; [done|].
  by apply IH, Hbody.
Qed.

Lemma forcedMarker_kinded (f : Z) (st : Chart.ChartState) :
  notesKinded (Chart.newNotes st) ->
  notesKinded (Chart.newNotes (forcedMarker f st)).
Proof.
  intros Hk. unfold Chart.forcedMarker. chart_fields.
  apply markerFold_kinded; [|done].
  intros nd l Hnd. by apply notesKinded_addNote.
Qed.

Lemma tapMarker_kinded (f : Z) (st : Chart.ChartState) :
  notesKinded (Chart.newNotes st) ->
  notesKinded (Chart.newNotes (Chart.tapMarker BeatToNoteRow resolution f st)).
Proof.
  intros Hk. unfold Chart.tapMarker. chart_fields.
  apply markerFold_kinded; [|done].
  intros nd l Hnd. cbv zeta. case_decide; [done|].
  by apply notesKinded_addNote.
Qed.

Lemma noteRecord_kinded (t r len : Z) (st st' : Chart.ChartState) :
  noteRecord t r len st = Some st' ->
  notesKinded (Chart.newNotes st) -> notesKinded (Chart.newNotes st').
Proof.
  intros Hrec Hk.
  destruct (decide (0 <= r < 5)) as [Hr | Hr];
    [|by rewrite noteRecord_None in Hrec].
  rewrite noteRecord_unfold in Hrec by done. injection Hrec as <-.
  destruct (recordPrev_fields t r len
              (emitNote t r len (chordBreaksHOPO t r (sustainCorrection t r st))))
    as [-> _].
  apply emitNote_kinded. unfold Chart.chordBreaksHOPO.
  by apply chordBreaks_kinded, sustainCorrection_kinded.
Qed.

Lemma parseLine_kinded (line : string) (st st' : Chart.ChartState) :
  Chart.parseLine BeatToNoteRow resolution iHopoResolution line st
  = Chart.LineNext st' ->
  notesKinded (Chart.newNotes st) -> notesKinded (Chart.newNotes st').
Proof.
  intros Hline Hk. unfold Chart.parseLine in Hline.
  destruct (Chart.getLineWords line) as [|w0 ws] eqn:Hwords; [done|].
  case_match; [by injection Hline as <-|]. case_match; [done|].
  destruct ((w0 :: ws) !! 2%nat) as [w2|]; [|done].
  destruct (String.eqb w2 "E").
  { unfold Chart.eventLine in Hline.
    destruct ((w0 :: ws) !! 0%nat) as [v0|]; [|done].
    destruct ((w0 :: ws) !! 3%nat) as [v3|]; [|done].
    cbn [mbind option_bind] in Hline. injection Hline as <-.
    destruct (String.eqb v3 "*"), (String.eqb v3 "T");
      auto using forcedMarker_kinded, tapMarker_kinded. }
  destruct (String.eqb w2 "N"); [|by injection Hline as <-].
  unfold Chart.noteLine in Hline.
  destruct ((w0 :: ws) !! 0%nat) as [v0|]; [|done].
  destruct ((w0 :: ws) !! 3%nat) as [v3|]; [|done].
  cbn [mbind option_bind] in Hline.
  destruct (Chart.atoi v3 =? 5).
  { injection Hline as <-. by apply forcedMarker_kinded. }
  destruct ((w0 :: ws) !! 4%nat) as [v4|]; [|done].
  cbn [mbind option_bind] in Hline.
  destruct (Chart.noteRecord _ _ _ _ _ _ _) as [st1|] eqn:Hrec; [|done].
  injection Hline as <-. by eapply noteRecord_kinded.
Qed.

(** Every note of a section the text loader has parsed is a tap, a gem or
    a HOPO; the held kinds carry a positive duration and the single kinds
    none.  Sustain corrections, chord breaks and markers, which rewrite
    notes already placed, keep it so. *)
Theorem parseNoteSection_note_kinds (lines : list string) (notes : NoteData) :
  Chart.parseNoteSection BeatToNoteRow resolution iHopoResolution lines
  = Some notes ->
  notesKinded notes.
Proof.
  unfold Chart.parseNoteSection.
  assert (Hinit : notesKinded (Chart.newNotes Chart.initialState))
    by (intros i r; by left).
  revert Hinit. generalize Chart.initialState.
  induction lines as [|line rest IH]; intros st Hk; cbn [Chart.parseLines].
  - by intros [= <-].
  - destruct (Chart.parseLine _ _ _ line st) as [|st1|] eqn:Hline.
    + by intros [= <-].
    + apply IH. by eapply parseLine_kinded.
    + done.
Qed.


End ChartProperties.




Lemma chord_breaks_HOPO_witness :
  let st := Chart.mkChartState {[ (0, 24) := TAP_ORIGINAL_HOPO ]}
              [96; -1; -1; -1; -1] 0 [0; -1; -1; -1; -1]
              [true; false; false; false; false] (-1) (-1) (-1) in
  ∃ st', Chart.noteRecord BeatToNoteRow 192 48 97 1 0 st = Some st'
  ∧ GetTapNote (Chart.newNotes st') 0 24 = TAP_ORIGINAL_GEM
  ∧ isStrum (GetTapNote (Chart.newNotes st') 0 24) = true
  ∧ isHOPO (GetTapNote (Chart.newNotes st') 0 24) = false
  ∧ bget (Chart.bPrevNoteHOPO st') 0 = false
  ∧ Chart.iLastChordRow st' = 97.
Proof.
  intros st.
  apply (chord_breaks_HOPO BeatToNoteRow 192 48 st 97 1 0 0).
  - repeat split; reflexivity.
  - lia.
  - lia.
  - lia.
  - reflexivity.
  - vm_compute. discriminate.
Defined.

Lemma forced_marker_inversion_witness :
  let st := Chart.mkChartState {[ (0, 0) := TAP_ORIGINAL_GEM ]}
              [0; -1; -1; -1; -1] 0 [0; -1; -1; -1; -1]
              [false; false; false; false; false] 96 (-1) (-1) in
  (∃ st', Chart.noteRecord BeatToNoteRow 192 48 96 1 0 st = Some st'
     ∧ bget (Chart.bPrevNoteHOPO st') 1 = true
     ∧ isHOPO (GetTapNote (Chart.newNotes st') 1 24) = true
     ∧ isStrum (GetTapNote (Chart.newNotes st') 1 24) = false)
  ∧ Chart.decideHOPO 48 96 1
      (Chart.forcedMarker BeatToNoteRow 192 97
         (Chart.forcedMarker BeatToNoteRow 192 95 st)) = true.
Proof.
  intros st.
  destruct (forced_marker_inversion BeatToNoteRow 192 48) as [Hnote Htwo].
  split.
  - destruct (Hnote st 96 1 0) as (_ & st' & Hrec & Hflag & Hhopo & Hstrum).
    + repeat split; reflexivity.
    + lia.
    + vm_compute. intros [_ H]. by apply H.
    + exists st'. split; [exact Hrec|].
      split; [exact Hflag|]. split; [exact Hhopo | exact Hstrum].
  - destruct (Htwo st 95 97 96 1) as (_ & _ & Hnear & _); [lia | lia |].
    apply Hnear. lia.
Defined.

(** ** The MIDI engine *)

Section MIDProperties.

Variable BeatToNoteRow : Z -> Z -> Z.

Local Abbreviation addGHRBNote := (MID.addGHRBNote BeatToNoteRow).
Local Abbreviation row gd t := (BeatToNoteRow t (MID.iResolution gd)).

Lemma recordNote_ok (notes : NoteData) (col start : Z) (gd : MID.GuitarData) :
  0 <= col < MID.iCols gd ->
  length (MID.iPrevNoteMark gd) = Z.to_nat (MID.iCols gd) ->
  MID.recordNote notes col start gd
  = Some (notes, MID.set_prevNote col start gd).
Proof.
  intros Hcol Hlen. unfold MID.recordNote.
  destruct (Z.leb_spec 0 col); [|lia].
  destruct (Z.ltb_spec col (MID.iCols gd)); [|lia].
  destruct (Nat.ltb_spec (Z.to_nat col) (length (MID.iPrevNoteMark gd)));
    [done|lia].
Qed.

(** A candidate on a playable lane reaches the normal-note block. *)
Lemma addGHRBNote_playable (notes : NoteData) (col start end_ : Z)
  (gd : MID.GuitarData) :
  wfGuitar gd -> playableLane gd col ->
  ∃ isChordRow highestNote col',
    (MID.iCols gd = 6 -> 0 <= col' <= 4)
    ∧ (MID.iCols gd = 7 -> -1 <= col' <= 5)
    ∧ addGHRBNote notes col start end_ gd
      = MID.normalNote notes (fun i => GetTapNote notes i (row gd start))
          isChordRow highestNote col' start (row gd start)
          (row gd (MID.realEnd start end_ gd)) gd.
Proof.
  intros [Hcols Hlen] Hplay. unfold MID.addGHRBNote.
  destruct (foldl _ _ _) as [isChordRow highestNote].
  exists isChordRow, highestNote.
  destruct Hplay as [[H6 Hcol] | [H7 Hcol]].
  - exists col. rewrite H6. cbn [Z.eqb andb Pos.eqb orb].
    rewrite !andb_true_r, !andb_false_r.
    destruct (Z.eqb_spec col 5); [lia|].
    destruct (Z.eqb_spec col 6); [lia|].
    split; [done|]. split; [lia|]. reflexivity.
  - exists (col - 1). rewrite H7. cbn [Z.eqb andb Pos.eqb orb].
    destruct (Z.ltb_spec col 7); [|lia].
    rewrite !andb_true_r, !andb_false_r.
    destruct (Z.eqb_spec (col - 1) 7); [lia|].
    destruct (Z.eqb_spec (col - 1) 8); [lia|].
    split; [lia|]. split; [lia|]. reflexivity.
Qed.

(** The normal-note block either drops the candidate, leaving notes and
    state as they were (only off a tap section), or places it in one of the
    three categories at the column it records as the last note track. *)
Lemma normalNote_emits (notes : NoteData) (taps : Z -> TapNote)
  (isChordRow : bool) (highestNote col start startRow endRow : Z)
  (gd : MID.GuitarData) :
  wfGuitar gd ->
  (MID.iCols gd = 6 -> 0 <= col <= 4) ->
  (MID.iCols gd = 7 -> -1 <= col <= 5) ->
  (MID.bInTapSection gd = false
   ∧ MID.normalNote notes taps isChordRow highestNote col start startRow
       endRow gd = Some (notes, gd))
  ∨ ∃ notes' gd' category,
      MID.normalNote notes taps isChordRow highestNote col start startRow
        endRow gd = Some (notes', gd')
      ∧ (category = 1 ∨ category = 2 ∨ category = 3)
      ∧ (MID.bInTapSection gd = true -> category = 1)
      ∧ GetTapNote notes' (MID.iPrevNoteTrack gd') startRow
        = categoryNote category startRow endRow.
Proof.
  intros [Hcols Hlen] H6 H7. unfold MID.normalNote.
  set (lc := if MID.bInOpenSection gd || ((col =? -1) && (MID.iCols gd =? 7))
             then MID.iCols gd - 1 else col).
  assert (Hlc : 0 <= lc < MID.iCols gd).
  { subst lc. destruct (MID.bInOpenSection gd); cbn [orb]; [lia|].
    destruct (Z.eqb_spec col (-1)); cbn [andb].
    - destruct (Z.eqb_spec (MID.iCols gd) 7); lia.
    - destruct Hcols as [E | E]; [specialize (H6 E) | specialize (H7 E)]; lia. }
  assert (Hrec : ∀ nd g, MID.iCols g = MID.iCols gd ->
                 MID.iPrevNoteMark g = MID.iPrevNoteMark gd ->
                 MID.recordNote nd lc start g
                 = Some (nd, MID.set_prevNote lc start g)).
  { intros nd g Hc Hm. apply recordNote_ok; [by rewrite Hc|].
    by rewrite Hc, Hm. }
  assert (Hplace : ∀ nd g c, c = 1 ∨ c = 2 ∨ c = 3 ->
            GetTapNote (MID.placeNote nd lc startRow endRow c)
              (MID.iPrevNoteTrack (MID.set_prevNote lc start g)) startRow
            = categoryNote c startRow endRow).
  { intros nd g c Hc. by apply GetTapNote_placeNote. }
  destruct (MID.bInTapSection gd) eqn:Htap.
  { right. rewrite Hrec by done. eexists _, _, 1.
    split; [done|]. split; [auto|]. split; [done|]. apply Hplace; auto. }
  destruct isChordRow.
  - destruct (start =? MID.iLastForcedHOPO gd).
    + destruct (lc <? highestNote); [by left|].
      right. rewrite Hrec by done.
      eexists _, _, (if isHOPO (taps highestNote) then 3 else 2).
      split; [done|]. split; [|split; [done|apply Hplace]];
        destruct (isHOPO _); auto.
    + right. rewrite Hrec by done. eexists _, _, 2.
      split; [done|]. split; [auto|]. split; [done|]. apply Hplace; auto.
  - right. rewrite Hrec by done.
    eexists _, _, (if MID.checkHOPOConditions lc start gd then 3 else 2).
    split; [done|]. split; [|split; [done|apply Hplace]];
      destruct (MID.checkHOPOConditions _ _ _); auto.
Qed.


(** *** The forced-HOPO marker lane *)

Lemma chordScan_fold (taps : Z -> TapNote) (ks : list Z) (acc : bool * Z) :
  (foldl (MID.chordScan taps) acc ks).1 = true
  ↔ acc.1 = true ∨ ∃ i, i ∈ ks ∧ taps i ≠ TAP_EMPTY.
Proof.
  revert acc. induction ks as [|k ks IH]; intros acc; cbn [foldl].
  - split; [auto|]. intros [H | (i & Hi & _)]; [done|].
    by apply elem_of_nil in Hi.
  - rewrite IH. unfold MID.chordScan. split.
    + intros [H | (i & Hi & Hocc)].
      * destruct (decide (taps k = TAP_EMPTY)); [by left|].
        right. exists k. split; [apply elem_of_cons; auto | done].
      * right. exists i. split; [apply elem_of_cons; auto | done].
    + intros [H | (i & Hi & Hocc)].
      * left. by destruct (decide (taps k = TAP_EMPTY)).
      * apply elem_of_cons in Hi as [-> | Hi].
        -- left. by destruct (decide (taps k = TAP_EMPTY)).
        -- right. by exists i.
Qed.

Lemma forcedHOPOBody_other (taps : Z -> TapNote) (r : Z)
  (acc : NoteData * bool) (k i r' : Z) :
  (k, r) ≠ (i, r') ->
  GetTapNote (MID.forcedHOPOBody taps r acc k).1 i r' = GetTapNote acc.1 i r'.
Proof.
  intros Hne. unfold MID.forcedHOPOBody.
  destruct (decide (taps k = TAP_EMPTY)); [done|].
  destruct acc.2; cbn [fst].
  - by apply GetTapNote_SetTapNote_ne.
  - by apply GetTapNote_placeNote_ne.
Qed.

Lemma forcedHOPO_fold_other (taps : Z -> TapNote) (r : Z) (ks : list Z)
  (acc : NoteData * bool) (i r' : Z) :
  i ∉ ks ∨ r' ≠ r ->
  GetTapNote (foldl (MID.forcedHOPOBody taps r) acc ks).1 i r'
  = GetTapNote acc.1 i r'.
Proof.
  revert acc. induction ks as [|k ks IH]; intros acc Hout; cbn [foldl];
    [done|].
  rewrite IH.
  - apply forcedHOPOBody_other. intros [= -> ->].
    destruct Hout as [Hout | Hout]; [|done].
    apply Hout, elem_of_cons. auto.
  - destruct Hout as [Hout | Hout]; [left | by right].
    intros Hin. apply Hout, elem_of_cons. auto.
Qed.

(** Once the highest note is found, every occupied lane still to visit is
    cleared and every empty one is left alone. *)
Lemma forcedHOPO_fold_found (taps : Z -> TapNote) (r : Z) (ks : list Z)
  (nd : NoteData) (i : Z) :
  NoDup ks -> i ∈ ks ->
  GetTapNote (foldl (MID.forcedHOPOBody taps r) (nd, true) ks).1 i r
  = if decide (taps i = TAP_EMPTY) then GetTapNote nd i r else TAP_EMPTY.
Proof.
  revert nd. induction ks as [|k ks IH]; intros nd Hnd Hin; cbn [foldl].
  - by apply elem_of_nil in Hin.
  - apply NoDup_cons in Hnd as [Hk Hnd].
    assert (Hstep : ∃ nd', MID.forcedHOPOBody taps r (nd, true) k = (nd', true)
              ∧ (∀ j, j ≠ k -> GetTapNote nd' j r = GetTapNote nd j r)
              ∧ GetTapNote nd' k r
                = if decide (taps k = TAP_EMPTY)
                  then GetTapNote nd k r else TAP_EMPTY).
    { unfold MID.forcedHOPOBody. cbn [fst snd].
      destruct (decide (taps k = TAP_EMPTY)).
      - by exists nd.
      - eexists. split; [done|]. split.
        + intros j Hj. apply GetTapNote_SetTapNote_ne. congruence.
        + by rewrite GetTapNote_SetTapNote. }
    destruct Hstep as (nd' & -> & Hother & Hat).
    destruct (decide (i = k)) as [-> | Hne].
    + rewrite forcedHOPO_fold_other by auto. exact Hat.
    + apply elem_of_cons in Hin as [? | Hin]; [done|].
      rewrite IH by done. by rewrite Hother.
Qed.

Lemma forcedHOPO_fold_skip (taps : Z -> TapNote) (r : Z) (pre ks : list Z)
  (acc : NoteData * bool) :
  (∀ j, j ∈ pre -> taps j = TAP_EMPTY) ->
  foldl (MID.forcedHOPOBody taps r) acc (pre ++ ks)
  = foldl (MID.forcedHOPOBody taps r) acc ks.
Proof.
  revert acc. induction pre as [|k pre IH]; intros acc Hpre; [done|].
  cbn [app foldl]. rewrite IH.
  - unfold MID.forcedHOPOBody.
    rewrite decide_True; [done|]. apply Hpre, elem_of_cons. auto.
  - intros j Hj. apply Hpre, elem_of_cons. auto.
Qed.

(** The lanes from the top down, split at a lane [h]. *)
Lemma reverse_indices_split (n h : Z) :
  0 <= h < n ->
  reverse (indices n)
  = reverse (seqZ (h + 1) (n - h - 1)) ++ h :: reverse (seqZ 0 h).
Proof.
  intros Hh. unfold indices.
  replace n with (h + (n - h)) at 1 by lia.
  rewrite seqZ_app by lia. rewrite reverse_app.
  rewrite (seqZ_cons (0 + h)) by lia. rewrite reverse_cons.
  rewrite <- app_assoc. cbn [app].
  by replace (Z.succ (0 + h)) with (h + 1) by lia;
     replace (Z.pred (n - h)) with (n - h - 1) by lia.
Qed.

(** C6.  A hit on the forced-HOPO marker lane records its tick as the last
    forced-HOPO tick whether or not the row holds a note.  When the row
    holds at least one note, afterwards the highest occupied lane holds a
    HOPO of the same duration and every other lane reads as empty on that
    row; when it holds none, the notes are unchanged. *)
Theorem forced_HOPO_marker_keeps_highest (notes : NoteData)
  (col start end_ : Z) (gd : MID.GuitarData) :
  let startRow := row gd start in
  forcedHOPOLane gd col ->
  ∃ notes',
    addGHRBNote notes col start end_ gd
    = Some (notes', MID.set_iLastForcedHOPO start gd)
    ∧ MID.iLastForcedHOPO (MID.set_iLastForcedHOPO start gd) = start
    ∧ (∀ h, 0 <= h < MID.iCols gd ->
         GetTapNote notes h startRow ≠ TAP_EMPTY ->
         (∀ j, h < j < MID.iCols gd ->
            GetTapNote notes j startRow = TAP_EMPTY) ->
         GetTapNote notes' h startRow
         = categoryNote 3 startRow
             (startRow + iDuration (GetTapNote notes h startRow))
         ∧ isHOPO (GetTapNote notes' h startRow) = true
         ∧ ∀ i, 0 <= i < MID.iCols gd -> i ≠ h ->
             GetTapNote notes' i startRow = TAP_EMPTY)
    ∧ ((∀ i, 0 <= i < MID.iCols gd ->
          GetTapNote notes i startRow = TAP_EMPTY) ->
       notes' = notes).
Proof.
  intros startRow Hlane. unfold MID.addGHRBNote. fold startRow.
  set (taps := fun i => GetTapNote notes i startRow).
  pose proof (chordScan_fold taps (indices (MID.iCols gd)) (false, -1))
    as Hscan.
  destruct (foldl (MID.chordScan taps) _ _) as [isChordRow highestNote].
  cbn [fst] in Hscan.
  assert (Hbranch :
    (let c := if (MID.iCols gd =? 7) && (col <? 7) then col - 1 else col in
     ((c =? 5) && (MID.iCols gd =? 6)) || ((c =? 7) && (MID.iCols gd =? 7)))
    = true).
  { destruct Hlane as [[-> ->] | [-> ->]]; reflexivity. }
  cbv zeta in Hbranch. rewrite Hbranch.
  eexists. split; [reflexivity|]. split; [reflexivity|]. split.
  - intros h Hh Hocc Habove.
    assert (Hchord : isChordRow = true).
    { apply Hscan. right. exists h. split; [|done].
      apply elem_of_seqZ. lia. }
    rewrite Hchord.
    assert (Hres :
      foldl (MID.forcedHOPOBody taps startRow) (notes, false)
        (reverse (indices (MID.iCols gd)))
      = foldl (MID.forcedHOPOBody taps startRow)
          (MID.placeNote notes h startRow (startRow + iDuration (taps h)) 3,
           true) (reverse (seqZ 0 h))).
    { rewrite (reverse_indices_split (MID.iCols gd) h Hh).
      rewrite forcedHOPO_fold_skip.
      - cbn [foldl]. unfold MID.forcedHOPOBody at 2. cbn [fst snd].
        by rewrite decide_False by done.
      - intros j Hj. apply elem_of_reverse, elem_of_seqZ in Hj.
        apply Habove. lia. }
    rewrite Hres. clear Hres.
    change (GetTapNote notes h startRow) with (taps h).
    assert (Hnodup : NoDup (reverse (seqZ 0 h))).
    { rewrite reverse_Permutation. apply NoDup_seqZ. }
    assert (Hh_out : h ∉ reverse (seqZ 0 h)).
    { rewrite elem_of_reverse, elem_of_seqZ. lia. }
    assert (Hat :
      GetTapNote
        (foldl (MID.forcedHOPOBody taps startRow)
           (MID.placeNote notes h startRow (startRow + iDuration (taps h)) 3,
            true) (reverse (seqZ 0 h))).1 h startRow
      = categoryNote 3 startRow (startRow + iDuration (taps h))).
    { rewrite forcedHOPO_fold_other by auto. cbn [fst].
      apply GetTapNote_placeNote. auto. }
    split; [exact Hat|]. split.
    { rewrite Hat.
      by destruct (categoryNote_kind 3 startRow
                     (startRow + iDuration (taps h))) as (_ & _ & ->). }
    intros i Hi Hne.
    destruct (Z.lt_ge_cases i h) as [Hlow | Hhigh].
    + rewrite forcedHOPO_fold_found.
      * destruct (decide (taps i = TAP_EMPTY)) as [He | _]; [|done].
        rewrite GetTapNote_placeNote_ne by congruence. exact He.
      * exact Hnodup.
      * rewrite elem_of_reverse, elem_of_seqZ. lia.
    + rewrite forcedHOPO_fold_other.
      * cbn [fst]. rewrite GetTapNote_placeNote_ne by congruence.
        apply Habove. lia.
      * left. rewrite elem_of_reverse, elem_of_seqZ. lia.
  - intros Hempty.
    destruct isChordRow; [|done].
    destruct (proj1 Hscan eq_refl) as [H | (i & Hi & Hocc)]; [done|].
    apply elem_of_seqZ in Hi. exfalso. apply Hocc, Hempty. lia.
Qed.

(** *** The shared HOPO predicate *)

Lemma hopoLoop_fold (iNoteTrack iNoteMark : Z) (gd : MID.GuitarData)
  (ks : list Z) (b : bool) (t m : Z) :
  ∃ t',
    foldl (MID.hopoLoopBody iNoteTrack iNoteMark gd) (b, t, m) ks
    = (b || existsb
              (fun k =>
                 (iNoteMark - vget (MID.iPrevNoteMark gd) k
                  <=? MID.iHopoResolution gd)
                 && negb (iNoteTrack =? k)
                 && negb (vget (MID.iPrevNoteMark gd) k =? -1)) ks,
       t',
       Z.max m (foldr (fun k m => Z.max (vget (MID.iPrevNoteMark gd) k) m)
                  m ks))
    ∧ ((t' = t
        ∧ foldr (fun k m => Z.max (vget (MID.iPrevNoteMark gd) k) m) m ks
          <= m)
       ∨ (t' ∈ ks
          ∧ m < foldr (fun k m => Z.max (vget (MID.iPrevNoteMark gd) k) m)
                  m ks)).
Proof.
  revert b t m. induction ks as [|k ks IH]; intros b t m; cbn [foldl].
  - exists t. cbn [existsb foldr]. rewrite orb_false_r, Z.max_id.
    split; [done|]. left. split; [done | lia].
  - unfold MID.hopoLoopBody at 2.
    set (mark := vget (MID.iPrevNoteMark gd) k).
    set (hit := (iNoteMark - mark <=? MID.iHopoResolution gd)
                && negb (iNoteTrack =? k) && negb (mark =? -1)).
    assert (Hfold : ∀ m0,
      Z.max m0 (foldr (fun k m => Z.max (vget (MID.iPrevNoteMark gd) k) m)
                  m0 ks)
      = foldr (fun k m => Z.max (vget (MID.iPrevNoteMark gd) k) m) m0 ks
      ∧ ∀ m1, m0 <= m1 ->
          foldr (fun k m => Z.max (vget (MID.iPrevNoteMark gd) k) m) m1 ks
          = Z.max m1
              (foldr (fun k m => Z.max (vget (MID.iPrevNoteMark gd) k) m)
                 m0 ks)).
    { clear. induction ks as [|j ks IHks]; intros m0; cbn [foldr].
      - split; [lia|]. intros; lia.
      - destruct (IHks m0) as [H1 H2]. split; [lia|].
        intros m1 Hm. rewrite (H2 m1 Hm). lia. }
    cbn [existsb foldr]. fold mark. fold hit.
    destruct (Hfold m) as [Hm0 Hm1].
    destruct (Z.ltb_spec m mark) as [Hlt | Hge].
    + destruct (IH (if hit then true else b) k mark) as (t' & -> & Ht').
      exists t'. split.
      * f_equal; [f_equal; by destruct hit, b|].
        rewrite (Hm1 mark) by lia. lia.
      * right. rewrite (Hm1 mark) in Ht' by lia.
        destruct Ht' as [[-> _] | [Hin Hlt']].
        -- split; [apply elem_of_cons; auto | lia].
        -- split; [apply elem_of_cons; auto | lia].
    + destruct (IH (if hit then true else b) t m) as (t' & -> & Ht').
      exists t'. split.
      * f_equal; [f_equal; by destruct hit, b|]. lia.
      * destruct Ht' as [[-> Hle] | [Hin Hlt']].
        -- left. split; [done | lia].
        -- right. split; [apply elem_of_cons; auto | lia].
Qed.

(** C7.  [checkHOPOConditions] answers strum at once when the tick is the
    last forced-strum tick; else HOPO at once when it is a recorded last
    forced-HOPO tick; else strum at once when it is a recorded last chord
    tick; else the lane scan, except that under the Rock Band rules the
    answer is strum whenever the current lane's last-note tick is the
    latest last-note tick over all lanes. *)
Theorem checkHOPOConditions_priority (iNoteTrack iNoteMark : Z)
  (gd : MID.GuitarData) :
  length (MID.iPrevNoteMark gd) = Z.to_nat (MID.iCols gd) ->
  0 <= iNoteTrack < MID.iCols gd ->
  (∀ k, 0 <= k < MID.iCols gd -> -1 <= vget (MID.iPrevNoteMark gd) k) ->
  MID.checkHOPOConditions iNoteTrack iNoteMark gd
  = if MID.iLastForcedStrum gd =? iNoteMark then false
    else if (MID.iLastForcedHOPO gd =? iNoteMark)
            && negb (MID.iLastForcedHOPO gd =? -1) then true
    else if (MID.iLastChordRow gd =? iNoteMark)
            && negb (MID.iLastChordRow gd =? -1) then false
    else if bool_decide (MID.hopoRules gd = MID.RB_HOPO_Rules)
            && (vget (MID.iPrevNoteMark gd) iNoteTrack =? lastNoteMax gd)
    then false
    else laneScan iNoteTrack iNoteMark gd.
Proof.
  intros Hlen Htrack Hmarks. unfold MID.checkHOPOConditions.
  destruct (MID.iLastForcedStrum gd =? iNoteMark); [done|].
  destruct ((MID.iLastForcedHOPO gd =? iNoteMark) && _); [done|].
  destruct ((MID.iLastChordRow gd =? iNoteMark) && _); [done|].
  destruct (hopoLoop_fold iNoteTrack iNoteMark gd (indices (MID.iCols gd))
              false (-1) (-1)) as (t' & -> & Ht').
  fold (lastNoteMax gd) in *. fold (laneScan iNoteTrack iNoteMark gd).
  cbn [orb].
  assert (Hmax : -1 <= lastNoteMax gd).
  { unfold lastNoteMax. generalize (indices (MID.iCols gd)).
    intros ks. induction ks; cbn [foldr]; lia. }
  rewrite (Z.max_r _ _ Hmax).
  destruct (bool_decide (MID.hopoRules gd = MID.RB_HOPO_Rules)); [|done].
  cbn [andb].
  destruct (Z.eqb_spec (vget (MID.iPrevNoteMark gd) iNoteTrack)
              (lastNoteMax gd)) as [Heq | Hne].
  - rewrite andb_true_r.
    destruct Ht' as [[-> Hle] | [Hin Hlt]].
    + (* no lane holds a note: the scan itself answers strum *)
      cbn [Z.eqb negb andb]. unfold laneScan.
      apply not_true_is_false. intros Hex.
      apply existsb_exists in Hex as (k & Hk & Hcond).
      apply list_elem_of_In, elem_of_seqZ in Hk.
      assert (vget (MID.iPrevNoteMark gd) k = -1).
      { assert (vget (MID.iPrevNoteMark gd) k <= lastNoteMax gd); [|
          pose proof (Hmarks k ltac:(lia)); lia].
        unfold lastNoteMax. assert (Hin : k ∈ indices (MID.iCols gd))
          by (apply elem_of_seqZ; lia).
        revert Hin. generalize (indices (MID.iCols gd)). intros ks Hin.
        induction ks as [|j ks IHks]; [by apply elem_of_nil in Hin|].
        cbn [foldr]. apply elem_of_cons in Hin as [-> | Hin]; [lia|].
        specialize (IHks Hin). lia. }
      apply andb_true_iff in Hcond as [_ Hc].
      apply negb_true_iff, Z.eqb_neq in Hc. done.
    + apply elem_of_seqZ in Hin.
      destruct (Z.eqb_spec t' (-1)); [lia|].
      destruct (Z.eqb_spec (vget (MID.iPrevNoteMark gd) iNoteTrack) (-1));
        [lia|].
      destruct (Z.eqb_spec (lastNoteMax gd) (-1)); [lia|]. done.
  - by rewrite !andb_false_r.
Qed.

(** *** The forced-strum marker lane *)

Lemma forcedStrum_fold (taps : Z -> TapNote) (r : Z) (ks : list Z)
  (nd : NoteData) :
  NoDup ks ->
  (∀ i, i ∈ ks ->
     GetTapNote (foldl (MID.forcedStrumBody taps r) nd ks) i r
     = if decide (taps i = TAP_EMPTY) then GetTapNote nd i r
       else categoryNote 2 r (r + iDuration (taps i)))
  ∧ (∀ i r', i ∉ ks ∨ r' ≠ r ->
       GetTapNote (foldl (MID.forcedStrumBody taps r) nd ks) i r'
       = GetTapNote nd i r').
Proof.
  intros Hnd. revert nd. induction ks as [|k ks IH]; intros nd; cbn [foldl].
  - split; [intros i Hi; by apply elem_of_nil in Hi | done].
  - apply NoDup_cons in Hnd as [Hk Hnd].
    destruct (IH Hnd (MID.forcedStrumBody taps r nd k)) as [Hin Hout].
    assert (Hstep : ∀ i r', (k, r) ≠ (i, r') ->
              GetTapNote (MID.forcedStrumBody taps r nd k) i r'
              = GetTapNote nd i r').
    { intros i r' Hne. unfold MID.forcedStrumBody. case_decide; [done|].
      by apply GetTapNote_placeNote_ne. }
    split.
    + intros i Hi. apply elem_of_cons in Hi as [-> | Hi].
      * rewrite Hout by auto. unfold MID.forcedStrumBody.
        destruct (decide (taps k = TAP_EMPTY)); [done|].
        apply GetTapNote_placeNote. auto.
      * rewrite (Hin i Hi). rewrite Hstep; [done|]. intros [= ->]. done.
    + intros i r' Hfree. rewrite Hout.
      * apply Hstep. intros [= -> ->]. destruct Hfree as [H | H]; [|done].
        apply H, elem_of_cons. auto.
      * destruct Hfree as [H | H]; [left | by right].
        intros Hi. apply H, elem_of_cons. auto.
Qed.

(** A hit on the forced-strum marker lane records its tick as the last
    forced-strum tick and re-emits every note of its row as a strum of the
    same span; empty lanes stay empty and no other cell changes.  From then
    on the shared predicate answers strum for every lane at that tick. *)
Theorem forced_strum_marker_makes_strums (notes : NoteData)
  (col start end_ : Z) (gd : MID.GuitarData) :
  let startRow := row gd start in
  forcedStrumLane gd col ->
  ∃ notes',
    addGHRBNote notes col start end_ gd
    = Some (notes', MID.set_iLastForcedStrum start gd)
    ∧ (∀ i, 0 <= i < MID.iCols gd ->
         let old := GetTapNote notes i startRow in
         GetTapNote notes' i startRow
         = if decide (old = TAP_EMPTY) then TAP_EMPTY
           else categoryNote 2 startRow (startRow + iDuration old))
    ∧ (∀ i r', ¬ (0 <= i < MID.iCols gd ∧ r' = startRow) ->
         GetTapNote notes' i r' = GetTapNote notes i r')
    ∧ ∀ lane, MID.checkHOPOConditions lane start
                (MID.set_iLastForcedStrum start gd) = false.
Proof.
  intros startRow Hlane. unfold MID.addGHRBNote. fold startRow.
  set (taps := fun i => GetTapNote notes i startRow).
  pose proof (chordScan_fold taps (indices (MID.iCols gd)) (false, -1))
    as Hscan.
  destruct (foldl (MID.chordScan taps) _ _) as [isChordRow highestNote].
  cbn [fst] in Hscan.
  assert (Hbranch :
    (let c := if (MID.iCols gd =? 7) && (col <? 7) then col - 1 else col in
     (((c =? 5) && (MID.iCols gd =? 6)) || ((c =? 7) && (MID.iCols gd =? 7)),
      ((c =? 6) && (MID.iCols gd =? 6)) || ((c =? 8) && (MID.iCols gd =? 7))))
    = (false, true)).
  { destruct Hlane as [[-> ->] | [-> ->]]; reflexivity. }
  cbv zeta in Hbranch. injection Hbranch as -> ->.
  destruct (forcedStrum_fold taps startRow (indices (MID.iCols gd)) notes
              (NoDup_seqZ 0 _)) as [Hin Hout].
  eexists. split; [reflexivity|]. split; [|split].
  - intros i Hi. change (GetTapNote notes i startRow) with (taps i).
    destruct isChordRow.
    + rewrite Hin by (apply elem_of_seqZ; lia).
      destruct (decide (taps i = TAP_EMPTY)) as [He | _]; [exact He | done].
    + destruct (decide (taps i = TAP_EMPTY)) as [He | Hocc]; [exact He|].
      exfalso. assert (false = true); [|done].
      apply Hscan. right. exists i. split; [apply elem_of_seqZ; lia | done].
  - intros i r' Hfree. destruct isChordRow; [|done].
    apply Hout. destruct (decide (r' = startRow)) as [-> | Hne];
      [left | by right].
    unfold indices. rewrite elem_of_seqZ. lia.
  - intros lane. unfold MID.checkHOPOConditions.
    cbn [MID.iLastForcedStrum MID.set_iLastForcedStrum].
    by rewrite Z.eqb_refl.
Qed.



(** *** Notes on playable lanes, case by case *)

Lemma chordScan_skip (taps : Z -> TapNote) (ks : list Z) (acc : bool * Z) :
  (∀ j, j ∈ ks -> taps j = TAP_EMPTY) ->
  foldl (MID.chordScan taps) acc ks = acc.
Proof.
  revert acc. induction ks as [|k ks IH]; intros acc Hks; cbn [foldl]; [done|].
  rewrite IH.
  - unfold MID.chordScan. rewrite decide_True; [done|].
    apply Hks, elem_of_cons. auto.
  - intros j Hj. apply Hks, elem_of_cons. auto.
Qed.

Lemma chordScan_below (taps : Z -> TapNote) (h : Z) (ks : list Z)
  (acc : bool * Z) :
  (∀ j, j ∈ ks -> j < h) -> acc.2 < h ->
  (foldl (MID.chordScan taps) acc ks).2 < h.
Proof.
  revert acc. induction ks as [|k ks IH]; intros acc Hks Hacc; cbn [foldl];
    [done|].
  apply IH.
  - intros j Hj. apply Hks, elem_of_cons. auto.
  - unfold MID.chordScan. case_decide; [done|]. cbn [snd].
    assert (k < h) by (apply Hks, elem_of_cons; auto).
    case_match; lia.
Qed.

(** The snapshot scan finds the highest occupied lane. *)
Lemma chordScan_highest (taps : Z -> TapNote) (n h : Z) :
  0 <= h < n -> taps h ≠ TAP_EMPTY ->
  (∀ j, h < j < n -> taps j = TAP_EMPTY) ->
  foldl (MID.chordScan taps) (false, -1) (indices n) = (true, h).
Proof.
  intros Hh Hocc Habove. unfold indices.
  replace n with (h + (n - h)) by lia.
  rewrite seqZ_app by lia. rewrite foldl_app.
  rewrite (seqZ_cons (0 + h)) by lia. cbn [foldl].
  rewrite chordScan_skip.
  2:{ intros j Hj. apply elem_of_seqZ in Hj. apply Habove. lia. }
  pose proof (chordScan_below taps h (seqZ 0 h) (false, -1)) as Hlow.
  destruct (foldl (MID.chordScan taps) (false, -1) (seqZ 0 h)) as [b m].
  cbn [snd] in Hlow. unfold MID.chordScan.
  replace (0 + h) with h by lia. rewrite decide_False by done. cbn [snd].
  assert (m < h) as Hm.
  { apply Hlow; [|lia]. intros j Hj. apply elem_of_seqZ in Hj. lia. }
  by destruct (Z.ltb_spec m h); [|lia].
Qed.

Lemma noteColumn_range (gd : MID.GuitarData) (col : Z) :
  wfGuitar gd -> playableLane gd col ->
  0 <= noteColumn gd col < MID.iCols gd.
Proof.
  intros [Hcols _] Hplay. unfold noteColumn.
  destruct (MID.bInOpenSection gd); [lia|].
  destruct Hplay as [[-> Hcol] | [-> Hcol]]; cbn [Z.eqb Pos.eqb]; [lia|].
  destruct (Z.eqb_spec col 0); lia.
Qed.

(** What [addGHRBNote] does with a candidate on a playable lane, the two
    remaps of the lane folded into [noteColumn]. *)
Lemma addGHRBNote_normal_form (notes : NoteData) (col start end_ : Z)
  (gd : MID.GuitarData) :
  wfGuitar gd -> playableLane gd col ->
  let startRow := row gd start in
  let endRow := row gd (MID.realEnd start end_ gd) in
  let taps := fun i => GetTapNote notes i startRow in
  let scan := foldl (MID.chordScan taps) (false, -1) (indices (MID.iCols gd)) in
  let lc := noteColumn gd col in
  addGHRBNote notes col start end_ gd
  = if MID.bInTapSection gd then
      Some (MID.placeNote notes lc startRow endRow 1,
            MID.set_prevNote lc start gd)
    else if scan.1 then
      if start =? MID.iLastForcedHOPO gd then
        if lc <? scan.2 then Some (notes, gd)
        else
          Some (MID.placeNote (SetTapNote notes scan.2 startRow TAP_EMPTY)
                  lc startRow endRow (if isHOPO (taps scan.2) then 3 else 2),
                MID.set_prevNote lc start (MID.set_iLastChordRow start gd))
      else
        Some (MID.placeNote
                (if isHOPO (taps scan.2)
                 then MID.placeNote notes scan.2 startRow
                        (startRow + iDuration (taps scan.2)) 2
                 else notes) lc startRow endRow 2,
              MID.set_prevNote lc start (MID.set_iLastChordRow start gd))
    else
      Some (MID.placeNote notes lc startRow endRow
              (if MID.checkHOPOConditions lc start gd then 3 else 2),
            MID.set_prevNote lc start gd).
Proof.
  intros Hwf Hplay startRow endRow taps scan lc.
  pose proof (noteColumn_range gd col Hwf Hplay) as Hlc. fold lc in Hlc.
  destruct Hwf as [Hcols Hlen].
  unfold MID.addGHRBNote. fold startRow endRow taps scan.
  destruct scan as [chord highest] eqn:Hscan. cbn [fst snd].
  assert (Hnormal : ∀ c,
    (if MID.bInOpenSection gd || ((c =? -1) && (MID.iCols gd =? 7))
     then MID.iCols gd - 1 else c) = lc ->
    MID.normalNote notes taps chord highest c start startRow endRow gd
    = if MID.bInTapSection gd then
        Some (MID.placeNote notes lc startRow endRow 1,
              MID.set_prevNote lc start gd)
      else if chord then
        if start =? MID.iLastForcedHOPO gd then
          if lc <? highest then Some (notes, gd)
          else
            Some (MID.placeNote (SetTapNote notes highest startRow TAP_EMPTY)
                    lc startRow endRow (if isHOPO (taps highest) then 3 else 2),
                  MID.set_prevNote lc start (MID.set_iLastChordRow start gd))
        else
          Some (MID.placeNote
                  (if isHOPO (taps highest)
                   then MID.placeNote notes highest startRow
                          (startRow + iDuration (taps highest)) 2
                   else notes) lc startRow endRow 2,
                MID.set_prevNote lc start (MID.set_iLastChordRow start gd))
      else
        Some (MID.placeNote notes lc startRow endRow
                (if MID.checkHOPOConditions lc start gd then 3 else 2),
              MID.set_prevNote lc start gd)).
  { intros c Hc. unfold MID.normalNote. rewrite Hc.
    rewrite !recordNote_ok by done. done. }
  set (c' := if (MID.iCols gd =? 7) && (col <? 7) then col - 1 else col).
  assert (Hc' : (((c' =? 5) && (MID.iCols gd =? 6))
                 || ((c' =? 7) && (MID.iCols gd =? 7)) = false)
                ∧ (((c' =? 6) && (MID.iCols gd =? 6))
                   || ((c' =? 8) && (MID.iCols gd =? 7)) = false)
                ∧ (if MID.bInOpenSection gd
                      || ((c' =? -1) && (MID.iCols gd =? 7))
                   then MID.iCols gd - 1 else c') = lc).
  { unfold lc, noteColumn, c'. clear Hnormal Hlc.
    destruct (MID.bInOpenSection gd);
      destruct Hplay as [[-> Hcol] | [-> Hcol]];
      cbn [Z.eqb andb Pos.eqb orb];
      rewrite ?andb_true_r, ?andb_false_r; cbn [orb];
      try (destruct (Z.ltb_spec col 7); [|lia]);
      repeat match goal with
             | |- context [?a =? ?b] => destruct (Z.eqb_spec a b); try lia
             end; done. }
  destruct Hc' as (-> & -> & Hremap). by apply Hnormal.
Qed.

(** A note arriving, off a tap section, on a row that already holds notes
    and is not the last forced-HOPO row, is placed as a strum; the highest
    note of the row, if it reads as HOPO, is re-placed as a strum of the
    same span; the tick is recorded as the last chord tick and as the
    lane's last note; nothing else changes. *)
Theorem chord_row_notes_are_strums (notes : NoteData)
  (col start end_ h : Z) (gd : MID.GuitarData) :
  let startRow := row gd start in
  let endRow := row gd (MID.realEnd start end_ gd) in
  let lc := noteColumn gd col in
  let old := GetTapNote notes h startRow in
  wfGuitar gd -> playableLane gd col ->
  MID.bInTapSection gd = false ->
  start ≠ MID.iLastForcedHOPO gd ->
  0 <= h < MID.iCols gd -> old ≠ TAP_EMPTY ->
  (∀ j, h < j < MID.iCols gd -> GetTapNote notes j startRow = TAP_EMPTY) ->
  ∃ notes' gd',
    addGHRBNote notes col start end_ gd = Some (notes', gd')
    ∧ MID.iLastChordRow gd' = start
    ∧ MID.iPrevNoteTrack gd' = lc
    ∧ vget (MID.iPrevNoteMark gd') lc = start
    ∧ GetTapNote notes' lc startRow = categoryNote 2 startRow endRow
    ∧ (h ≠ lc ->
       GetTapNote notes' h startRow
       = if isHOPO old
         then categoryNote 2 startRow (startRow + iDuration old)
         else old)
    ∧ (∀ i r', (i, r') ≠ (lc, startRow) -> (i, r') ≠ (h, startRow) ->
         GetTapNote notes' i r' = GetTapNote notes i r').
Proof.
  intros startRow endRow lc old Hwf Hplay Htap Hforced Hh Hocc Habove.
  rewrite (addGHRBNote_normal_form notes col start end_ gd Hwf Hplay).
  cbv zeta. fold startRow endRow lc.
  rewrite (chordScan_highest (fun i => GetTapNote notes i startRow)
             (MID.iCols gd) h Hh Hocc Habove).
  cbn [fst snd]. rewrite Htap. fold old.
  destruct (Z.eqb_spec start (MID.iLastForcedHOPO gd)); [done|].
  pose proof (noteColumn_range gd col Hwf Hplay) as Hlc. fold lc in Hlc.
  destruct Hwf as [Hcols Hlen].
  eexists _, _. split; [reflexivity|]. split; [reflexivity|].
  split; [reflexivity|]. split.
  { cbn [MID.set_prevNote MID.iPrevNoteMark MID.set_iLastChordRow].
    apply vget_insert_eq. lia. }
  split; [apply GetTapNote_placeNote; auto|]. split.
  - intros Hne. rewrite GetTapNote_placeNote_ne by congruence.
    destruct (isHOPO old); [|done]. apply GetTapNote_placeNote. auto.
  - intros i r' Hlc' Hh'. rewrite GetTapNote_placeNote_ne by done.
    destruct (isHOPO old); [|done]. by rewrite GetTapNote_placeNote_ne.
Qed.

(** On the last forced-HOPO row only one note is kept.  A note arriving on
    a lower column than the highest note of the row is discarded: neither
    the notes nor the guitar data change.  Otherwise the highest note is
    cleared and the new one placed, as a HOPO when the cleared one read as
    HOPO and as a strum when it did not. *)
Theorem forced_row_keeps_one_note (notes : NoteData)
  (col start end_ h : Z) (gd : MID.GuitarData) :
  let startRow := row gd start in
  let endRow := row gd (MID.realEnd start end_ gd) in
  let lc := noteColumn gd col in
  let old := GetTapNote notes h startRow in
  wfGuitar gd -> playableLane gd col ->
  MID.bInTapSection gd = false ->
  start = MID.iLastForcedHOPO gd ->
  0 <= h < MID.iCols gd -> old ≠ TAP_EMPTY ->
  (∀ j, h < j < MID.iCols gd -> GetTapNote notes j startRow = TAP_EMPTY) ->
  (lc < h -> addGHRBNote notes col start end_ gd = Some (notes, gd))
  ∧ (h <= lc ->
     ∃ notes' gd',
       addGHRBNote notes col start end_ gd = Some (notes', gd')
       ∧ MID.iLastChordRow gd' = start
       ∧ MID.iPrevNoteTrack gd' = lc
       ∧ GetTapNote notes' lc startRow
         = categoryNote (if isHOPO old then 3 else 2) startRow endRow
       ∧ (h ≠ lc -> GetTapNote notes' h startRow = TAP_EMPTY)
       ∧ (∀ i r', (i, r') ≠ (lc, startRow) -> (i, r') ≠ (h, startRow) ->
            GetTapNote notes' i r' = GetTapNote notes i r')).
Proof.
  intros startRow endRow lc old Hwf Hplay Htap Hforced Hh Hocc Habove.
  rewrite (addGHRBNote_normal_form notes col start end_ gd Hwf Hplay).
  cbv zeta. fold startRow endRow lc.
  rewrite (chordScan_highest (fun i => GetTapNote notes i startRow)
             (MID.iCols gd) h Hh Hocc Habove).
  cbn [fst snd]. rewrite Htap. fold old.
  destruct (Z.eqb_spec start (MID.iLastForcedHOPO gd)); [|done].
  split.
  - intros Hlow. by destruct (Z.ltb_spec lc h); [|lia].
  - intros Hhigh. destruct (Z.ltb_spec lc h); [lia|].
    eexists _, _. split; [reflexivity|]. split; [reflexivity|].
    split; [reflexivity|]. split.
    { apply GetTapNote_placeNote. destruct (isHOPO old); auto. }
    split.
    + intros Hne. rewrite GetTapNote_placeNote_ne by congruence.
      by rewrite GetTapNote_SetTapNote.
    + intros i r' Hlc' Hh'. rewrite GetTapNote_placeNote_ne by done.
      by rewrite GetTapNote_SetTapNote_ne.
Qed.

(** A note arriving, off a tap section, on a row that holds no note is
    placed as a HOPO exactly when the shared predicate says so, and as a
    strum otherwise; its tick becomes the lane's last note, the chord and
    marker ticks stay, and no other cell changes. *)
Theorem isolated_note_follows_predicate (notes : NoteData)
  (col start end_ : Z) (gd : MID.GuitarData) :
  let startRow := row gd start in
  let endRow := row gd (MID.realEnd start end_ gd) in
  let lc := noteColumn gd col in
  wfGuitar gd -> playableLane gd col ->
  MID.bInTapSection gd = false ->
  (∀ i, 0 <= i < MID.iCols gd -> GetTapNote notes i startRow = TAP_EMPTY) ->
  ∃ notes' gd',
    addGHRBNote notes col start end_ gd = Some (notes', gd')
    ∧ GetTapNote notes' lc startRow
      = categoryNote (if MID.checkHOPOConditions lc start gd then 3 else 2)
          startRow endRow
    ∧ isHOPO (GetTapNote notes' lc startRow)
      = MID.checkHOPOConditions lc start gd
    ∧ (∀ i r', (i, r') ≠ (lc, startRow) ->
         GetTapNote notes' i r' = GetTapNote notes i r')
    ∧ gd' = MID.set_prevNote lc start gd
    ∧ MID.iLastChordRow gd' = MID.iLastChordRow gd.
Proof.
  intros startRow endRow lc Hwf Hplay Htap Hempty.
  rewrite (addGHRBNote_normal_form notes col start end_ gd Hwf Hplay).
  cbv zeta. fold startRow endRow lc.
  rewrite (chordScan_skip (fun i => GetTapNote notes i startRow)).
  2:{ intros j Hj. apply elem_of_seqZ in Hj. apply Hempty. lia. }
  cbn [fst snd]. rewrite Htap.
  eexists _, _. split; [reflexivity|].
  assert (Hget :
    GetTapNote
      (MID.placeNote notes lc startRow endRow
         (if MID.checkHOPOConditions lc start gd then 3 else 2)) lc startRow
    = categoryNote (if MID.checkHOPOConditions lc start gd then 3 else 2)
        startRow endRow).
  { apply GetTapNote_placeNote.
    destruct (MID.checkHOPOConditions lc start gd); auto. }
  split; [exact Hget|]. split.
  { rewrite Hget.
    destruct (categoryNote_kind
                (if MID.checkHOPOConditions lc start gd then 3 else 2)
                startRow endRow) as (_ & _ & ->).
    by destruct (MID.checkHOPOConditions lc start gd). }
  split; [|done].
  intros i r' Hne. by apply GetTapNote_placeNote_ne.
Qed.

(** *** The event loop stays in bounds *)

Lemma tracksWithin_SetTapNote (notes : NoteData) (n i r : Z) (tn : TapNote) :
  tracksWithin notes n -> 0 <= i < n ->
  tracksWithin (SetTapNote notes i r tn) n.
Proof.
  intros Hw Hi i' r' Hocc.
  destruct (decide ((i, r) = (i', r'))) as [[= <- <-] | Hne]; [done|].
  rewrite GetTapNote_SetTapNote_ne in Hocc by done. by apply (Hw i' r').
Qed.

Lemma tracksWithin_placeNote (notes : NoteData) (n i start end_ c : Z) :
  tracksWithin notes n -> 0 <= i < n ->
  tracksWithin (MID.placeNote notes i start end_ c) n.
Proof.
  intros Hw Hi i' r' Hocc.
  destruct (decide ((i, start) = (i', r'))) as [[= <- <-] | Hne]; [done|].
  rewrite GetTapNote_placeNote_ne in Hocc by done. by apply (Hw i' r').
Qed.

Lemma forcedHOPO_fold_within (taps : Z -> TapNote) (r n : Z) (ks : list Z)
  (acc : NoteData * bool) :
  (∀ k, k ∈ ks -> 0 <= k < n) -> tracksWithin acc.1 n ->
  tracksWithin (foldl (MID.forcedHOPOBody taps r) acc ks).1 n.
Proof.
  revert acc. induction ks as [|k ks IH]; intros acc Hks Hw; cbn [foldl];
    [done|].
  assert (Hk : 0 <= k < n) by (apply Hks, elem_of_cons; auto).
  apply IH; [intros j Hj; apply Hks, elem_of_cons; auto|].
  unfold MID.forcedHOPOBody. case_decide; [done|].
  destruct acc.2; cbn [fst].
  - by apply tracksWithin_SetTapNote.
  - by apply tracksWithin_placeNote.
Qed.

Lemma forcedStrum_fold_within (taps : Z -> TapNote) (r n : Z) (ks : list Z)
  (notes : NoteData) :
  (∀ k, k ∈ ks -> 0 <= k < n) -> tracksWithin notes n ->
  tracksWithin (foldl (MID.forcedStrumBody taps r) notes ks) n.
Proof.
  revert notes. induction ks as [|k ks IH]; intros notes Hks Hw; cbn [foldl];
    [done|].
  assert (Hk : 0 <= k < n) by (apply Hks, elem_of_cons; auto).
  apply IH; [intros j Hj; apply Hks, elem_of_cons; auto|].
  unfold MID.forcedStrumBody. case_decide; [done|].
  by apply tracksWithin_placeNote.
Qed.

Lemma chordScan_range (taps : Z -> TapNote) (n : Z) (ks : list Z)
  (acc : bool * Z) :
  (∀ k, k ∈ ks -> 0 <= k < n) ->
  acc.2 < n -> (acc.1 = true -> 0 <= acc.2) ->
  (foldl (MID.chordScan taps) acc ks).1 = true ->
  0 <= (foldl (MID.chordScan taps) acc ks).2 < n.
Proof.
  revert acc.
  induction ks as [|k ks IH]; intros acc Hks Hlt Hacc; cbn [foldl].
  { intros Hres. split; [by apply Hacc | done]. }
  assert (Hk : 0 <= k < n) by (apply Hks, elem_of_cons; auto).
  apply IH; [intros j Hj; apply Hks, elem_of_cons; auto| |].
  - unfold MID.chordScan. case_decide; [done|]. cbn [snd].
    destruct (Z.ltb_spec acc.2 k); lia.
  - unfold MID.chordScan. case_decide; [done|]. cbn [fst snd]. intros _.
    destruct (Z.ltb_spec acc.2 k); lia.
Qed.

Lemma wfGuitar_set_prevNote (lc start : Z) (gd : MID.GuitarData) :
  wfGuitar gd -> wfGuitar (MID.set_prevNote lc start gd).
Proof.
  intros [Hcols Hlen]. split; [exact Hcols|].
  cbn [MID.set_prevNote MID.iPrevNoteMark MID.iCols].
  by rewrite length_insert.
Qed.

(** Every lane of the file is handled: [addGHRBNote] returns, keeps the
    lane array, and leaves the notes on the tracks of the note data. *)
Lemma addGHRBNote_total (notes : NoteData) (col start end_ : Z)
  (gd : MID.GuitarData) :
  wfGuitar gd -> 0 <= col < midiLanes gd ->
  tracksWithin notes (MID.iCols gd) ->
  ∃ notes' gd',
    addGHRBNote notes col start end_ gd = Some (notes', gd')
    ∧ wfGuitar gd' ∧ MID.iCols gd' = MID.iCols gd
    ∧ tracksWithin notes' (MID.iCols gd).
Proof.
  intros Hwf Hcol Hw.
  assert (Hkind : playableLane gd col
                  ∨ (MID.iCols gd = 6 ∧ (col = 5 ∨ col = 6))
                  ∨ (MID.iCols gd = 7 ∧ (col = 7 ∨ col = 8))).
  { unfold playableLane, midiLanes in *. destruct Hwf as [[H6 | H7] _].
    - rewrite H6 in *. cbn [Z.eqb Pos.eqb] in Hcol. lia.
    - rewrite H7 in *. cbn [Z.eqb Pos.eqb] in Hcol. lia. }
  set (startRow := row gd start).
  set (taps := fun i => GetTapNote notes i startRow).
  assert (Hidx : ∀ k, k ∈ indices (MID.iCols gd) -> 0 <= k < MID.iCols gd).
  { intros k Hk. apply elem_of_seqZ in Hk. lia. }
  destruct Hkind as [Hplay | Hmarker].
  - rewrite (addGHRBNote_normal_form notes col start end_ gd Hwf Hplay).
    cbv zeta. fold startRow. fold taps.
    pose proof (noteColumn_range gd col Hwf Hplay) as Hlc.
    pose proof (chordScan_range taps (MID.iCols gd) (indices (MID.iCols gd))
                  (false, -1) Hidx ltac:(cbn [snd]; lia)
                  ltac:(discriminate)) as Hscan.
    destruct (foldl (MID.chordScan taps) (false, -1)
                (indices (MID.iCols gd))) as [chord highest].
    cbn [fst snd] in *.
    assert (Hwfc : wfGuitar (MID.set_iLastChordRow start gd)) by exact Hwf.
    destruct (MID.bInTapSection gd).
    { eexists _, _. split; [reflexivity|].
      split; [by apply wfGuitar_set_prevNote|]. split; [reflexivity|].
      by apply tracksWithin_placeNote. }
    destruct chord.
    + specialize (Hscan eq_refl).
      destruct (start =? MID.iLastForcedHOPO gd).
      * destruct (noteColumn gd col <? highest).
        { eexists _, _. split; [reflexivity|]. split; [exact Hwf|].
          split; [reflexivity | exact Hw]. }
        eexists _, _. split; [reflexivity|].
        split; [by apply wfGuitar_set_prevNote|]. split; [reflexivity|].
        apply tracksWithin_placeNote; [|done].
        by apply tracksWithin_SetTapNote.
      * eexists _, _. split; [reflexivity|].
        split; [by apply wfGuitar_set_prevNote|]. split; [reflexivity|].
        apply tracksWithin_placeNote; [|done].
        destruct (isHOPO _); [|exact Hw].
        by apply tracksWithin_placeNote.
    + eexists _, _. split; [reflexivity|].
      split; [by apply wfGuitar_set_prevNote|]. split; [reflexivity|].
      by apply tracksWithin_placeNote.
  - unfold MID.addGHRBNote. fold startRow. fold taps.
    destruct (foldl (MID.chordScan taps) (false, -1)
                (indices (MID.iCols gd))) as [chord highest].
    assert (Hbranch :
      (let c := if (MID.iCols gd =? 7) && (col <? 7) then col - 1 else col in
       (((c =? 5) && (MID.iCols gd =? 6)) || ((c =? 7) && (MID.iCols gd =? 7)),
        ((c =? 6) && (MID.iCols gd =? 6)) || ((c =? 8) && (MID.iCols gd =? 7))))
      = (true, false)
      ∨ (let c := if (MID.iCols gd =? 7) && (col <? 7) then col - 1 else col in
       (((c =? 5) && (MID.iCols gd =? 6)) || ((c =? 7) && (MID.iCols gd =? 7)),
        ((c =? 6) && (MID.iCols gd =? 6)) || ((c =? 8) && (MID.iCols gd =? 7))))
      = (false, true)).
    { destruct Hmarker as [[-> [-> | ->]] | [-> [-> | ->]]];
        (by left) || (by right). }
    cbv zeta in Hbranch.
    destruct Hbranch as [[= -> _] | [= -> ->]].
    + eexists _, _. split; [reflexivity|]. split; [exact Hwf|].
      split; [reflexivity|].
      destruct chord; [|done].
      apply forcedHOPO_fold_within; [|exact Hw].
      intros k Hk. rewrite elem_of_reverse in Hk. by apply Hidx.
    + eexists _, _. split; [reflexivity|]. split; [exact Hwf|].
      split; [reflexivity|].
      destruct chord; [|exact Hw].
      by apply forcedStrum_fold_within.
Qed.

Lemma sysexEvent_keeps (pData : list Z) (diff : MID.Difficulty)
  (gd gd' : MID.GuitarData) :
  MID.sysexEvent pData diff gd = Some gd' ->
  MID.iCols gd' = MID.iCols gd
  ∧ MID.iPrevNoteMark gd' = MID.iPrevNoteMark gd.
Proof.
  unfold MID.sysexEvent.
  destruct (MID.translateSysex pData diff) as [type|]; [|done].
  cbn [mbind option_bind]. intros [= <-].
  by destruct (2 <? type), (0 <? type).
Qed.

(** One event of the loop, from a state that satisfies the invariant, on
    a pitch band no wider than the lanes of the file. *)
Lemma trackEvent_invariant (diff : MID.Difficulty) (low high : Z)
  (evt : MID.MidiEvent) (ts : MID.TrackState) :
  trackInvariant ts -> high - low < midiLanes (MID.trackData ts) ->
  sysexReadable diff evt ->
  ∃ ts', MID.trackEvent BeatToNoteRow diff low high evt ts = Some ts'
         ∧ trackInvariant ts'
         ∧ MID.iCols (MID.trackData ts') = MID.iCols (MID.trackData ts).
Proof.
  intros (Hwf & Hlen & Hw) Hband Hread.
  destruct evt as [pData | subType note velocity tick |];
    cbn [MID.trackEvent].
  - destruct Hread as [type Htype].
    destruct (MID.sysexEvent pData diff (MID.trackData ts)) as [gd'|] eqn:Hs.
    2:{ unfold MID.sysexEvent in Hs. by rewrite Htype in Hs. }
    destruct (sysexEvent_keeps _ _ _ _ Hs) as [Hc Hm].
    cbn [mbind option_bind]. eexists. split; [reflexivity|].
    split; [|exact Hc].
    unfold trackInvariant, wfGuitar, midiLanes in *.
    cbn [MID.trackData MID.notesInProgress MID.trackNotes].
    by rewrite Hc, Hm.
  - assert (Hclose : ∀ idx, 0 <= idx <= high - low ->
      ∃ ts', MID.closeNote BeatToNoteRow idx tick ts = Some ts'
             ∧ trackInvariant ts'
             ∧ MID.iCols (MID.trackData ts') = MID.iCols (MID.trackData ts)).
    { intros idx Hidx. unfold MID.closeNote.
      destruct (lookup_lt_is_Some_2 (MID.notesInProgress ts) (Z.to_nat idx))
        as [slot ->]; [lia|].
      cbn [mbind option_bind].
      destruct slot as [start|]; [|by exists ts].
      destruct (start <? tick); [|by exists ts].
      destruct (addGHRBNote_total (MID.trackNotes ts) idx start tick
                  (MID.trackData ts) Hwf ltac:(lia) Hw)
        as (notes' & gd' & -> & Hwf' & Hc & Hw').
      cbn [mbind option_bind]. eexists. split; [reflexivity|].
      split; [|exact Hc].
      unfold trackInvariant, midiLanes in *.
      cbn [MID.trackData MID.notesInProgress MID.trackNotes].
      rewrite length_insert, Hc. done. }
    assert (Hopen : ∀ idx, 0 <= idx <= high - low ->
      ∃ ts', MID.openNote idx tick ts = Some ts'
             ∧ trackInvariant ts'
             ∧ MID.iCols (MID.trackData ts') = MID.iCols (MID.trackData ts)).
    { intros idx Hidx. unfold MID.openNote.
      destruct (lookup_lt_is_Some_2 (MID.notesInProgress ts) (Z.to_nat idx))
        as [slot ->]; [lia|].
      cbn [mbind option_bind].
      destruct slot as [start|]; [by exists ts|].
      eexists. split; [reflexivity|]. split; [|reflexivity].
      unfold trackInvariant.
      cbn [MID.trackData MID.notesInProgress MID.trackNotes].
      by rewrite length_insert. }
    unfold MID.noteEvent.
    destruct (Z.leb_spec 0 (note - low)); cbn [andb]; [|by exists ts].
    destruct (Z.leb_spec note high); [|by exists ts].
    destruct subType; [|apply Hclose; lia|by exists ts].
    destruct (0 <? velocity); [apply Hopen; lia|].
    destruct (velocity =? 0); [apply Hclose; lia|by exists ts].
  - by exists ts.
Qed.

Lemma trackEvents_invariant (diff : MID.Difficulty) (low high : Z)
  (track : list MID.MidiEvent) (ts : MID.TrackState) :
  trackInvariant ts -> high - low < midiLanes (MID.trackData ts) ->
  Forall (sysexReadable diff) track ->
  ∃ ts', MID.trackEvents BeatToNoteRow diff low high track ts = Some ts'
         ∧ trackInvariant ts'
         ∧ MID.iCols (MID.trackData ts') = MID.iCols (MID.trackData ts).
Proof.
  revert ts. induction track as [|evt rest IH]; intros ts Hinv Hband Hread;
    cbn [MID.trackEvents]; [by exists ts|].
  apply Forall_cons in Hread as [Hevt Hrest].
  destruct (trackEvent_invariant diff low high evt ts Hinv Hband Hevt)
    as (ts1 & -> & Hinv1 & Hc1).
  cbn [mbind option_bind].
  destruct (IH ts1 Hinv1) as (ts' & -> & Hinv' & Hc'); [|done|].
  { unfold midiLanes in *. by rewrite Hc1. }
  exists ts'. split; [done|]. split; [done|]. by rewrite Hc', Hc1.
Qed.

(** The loader of a guitar track returns on every track whose
    System-Exclusive payloads hold the bytes the decoder reads: no event
    indexes outside the slots of open notes and no note is recorded
    outside the lane array, for any difficulty, rule set, fret count and
    resolution; and every note of the result lies on one of the tracks the
    note data was given, six on five frets and seven on six. *)
Theorem getGHRBNotesFromTrack_in_bounds (track : list MID.MidiEvent)
  (diff : MID.Difficulty) (rules : MID.HOPORules) (fretType : MID.ChartFrets)
  (resolution HOPOres : Z) :
  Forall (sysexReadable diff) track ->
  ∃ notes,
    MID.getGHRBNotesFromTrack BeatToNoteRow track diff rules fretType
      resolution HOPOres = Some notes
    ∧ tracksWithin notes (if decide (fretType = MID.FIVE_FRETS) then 6 else 7).
Proof.
  intros Hread. unfold MID.getGHRBNotesFromTrack.
  destruct (MID.getNoteRangeForDifficulty diff fretType 0 0) as [low high]
    eqn:Hrange.
  set (ts0 := MID.mkTrackState _ _ _).
  assert (Hinv : trackInvariant ts0
                 ∧ high - low < midiLanes (MID.trackData ts0)
                 ∧ MID.iCols (MID.trackData ts0)
                   = if decide (fretType = MID.FIVE_FRETS) then 6 else 7).
  { unfold trackInvariant, wfGuitar, midiLanes, tracksWithin, ts0.
    cbn [MID.trackData MID.notesInProgress MID.trackNotes].
    destruct fretType, diff; injection Hrange as <- <-; cbn;
      repeat split; auto; try lia; try done. }
  destruct Hinv as (Hinv & Hband & Hcols).
  destruct (trackEvents_invariant diff low high track ts0 Hinv Hband Hread)
    as (ts' & -> & (_ & _ & Hw) & Hc).
  cbn [fmap option_fmap option_map]. exists (MID.trackNotes ts').
  split; [done|]. by rewrite <- Hcols, <- Hc.
Qed.


(** *** The generic loader *)

Lemma genericSlot_in_range (idx cols : Z) (gs : MID.GenericState) :
  0 <= idx < cols ->
  length (MID.genericInProgress gs) = Z.to_nat cols ->
  ∃ slot, MID.genericSlot idx gs = Some slot.
Proof.
  intros Hidx Hlen. unfold MID.genericSlot.
  destruct (Z.ltb_spec idx 0); [lia|].
  apply lookup_lt_is_Some_2. lia.
Qed.

Lemma genericEvent_invariant (resolution cols : Z) (evt : MID.MidiEvent)
  (gs : MID.GenericState) :
  0 < cols -> pitchNonneg evt ->
  length (MID.genericInProgress gs) = Z.to_nat cols ->
  tracksWithin (MID.genericNotes gs) cols ->
  genericKinds (MID.genericNotes gs) ->
  ∃ gs', MID.genericEvent BeatToNoteRow resolution cols evt gs = Some gs'
         ∧ length (MID.genericInProgress gs') = Z.to_nat cols
         ∧ tracksWithin (MID.genericNotes gs') cols
         ∧ genericKinds (MID.genericNotes gs').
Proof.
  intros Hcols Hpitch Hlen Hw Hk.
  destruct evt as [pData | subType note velocity tick |];
    cbn [MID.genericEvent]; [by exists gs| |by exists gs].
  cbn [pitchNonneg] in Hpitch.
  destruct (Z.eqb_spec cols 0); [lia|].
  assert (Hidx : 0 <= Z.rem note cols < cols)
    by (apply Z.rem_bound_pos; lia).
  destruct (genericSlot_in_range _ _ gs Hidx Hlen) as [slot Hslot].
  destruct subType; [| |by exists gs].
  - unfold MID.genericNoteOn. rewrite Hslot. cbn [mbind option_bind].
    destruct slot; [by exists gs|].
    eexists. split; [reflexivity|].
    cbn [MID.genericInProgress MID.genericNotes].
    by rewrite length_insert.
  - unfold MID.genericNoteOff. rewrite Hslot. cbn [mbind option_bind].
    destruct slot as [startTick|]; [|by exists gs].
    destruct (Z.ltb_spec (BeatToNoteRow startTick resolution)
                (BeatToNoteRow tick resolution)) as [Hlt | _];
      [|by exists gs].
    eexists. split; [reflexivity|].
    cbn [MID.genericInProgress MID.genericNotes].
    rewrite length_insert. split; [done|].
    set (start := BeatToNoteRow startTick resolution) in *.
    set (end_ := BeatToNoteRow tick resolution) in *.
    clearbody start end_. split.
    + destruct (end_ - start <? 24); unfold AddHoldNote;
        by apply tracksWithin_SetTapNote.
    + intros i r.
      destruct (decide ((Z.rem note cols, start) = (i, r)))
        as [[= <- <-] | Hne].
      * destruct (Z.ltb_spec (end_ - start) 24).
        -- right. right. unfold AddHoldNote.
           rewrite GetTapNote_SetTapNote.
           destruct (decide _) as [He | _]; [discriminate He|].
           cbn. split; [done | lia].
        -- right. left. by rewrite GetTapNote_SetTapNote.
      * destruct (end_ - start <? 24); unfold AddHoldNote;
          rewrite GetTapNote_SetTapNote_ne by done; apply Hk.
Qed.

(** The generic loader returns on every track of non-negative pitches,
    for a positive number of columns: the slot of a pitch is its remainder
    by the columns, always in range.  Every note of the result lies on a
    track below [cols]; it is a plain tap, or a hold head whose duration is
    positive and below 24 rows: a pair of events 24 rows or more apart
    gives a tap, never a hold. *)
Theorem getGenericNotesFromTrack_in_bounds (track : list MID.MidiEvent)
  (resolution cols : Z) :
  0 < cols -> Forall pitchNonneg track ->
  ∃ notes,
    MID.getGenericNotesFromTrack BeatToNoteRow track resolution cols
    = Some notes
    ∧ tracksWithin notes cols ∧ genericKinds notes.
Proof.
  intros Hcols Hpitch. unfold MID.getGenericNotesFromTrack.
  destruct (Z.ltb_spec cols 0); [lia|].
  set (gs0 := MID.mkGenericState _ _).
  assert (Hinit : length (MID.genericInProgress gs0) = Z.to_nat cols
                  ∧ tracksWithin (MID.genericNotes gs0) cols
                  ∧ genericKinds (MID.genericNotes gs0)).
  { subst gs0. cbn [MID.genericInProgress MID.genericNotes].
    rewrite length_replicate. split; [done|]. split.
    - intros i r Hocc. by elim Hocc.
    - intros i r. by left. }
  clearbody gs0. revert gs0 Hinit.
  induction track as [|evt rest IH]; intros gs (Hlen & Hw & Hk);
    cbn [MID.genericEvents].
  { exists (MID.genericNotes gs). done. }
  apply Forall_cons in Hpitch as [Hevt Hrest].
  destruct (genericEvent_invariant resolution cols evt gs Hcols Hevt
              Hlen Hw Hk) as (gs' & -> & Hinv').
  cbn [mbind option_bind]. by apply IH.
Qed.


(** *** The kinds of the notes *)

Lemma forcedHOPO_fold_kinded (taps : Z -> TapNote) (r : Z) (ks : list Z)
  (acc : NoteData * bool) :
  notesKinded acc.1 ->
  notesKinded (foldl (MID.forcedHOPOBody taps r) acc ks).1.
Proof.
  revert acc. induction ks as [|k ks IH]; intros acc Hk; cbn [foldl]; [done|].
  apply IH. unfold MID.forcedHOPOBody. case_decide; [done|].
  destruct acc.2; cbn [fst].
  - by apply notesKinded_clear.
  - by apply notesKinded_placeNote.
Qed.

Lemma forcedStrum_fold_kinded (taps : Z -> TapNote) (r : Z) (ks : list Z)
  (notes : NoteData) :
  notesKinded notes ->
  notesKinded (foldl (MID.forcedStrumBody taps r) notes ks).
Proof.
  revert notes. induction ks as [|k ks IH]; intros notes Hk; cbn [foldl];
    [done|].
  apply IH. unfold MID.forcedStrumBody. case_decide; [done|].
  by apply notesKinded_placeNote.
Qed.

Lemma recordNote_notes (notes notes' : NoteData) (col start : Z)
  (gd gd' : MID.GuitarData) :
  MID.recordNote notes col start gd = Some (notes', gd') -> notes' = notes.
Proof. unfold MID.recordNote. case_match; [|done]. by intros [= <- _]. Qed.

Lemma normalNote_kinded (notes notes' : NoteData) (taps : Z -> TapNote)
  (isChordRow : bool) (highestNote col start startRow endRow : Z)
  (gd gd' : MID.GuitarData) :
  MID.normalNote notes taps isChordRow highestNote col start startRow endRow
    gd = Some (notes', gd') ->
  notesKinded notes -> notesKinded notes'.
Proof.
  intros Hrun Hk. unfold MID.normalNote in Hrun. cbv zeta in Hrun.
  destruct (MID.bInTapSection gd).
  { apply recordNote_notes in Hrun as ->. by apply notesKinded_placeNote. }
  destruct isChordRow.
  - destruct (start =? MID.iLastForcedHOPO gd).
    + destruct (_ <? highestNote); [by injection Hrun as <- _|].
      apply recordNote_notes in Hrun as ->.
      by apply notesKinded_placeNote, notesKinded_clear.
    + apply recordNote_notes in Hrun as ->.
      apply notesKinded_placeNote.
      destruct (isHOPO _); [|done]. by apply notesKinded_placeNote.
  - apply recordNote_notes in Hrun as ->. by apply notesKinded_placeNote.
Qed.

Lemma addGHRBNote_kinded (notes notes' : NoteData) (col start end_ : Z)
  (gd gd' : MID.GuitarData) :
  addGHRBNote notes col start end_ gd = Some (notes', gd') ->
  notesKinded notes -> notesKinded notes'.
Proof.
  intros Hrun Hk. unfold MID.addGHRBNote in Hrun. cbv zeta in Hrun.
  destruct (foldl (MID.chordScan _) _ _) as [chord highest].
  destruct (_ || _).
  { injection Hrun as <- _. destruct chord; [|done].
    by apply forcedHOPO_fold_kinded. }
  destruct (_ || _).
  { injection Hrun as <- _. destruct chord; [|done].
    by apply forcedStrum_fold_kinded. }
  by eapply normalNote_kinded.
Qed.

Lemma trackEvent_kinded (diff : MID.Difficulty) (low high : Z)
  (evt : MID.MidiEvent) (ts ts' : MID.TrackState) :
  MID.trackEvent BeatToNoteRow diff low high evt ts = Some ts' ->
  notesKinded (MID.trackNotes ts) -> notesKinded (MID.trackNotes ts').
Proof.
  intros Hrun Hk.
  assert (Hclose : ∀ idx tick,
    MID.closeNote BeatToNoteRow idx tick ts = Some ts' ->
    notesKinded (MID.trackNotes ts')).
  { intros idx tick H. unfold MID.closeNote in H.
    destruct (MID.notesInProgress ts !! Z.to_nat idx) as [slot|]; [|done].
    cbn [mbind option_bind] in H.
    destruct slot as [start|]; [|by injection H as <-].
    destruct (start <? tick); [|by injection H as <-].
    destruct (MID.addGHRBNote _ _ _ _ _ _) as [[notes1 gd1]|] eqn:Hadd;
      [|done].
    cbn [mbind option_bind] in H. injection H as <-.
    cbn [MID.trackNotes]. by eapply addGHRBNote_kinded. }
  assert (Hopen : ∀ idx tick,
    MID.openNote idx tick ts = Some ts' ->
    notesKinded (MID.trackNotes ts')).
  { intros idx tick H. unfold MID.openNote in H.
    destruct (MID.notesInProgress ts !! Z.to_nat idx) as [slot|]; [|done].
    cbn [mbind option_bind] in H.
    destruct slot; by injection H as <-. }
  destruct evt as [pData | subType note velocity tick |];
    cbn [MID.trackEvent] in Hrun.
  - destruct (MID.sysexEvent pData diff (MID.trackData ts)); [|done].
    cbn [mbind option_bind] in Hrun. by injection Hrun as <-.
  - unfold MID.noteEvent in Hrun.
    destruct (_ && _); [|by injection Hrun as <-].
    destruct subType; [|by eapply Hclose|by injection Hrun as <-].
    destruct (0 <? velocity); [by eapply Hopen|].
    destruct (velocity =? 0); [by eapply Hclose|by injection Hrun as <-].
  - by injection Hrun as <-.
Qed.

(** Every note the loader of a guitar track has placed is a tap, a gem or
    a HOPO; the held kinds carry a positive duration and the single kinds
    none: the empty kinds [placeNote] keeps for an unknown category are
    never written, and the markers and chords, which rewrite notes already
    placed, keep the durations. *)
Theorem getGHRBNotesFromTrack_note_kinds (track : list MID.MidiEvent)
  (diff : MID.Difficulty) (rules : MID.HOPORules) (fretType : MID.ChartFrets)
  (resolution HOPOres : Z) (notes : NoteData) :
  MID.getGHRBNotesFromTrack BeatToNoteRow track diff rules fretType
    resolution HOPOres = Some notes ->
  notesKinded notes.
Proof.
  unfold MID.getGHRBNotesFromTrack.
  destruct (MID.getNoteRangeForDifficulty diff fretType 0 0) as [low high].
  set (ts0 := MID.mkTrackState _ _ _).
  assert (Hinit : notesKinded (MID.trackNotes ts0))
    by (intros i r; by left).
  clearbody ts0. revert ts0 Hinit.
  induction track as [|evt rest IH]; intros ts Hk; cbn [MID.trackEvents].
  - cbn. by intros [= <-].
  - destruct (MID.trackEvent _ _ _ _ evt ts) as [ts1|] eqn:Hevt; [|done].
    cbn [mbind option_bind]. apply IH. by eapply trackEvent_kinded.
Qed.


(** *** When a candidate is emitted, and when dropped *)




End MIDProperties.

(** ** Held variants and tap override, across both engines *)

Lemma categoryNote_tap (start end_ : Z) :
  isTap (categoryNote 1 start end_) = true
  ∧ isHOPO (categoryNote 1 start end_) = false
  ∧ isStrum (categoryNote 1 start end_) = false.
Proof. by destruct (categoryNote_kind 1 start end_) as (-> & -> & ->). Qed.





(** C5, as the code has it.  What is stated is the event the note's own
    step writes, read right after that step, from every state, so
    whatever the chord and forced-marker state at that step; the steps
    that follow may re-emit the cell.  Text: every note whose tick lies
    within one of the last tap-override tick is written as a tap, not as
    HOPO or strum; it is the held tap exactly when its end row lies beyond
    its start row (which, with a monotone row conversion and the int sum
    of tick and length in range, requires [length > 0]); its track's HOPO
    flag is cleared; and the result does
    not depend on the HOPO threshold, the decision logic being skipped.
    MIDI: every candidate on a playable lane arriving while the
    tap-section flag is set is written as a tap, not as HOPO or strum,
    whatever the rest of the state. *)
Theorem tap_override_dominance :
  (∀ (BeatToNoteRow : Z -> Z -> Z) (resolution iHopoResolution : Z)
     (st : Chart.ChartState) (t r len : Z),
     wfState st -> 0 <= r < 5 ->
     Z.abs (Chart.iLastTapRow st - t) <= 1 -> Chart.iLastTapRow st ≠ -1 ->
     ∃ st',
       Chart.noteRecord BeatToNoteRow resolution iHopoResolution t r len st
       = Some st'
       ∧ let startRow := BeatToNoteRow t resolution in
         let endRow := BeatToNoteRow (wrapInt (t + len)) resolution in
         let event := GetTapNote (Chart.newNotes st') r startRow in
         isTap event = true ∧ isHOPO event = false ∧ isStrum event = false
         ∧ (isHeld event = true ↔ startRow < endRow)
         ∧ (rowMonotone BeatToNoteRow resolution -> inInt (t + len) ->
            isHeld event = true -> 0 < len)
         ∧ bget (Chart.bPrevNoteHOPO st') r = false
         ∧ ∀ iHopoResolution',
             Chart.noteRecord BeatToNoteRow resolution iHopoResolution'
               t r len st = Some st')
  ∧ (∀ (BeatToNoteRow : Z -> Z -> Z) (notes : NoteData)
       (col start end_ : Z) (gd : MID.GuitarData),
       wfGuitar gd -> playableLane gd col ->
       MID.bInTapSection gd = true ->
       ∃ notes' gd',
         MID.addGHRBNote BeatToNoteRow notes col start end_ gd
         = Some (notes', gd')
         ∧ let event :=
             GetTapNote notes' (MID.iPrevNoteTrack gd')
               (BeatToNoteRow start (MID.iResolution gd)) in
           isTap event = true ∧ isHOPO event = false
           ∧ isStrum event = false).
Proof.
  split.
  - intros row resolution h st t r len Hwf Hr Hnear Hrec.
    destruct (noteRecord_tap_row row resolution h st t r len Hwf Hr Hnear Hrec)
      as (st' & Hnote & Hget & Hflag & Hindep).
    exists st'. split; [exact Hnote|]. cbv zeta. rewrite Hget.
    destruct (categoryNote_tap (row t resolution)
                (row (wrapInt (t + len)) resolution))
      as (-> & -> & ->).
    rewrite categoryNote_held, Z.ltb_lt.
    repeat split; try done.
    intros Hmono Hsum H. rewrite (wrapInt_id _ Hsum) in H.
    destruct (Z.lt_ge_cases 0 len) as [|Hle]; [done|].
    pose proof (Hmono (t + len) t ltac:(lia)). lia.
  - intros row notes col start end_ gd Hwf Hplay Htap.
    destruct (addGHRBNote_playable row notes col start end_ gd Hwf Hplay)
      as (chord & highest & col' & H6 & H7 & ->).
    destruct (normalNote_emits notes
                (fun i => GetTapNote notes i (row start (MID.iResolution gd)))
                chord highest col' start (row start (MID.iResolution gd))
                (row (MID.realEnd start end_ gd) (MID.iResolution gd))
                gd Hwf H6 H7)
      as [[Hno _] | (notes' & gd' & c & Hemit & _ & Hc & Hget)];
      [congruence|].
    exists notes', gd'. split; [exact Hemit|]. cbv zeta.
    rewrite Hget, (Hc Htap). apply categoryNote_tap.
Qed.

Lemma tap_override_dominance_witness :
  (let st := Chart.mkChartState ∅ [0; -1; -1; -1; -1] 0 [0; -1; -1; -1; -1]
               [false; false; false; false; false] 96 96 (-1) in
   ∃ st', Chart.noteRecord BeatToNoteRow 192 200 96 1 96 st = Some st'
     ∧ isTap (GetTapNote (Chart.newNotes st') 1 24) = true
     ∧ isHOPO (GetTapNote (Chart.newNotes st') 1 24) = false
     ∧ isStrum (GetTapNote (Chart.newNotes st') 1 24) = false)
  ∧ (let gd := MID.set_bInTapSection true
                 (MID.getNewGuitarData 480 170 MID.GH_HOPO_Rules
                    MID.FIVE_FRETS) in
     ∃ notes' gd',
       MID.addGHRBNote BeatToNoteRow ∅ 2 0 480 gd = Some (notes', gd')
       ∧ isTap (GetTapNote notes' (MID.iPrevNoteTrack gd') 0) = true
       ∧ isHOPO (GetTapNote notes' (MID.iPrevNoteTrack gd') 0) = false
       ∧ isStrum (GetTapNote notes' (MID.iPrevNoteTrack gd') 0) = false).
Proof.
  destruct tap_override_dominance as [Htext Hmid].
  split.
  - intros st.
    destruct (Htext BeatToNoteRow 192 200 st 96 1 96)
      as (st' & Hrec & Htap & Hhopo & Hstrum & _).
    + repeat split; reflexivity.
    + lia.
    + vm_compute. discriminate.
    + discriminate.
    + exists st'. split; [exact Hrec|]. split; [exact Htap|].
      split; [exact Hhopo | exact Hstrum].
  - intros gd.
    destruct (Hmid BeatToNoteRow ∅ 2 0 480 gd)
      as (notes' & gd' & Hemit & Hev).
    + split; [left; reflexivity | reflexivity].
    + left. split; [reflexivity | lia].
    + reflexivity.
    + exists notes', gd'. split; [exact Hemit | exact Hev].
Defined.

(** C5, as stated, fails on "held if length > 0": at resolution 192 a note
    of length 1 on a tap row ends on the row it starts on and is emitted as
    a plain tap. *)
Lemma short_tap_note_not_held :
  ∃ st st',
    Chart.parseLines BeatToNoteRow 192 48 ["0 = E T"%string]
      Chart.initialState = Some st
    ∧ Z.abs (Chart.iLastTapRow st - 0) <= 1 ∧ Chart.iLastTapRow st ≠ -1
    ∧ Chart.noteRecord BeatToNoteRow 192 48 0 0 1 st = Some st'
    ∧ 0 < 1
    ∧ GetTapNote (Chart.newNotes st') 0 (BeatToNoteRow 0 192)
      = TAP_ORIGINAL_TAP
    ∧ isHeld (GetTapNote (Chart.newNotes st') 0 (BeatToNoteRow 0 192))
      = false.
Proof.
  eexists _, _. split; [vm_compute; reflexivity|].
  split; [vm_compute; discriminate|]. split; [discriminate|].
  split; [vm_compute; reflexivity|].
  split; [lia|]. split; reflexivity.
Qed.

(** C5, as stated, fails in two ways.  "Held if length > 0": the short
    note above.  "Never emitted as HOPO or strum": the tap is what the
    note's own step writes, and a marker processed afterwards on its row
    re-emits it.  Text: after a tap marker and a note at tick 0, a forced
    marker at tick 0 leaves a gem.  MIDI: in a tap section, after a note
    on lane 2 at tick 0, a hit of the forced-strum lane at tick 0 leaves
    a gem. *)
Lemma tap_override_counterexamples :
  (∃ st st',
     Chart.parseLines BeatToNoteRow 192 48 ["0 = E T"%string]
       Chart.initialState = Some st
     ∧ Z.abs (Chart.iLastTapRow st - 0) <= 1 ∧ Chart.iLastTapRow st ≠ -1
     ∧ Chart.noteRecord BeatToNoteRow 192 48 0 0 1 st = Some st'
     ∧ 0 < 1
     ∧ GetTapNote (Chart.newNotes st') 0 (BeatToNoteRow 0 192)
       = TAP_ORIGINAL_TAP
     ∧ isHeld (GetTapNote (Chart.newNotes st') 0 (BeatToNoteRow 0 192))
       = false)
  ∧ (∃ before after,
       Chart.parseNoteSection BeatToNoteRow 192 48
         ["0 = E T"; "0 = N 0 0"]%string = Some before
       ∧ GetTapNote before 0 (BeatToNoteRow 0 192) = TAP_ORIGINAL_TAP
       ∧ Chart.parseNoteSection BeatToNoteRow 192 48
           ["0 = E T"; "0 = N 0 0"; "0 = N 5 0"]%string = Some after
       ∧ GetTapNote after 0 (BeatToNoteRow 0 192) = TAP_ORIGINAL_GEM
       ∧ isTap (GetTapNote after 0 (BeatToNoteRow 0 192)) = false
       ∧ isStrum (GetTapNote after 0 (BeatToNoteRow 0 192)) = true)
  ∧ (let gd := MID.set_bInTapSection true
                 (MID.getNewGuitarData 480 170 MID.GH_HOPO_Rules
                    MID.FIVE_FRETS) in
     ∃ notes1 gd1 notes2 gd2,
       MID.addGHRBNote BeatToNoteRow ∅ 2 0 100 gd = Some (notes1, gd1)
       ∧ MID.bInTapSection gd1 = true
       ∧ GetTapNote notes1 2 (BeatToNoteRow 0 480) = TAP_ORIGINAL_TAP
       ∧ MID.addGHRBNote BeatToNoteRow notes1 6 0 100 gd1
         = Some (notes2, gd2)
       ∧ GetTapNote notes2 2 (BeatToNoteRow 0 480) = TAP_ORIGINAL_GEM
       ∧ isTap (GetTapNote notes2 2 (BeatToNoteRow 0 480)) = false
       ∧ isStrum (GetTapNote notes2 2 (BeatToNoteRow 0 480)) = true).
Proof.
  split; [exact short_tap_note_not_held|]. split.
  - eexists _, _. split; [vm_compute; reflexivity|].
    split; [reflexivity|]. split; [vm_compute; reflexivity|].
    repeat split; reflexivity.
  - intros gd. eexists _, _, _, _.
    split; [vm_compute; reflexivity|]. split; [reflexivity|].
    split; [reflexivity|]. split; [vm_compute; reflexivity|].
    repeat split; reflexivity.
Qed.

Lemma forced_HOPO_marker_keeps_highest_witness :
  let notes : NoteData :=
    {[ (1, 0) := TAP_ORIGINAL_GEM;
       (3, 0) := mkTapNote TapNoteType_GemHold 24 ]} in
  let gd := MID.getNewGuitarData 480 170 MID.GH_HOPO_Rules MID.FIVE_FRETS in
  ∃ notes',
    MID.addGHRBNote BeatToNoteRow notes 5 0 100 gd
    = Some (notes', MID.set_iLastForcedHOPO 0 gd)
    ∧ GetTapNote notes' 3 0 = mkTapNote TapNoteType_HOPOHold 24
    ∧ GetTapNote notes' 1 0 = TAP_EMPTY.
Proof.
  intros notes gd.
  destruct (forced_HOPO_marker_keeps_highest BeatToNoteRow notes 5 0 100 gd)
    as (notes' & Hrun & _ & Hchord & _).
  - left. split; reflexivity.
  - destruct (Hchord 3) as (Hat & _ & Hothers).
    + split; [lia | reflexivity].
    + vm_compute. discriminate.
    + intros j Hj.
      assert (j = 4 ∨ j = 5) as [-> | ->]
        by (change (MID.iCols gd) with 6 in Hj; lia);
        reflexivity.
    + exists notes'. split; [exact Hrun|]. split; [exact Hat|].
      apply Hothers; [split; [lia | reflexivity] | lia].
Defined.

Lemma checkHOPOConditions_priority_witness :
  let gd := MID.mkGuitarData [100; 100; -1; -1; -1; -1] 1 (-1) (-1) (-1)
              480 170 6 false false MID.RB_HOPO_Rules MID.FIVE_FRETS in
  laneScan 0 150 gd = true
  ∧ MID.checkHOPOConditions 0 150 gd = false.
Proof.
  intros gd. split; [reflexivity|].
  rewrite (checkHOPOConditions_priority 0 150 gd).
  - reflexivity.
  - reflexivity.
  - split; [lia | reflexivity].
  - intros k Hk. change (MID.iCols gd) with 6 in Hk.
    assert (k = 0 ∨ k = 1 ∨ k = 2 ∨ k = 3 ∨ k = 4 ∨ k = 5)
      as [-> | [-> | [-> | [-> | [-> | ->]]]]] by lia;
      vm_compute; discriminate.
Defined.

(** ** The two-note text scenario *)

Lemma parseLine_first_note (BeatToNoteRow : Z -> Z -> Z) (h : Z)
  (st : Chart.ChartState) :
  Chart.parseLine BeatToNoteRow 192 h "0 = N 0 0" st
  = match Chart.noteRecord BeatToNoteRow 192 h 0 0 0 st with
    | Some st' => Chart.LineNext st'
    | None => Chart.LineUndefined
    end.
Proof. reflexivity. Qed.

Lemma parseLine_second_note (BeatToNoteRow : Z -> Z -> Z) (h : Z)
  (st : Chart.ChartState) :
  Chart.parseLine BeatToNoteRow 192 h "96 = N 1 0" st
  = match Chart.noteRecord BeatToNoteRow 192 h 96 1 0 st with
    | Some st' => Chart.LineNext st'
    | None => Chart.LineUndefined
    end.
Proof. reflexivity. Qed.

Lemma two_note_scenario (BeatToNoteRow : Z -> Z -> Z) (h : Z) :
  h = 48 ∨ h = 94 ∨ h = 95 ->
  ∃ notes,
    Chart.parseNoteSection BeatToNoteRow 192 h
      ["0 = N 0 0"; "96 = N 1 0"]%string = Some notes
    ∧ GetTapNote notes 1 (BeatToNoteRow 96 192)
      = if 95 <=? h then TAP_ORIGINAL_HOPO else TAP_ORIGINAL_GEM.
Proof.
  intros Hh. unfold Chart.parseNoteSection. cbn [Chart.parseLines].
  rewrite parseLine_first_note.
  rewrite (noteRecord_unfold BeatToNoteRow 192 h 0 0 0) by lia.
  set (st1 := Chart.recordPrev _ _ _ _).
  cbn [Chart.parseLines]. rewrite parseLine_second_note.
  destruct (noteRecord_emits BeatToNoteRow 192 h st1 96 1 0)
    as (st2 & -> & Hget & _).
  { repeat split; destruct Hh as [-> | [-> | ->]]; lazy; reflexivity. }
  { lia. }
  eexists. split; [reflexivity|].
  cbn [fmap option_fmap option_map Chart.newNotes]. rewrite Hget.
  replace (96 + 0) with 96 by lia.
  unfold categoryNote, emitted. rewrite Z.ltb_irrefl.
  destruct Hh as [-> | [-> | ->]]; lazy; reflexivity.
Qed.

(** C8, as the code has it.  Parsing the lines [0 = N 0 0] and
    [96 = N 1 0] at resolution 192 with HOPO threshold 48 leaves a plain
    gem (a strum) at tick 96 on track 1: the notes lie 96 ticks apart and
    the scan asks for a distance of at most threshold + 1.  The same lines
    give a strum up to threshold 94 and a HOPO at threshold 95. *)
Theorem two_notes_96_apart (BeatToNoteRow : Z -> Z -> Z) :
  (∃ notes,
     Chart.parseNoteSection BeatToNoteRow 192 48
       ["0 = N 0 0"; "96 = N 1 0"]%string = Some notes
     ∧ GetTapNote notes 1 (BeatToNoteRow 96 192) = TAP_ORIGINAL_GEM
     ∧ isStrum (GetTapNote notes 1 (BeatToNoteRow 96 192)) = true
     ∧ isHOPO (GetTapNote notes 1 (BeatToNoteRow 96 192)) = false)
  ∧ (∃ notes,
       Chart.parseNoteSection BeatToNoteRow 192 94
         ["0 = N 0 0"; "96 = N 1 0"]%string = Some notes
       ∧ GetTapNote notes 1 (BeatToNoteRow 96 192) = TAP_ORIGINAL_GEM)
  ∧ (∃ notes,
       Chart.parseNoteSection BeatToNoteRow 192 95
         ["0 = N 0 0"; "96 = N 1 0"]%string = Some notes
       ∧ GetTapNote notes 1 (BeatToNoteRow 96 192) = TAP_ORIGINAL_HOPO).
Proof.
  split; [|split].
  - destruct (two_note_scenario BeatToNoteRow 48) as (notes & Hrun & Hget);
      [auto|].
    exists notes. split; [exact Hrun|]. rewrite Hget. by repeat split.
  - destruct (two_note_scenario BeatToNoteRow 94) as (notes & Hrun & Hget);
      [auto|].
    exists notes. by split.
  - destruct (two_note_scenario BeatToNoteRow 95) as (notes & Hrun & Hget);
      [auto|].
    exists notes. by split.
Qed.

(** C8, as stated, fails: at threshold 48 the note at tick 96 on track 1
    is not a HOPO. *)
Lemma two_notes_96_apart_not_HOPO :
  ∃ notes,
    Chart.parseNoteSection BeatToNoteRow 192 48
      ["0 = N 0 0"; "96 = N 1 0"]%string = Some notes
    ∧ GetTapNote notes 1 (BeatToNoteRow 96 192) = TAP_ORIGINAL_GEM
    ∧ isHOPO (GetTapNote notes 1 (BeatToNoteRow 96 192)) ≠ true.
Proof.
  eexists. split; [vm_compute; reflexivity|].
  split; [reflexivity|]. vm_compute. discriminate.
Qed.

(** ** System-Exclusive payloads *)

(** C9, where the code departs from it.  The payload below carries the
    header and the open-note type for the easy difficulty, but its last
    two bytes are neither the on trailer (01 F7) nor the off trailer
    (00 F7).  [translateSysex] verifies byte 6 only when byte 7 is F7, so
    it does not answer -1 but 3, and the event loop changes a section
    flag. *)
Theorem sysex_unterminated_payload_accepted (gd : MID.GuitarData) :
  let pData := [0x50; 0x53; 0x00; 0x00; 0x00; 0x01; 0x05; 0x00] in
  MID.headerMatches pData 0 MID.commHeader = Some true
  ∧ (pData !! 6%nat, pData !! 7%nat)
    ≠ (Some MID.onIndicator.1, Some MID.onIndicator.2)
  ∧ (pData !! 6%nat, pData !! 7%nat)
    ≠ (Some MID.offIndicator.1, Some MID.offIndicator.2)
  ∧ MID.translateSysex pData MID.Difficulty_Easy = Some 3
  ∧ MID.sysexEvent pData MID.Difficulty_Easy gd
    = Some (MID.set_bInTapSection true gd).
Proof. repeat split; discriminate. Qed.

(** ** Tokenizing *)

Lemma string_of_list_ascii_nonempty (l : list ascii) :
  l ≠ [] -> string_of_list_ascii l ≠ EmptyString.
Proof. by destruct l. Qed.

Lemma splitWords_words (cur : list ascii) (s : string) (w : string) :
  Forall (fun c => Chart.isspace c = false) cur ->
  w ∈ Chart.splitWords cur s ->
  w ≠ EmptyString
  ∧ Forall (fun c => Chart.isspace c = false) (list_ascii_of_string w).
Proof.
  revert cur. induction s as [|c s IH]; intros cur Hcur Hw.
  - cbn [Chart.splitWords] in Hw. destruct cur as [|c0 cur]; [by apply elem_of_nil in Hw|].
    apply list_elem_of_singleton in Hw as ->. split.
    + apply string_of_list_ascii_nonempty.
      intros H. apply (f_equal (@length _)) in H.
      rewrite length_rev in H. done.
    + rewrite list_ascii_of_string_of_list_ascii.
      apply Forall_forall. intros x Hx. apply list_elem_of_In, in_rev in Hx.
      rewrite Forall_forall in Hcur. by apply Hcur, list_elem_of_In.
  - cbn [Chart.splitWords] in Hw.
    destruct (Chart.isspace c) eqn:Hc.
    + destruct cur as [|c0 cur]; [by apply (IH [])|].
      apply elem_of_cons in Hw as [-> | Hw]; [|by apply (IH [])].
      split.
      * apply string_of_list_ascii_nonempty.
        intros H. apply (f_equal (@length _)) in H.
        rewrite length_rev in H. done.
      * rewrite list_ascii_of_string_of_list_ascii.
        apply Forall_forall. intros x Hx. apply list_elem_of_In, in_rev in Hx.
        rewrite Forall_forall in Hcur. by apply Hcur, list_elem_of_In.
    + apply (IH (c :: cur)); [|done]. by constructor.
Qed.

(** The words of a line are never empty and hold no blank, so the loops'
    [vsWords[0].at(0)] always finds a character. *)
Theorem getLineWords_words (line w : string) :
  w ∈ Chart.getLineWords line ->
  w ≠ EmptyString
  ∧ Forall (fun c => Chart.isspace c = false) (list_ascii_of_string w)
  ∧ ∃ c, Chart.firstChar w = Some c.
Proof.
  intros Hw. destruct (splitWords_words [] _ w (Forall_nil_2 _) Hw) as [Hne Hsp].
  split; [exact Hne|]. split; [exact Hsp|].
  destruct w as [|c w]; [done|]. by exists c.
Qed.

Lemma getLineWords_words_witness :
  "96"%string ≠ EmptyString
  ∧ Forall (fun c => Chart.isspace c = false) (list_ascii_of_string "96")
  ∧ ∃ c, Chart.firstChar "96" = Some c.
Proof.
  apply (getLineWords_words "  96 = N 1 0" "96").
  vm_compute. apply list_elem_of_here.
Defined.

(** [atoi] reads the longest run of digits and ignores what follows. *)
Lemma atoiDigits_prefix (digits rest : string) (acc : Z) :
  Forall (fun c => is_Some (Chart.digitValue c)) (list_ascii_of_string digits) ->
  (rest = EmptyString
   ∨ ∃ c rest', rest = String c rest' ∧ Chart.digitValue c = None) ->
  Chart.atoiDigits acc (String.append digits rest)
  = Chart.atoiDigits acc digits.
Proof.
  revert acc. induction digits as [|d digits IH]; intros acc Hd Hrest.
  - change (String.append EmptyString rest) with rest.
    destruct Hrest as [-> | (c & rest' & -> & Hc)]; [done|].
    cbn [Chart.atoiDigits]. by rewrite Hc.
  - change (String.append (String d digits) rest)
      with (String d (String.append digits rest)).
    cbn [Chart.atoiDigits list_ascii_of_string] in *.
    apply Forall_cons in Hd as [[v Hv] Hd]. rewrite Hv. by apply IH.
Qed.

Lemma digitValue_range (c : ascii) (v : Z) :
  Chart.digitValue c = Some v -> 0 <= v <= 9.
Proof.
  unfold Chart.digitValue.
  destruct (Nat.leb_spec 48 (nat_of_ascii c)); [|done].
  destruct (Nat.leb_spec (nat_of_ascii c) 57); [|done].
  cbn [andb]. intros [= <-]. lia.
Qed.

Lemma digit_is_plain (c : ascii) :
  is_Some (Chart.digitValue c) ->
  Chart.isspace c = false ∧ c ≠ "-"%char ∧ c ≠ "+"%char.
Proof.
  intros [v Hv]. unfold Chart.digitValue in Hv. unfold Chart.isspace.
  destruct (Nat.leb_spec 48 (nat_of_ascii c)) as [Hlo|]; [|done].
  destruct (Nat.leb_spec (nat_of_ascii c) 57) as [Hhi|]; [|done].
  split; [|split].
  - destruct (Nat.eqb_spec (nat_of_ascii c) 32); [lia|].
    destruct (Nat.leb_spec (nat_of_ascii c) 13); [lia|].
    by rewrite andb_false_r.
  - intros ->. vm_compute in Hlo. lia.
  - intros ->. vm_compute in Hlo. lia.
Qed.

Lemma atoiDigits_nonneg (s : string) (acc : Z) :
  0 <= acc -> 0 <= Chart.atoiDigits acc s.
Proof.
  revert acc. induction s as [|c s IH]; intros acc Hacc;
    cbn [Chart.atoiDigits]; [done|].
  destruct (Chart.digitValue c) as [v|] eqn:Hv; [|done].
  apply IH. pose proof (digitValue_range c v Hv). lia.
Qed.

(** [atoi] on a word that opens with a digit reads the digits up to the
    first other character and ignores the rest; the value is never
    negative, and a leading minus sign negates it. *)
Theorem atoi_digit_prefix (d : ascii) (digits rest : string) :
  is_Some (Chart.digitValue d) ->
  Forall (fun c => is_Some (Chart.digitValue c))
    (list_ascii_of_string digits) ->
  (rest = EmptyString
   ∨ ∃ c rest', rest = String c rest' ∧ Chart.digitValue c = None) ->
  Chart.atoi (String d (String.append digits rest))
  = Chart.atoi (String d digits)
  ∧ 0 <= Chart.atoi (String d digits)
  ∧ Chart.atoi (String "-" (String d (String.append digits rest)))
    = - Chart.atoi (String d digits).
Proof.
  intros Hd Hdigits Hrest.
  destruct (digit_is_plain d Hd) as (Hsp & Hminus & Hplus).
  assert (Hplain : ∀ s, Chart.atoi (String d s)
                        = Chart.atoiDigits 0 (String d s)).
  { intros s. unfold Chart.atoi. cbn [Chart.skipSpaces]. rewrite Hsp.
    destruct d as [[] [] [] [] [] [] [] []]; try reflexivity;
      by (exfalso; (apply Hminus || apply Hplus)). }
  assert (Hpre : Chart.atoiDigits 0 (String d (String.append digits rest))
                 = Chart.atoiDigits 0 (String d digits)).
  { change (String d (String.append digits rest))
      with (String.append (String d digits) rest).
    apply atoiDigits_prefix; [|done].
    cbn [list_ascii_of_string]. by constructor. }
  rewrite !Hplain, Hpre. split; [done|].
  split; [by apply atoiDigits_nonneg|].
  change (Chart.atoi (String "-" (String d (String.append digits rest))))
    with (- Chart.atoiDigits 0 (String d (String.append digits rest))).
  by rewrite Hpre.
Qed.

Lemma atoi_digit_prefix_witness :
  Chart.atoi "96x7" = Chart.atoi "96"
  ∧ 0 <= Chart.atoi "96"
  ∧ Chart.atoi "-96x7" = - Chart.atoi "96".
Proof.
  apply (atoi_digit_prefix "9" "6" "x7").
  - by eexists.
  - repeat constructor. by eexists.
  - right. by exists "x"%char, "7"%string.
Defined.

(** ** Decoding System-Exclusive payloads *)

(** [translateSysex] answers -1 as soon as one of the first four bytes
    differs from the header, reading nothing beyond that byte: the payload
    may even stop there. *)
Theorem translateSysex_header_mismatch (pData : list Z)
  (diff : MID.Difficulty) (i : nat) (c h : Z) :
  MID.commHeader !! i = Some h -> pData !! i = Some c -> c ≠ h ->
  (∀ j, (j < i)%nat -> pData !! j = MID.commHeader !! j) ->
  MID.translateSysex pData diff = Some (-1).
Proof.
  intros Hh Hc Hne Hpre.
  assert (Hhead : MID.headerMatches pData 0 MID.commHeader = Some false).
  { assert (Hi : (i < 4)%nat).
    { apply lookup_lt_Some in Hh. exact Hh. }
    unfold MID.commHeader in *. cbn [MID.headerMatches].
    destruct i as [|[|[|[|i]]]]; [| | | |lia].
    - rewrite Hc. cbn [mbind option_bind]. injection Hh as <-.
      by destruct (Z.eqb_spec c 0x50).
    - rewrite (Hpre 0%nat) by lia. cbn [mbind option_bind lookup list_lookup].
      cbn [Z.eqb Pos.eqb]. rewrite Hc. cbn [mbind option_bind].
      injection Hh as <-. by destruct (Z.eqb_spec c 0x53).
    - rewrite (Hpre 0%nat), (Hpre 1%nat) by lia.
      cbn [mbind option_bind lookup list_lookup Z.eqb Pos.eqb].
      rewrite Hc. cbn [mbind option_bind].
      injection Hh as <-. by destruct (Z.eqb_spec c 0).
    - rewrite (Hpre 0%nat), (Hpre 1%nat), (Hpre 2%nat) by lia.
      cbn [mbind option_bind lookup list_lookup Z.eqb Pos.eqb].
      rewrite Hc. cbn [mbind option_bind].
      injection Hh as <-. by destruct (Z.eqb_spec c 0). }
  unfold MID.translateSysex. by rewrite Hhead.
Qed.

Lemma translateSysex_header_mismatch_witness :
  MID.translateSysex [0x50; 0x54] MID.Difficulty_Hard = Some (-1).
Proof.
  apply (translateSysex_header_mismatch [0x50; 0x54] MID.Difficulty_Hard
           1 0x54 0x53); [reflexivity | reflexivity | lia |].
  intros j Hj. assert (j = 0%nat) as -> by lia. reflexivity.
Defined.

Lemma translateSysex_layout (typeBytes trailer : Z * Z) (tail : list Z)
  (diff : MID.Difficulty) :
  MID.translateSysex (sysexBytes typeBytes trailer tail) diff
  = let kind :=
      if (typeBytes.1 =? MID.tapIndicator.1)
         && (typeBytes.2 =? MID.tapIndicator.2) then Some 1
      else if (typeBytes.2 =? MID.openIndicator)
              && bool_decide (difficultyIndicator diff = Some typeBytes.1)
      then Some 3
      else None in
    match kind with
    | None => Some (-1)
    | Some ret =>
        if trailer.2 =? MID.onIndicator.2 then
          if trailer.1 =? MID.offIndicator.1 then Some (ret + 1)
          else if trailer.1 =? MID.onIndicator.1 then Some ret
          else Some (-1)
        else Some ret
    end.
Proof.
  destruct typeBytes as [p4 p5], trailer as [p6 p7].
  unfold sysexBytes, MID.translateSysex. cbn [fst snd].
  change (MID.headerMatches _ 0 MID.commHeader) with (Some true).
  cbn [mbind option_bind negb lookup list_lookup app MID.commHeader].
  cbv zeta.
  destruct ((p4 =? MID.tapIndicator.1) && (p5 =? MID.tapIndicator.2)).
  { destruct (p7 =? _); [|done]. cbn [mbind option_bind].
    destruct (p6 =? MID.offIndicator.1); [done|].
    by destruct (p6 =? MID.onIndicator.1). }
  assert (Hopen :
    ((p4 =? MID.easyIndicator) && bool_decide (diff = MID.Difficulty_Easy))
    || ((p4 =? MID.medIndicator) && bool_decide (diff = MID.Difficulty_Medium))
    || ((p4 =? MID.hardIndicator) && bool_decide (diff = MID.Difficulty_Hard))
    || ((p4 =? MID.expIndicator)
        && bool_decide (diff = MID.Difficulty_Challenge))
    = bool_decide (difficultyIndicator diff = Some p4)).
  { unfold MID.easyIndicator, MID.medIndicator, MID.hardIndicator,
      MID.expIndicator.
    destruct (Z.eqb_spec p4 0), (Z.eqb_spec p4 1), (Z.eqb_spec p4 2),
      (Z.eqb_spec p4 3); try lia;
      destruct diff; cbn [difficultyIndicator andb orb];
      unfold MID.easyIndicator, MID.medIndicator, MID.hardIndicator,
        MID.expIndicator;
      repeat case_bool_decide; simplify_eq; done. }
  rewrite Hopen.
  destruct ((p5 =? MID.openIndicator) && _); [|done].
  destruct (p7 =? _); [|done]. cbn [mbind option_bind].
  destruct (p6 =? MID.offIndicator.1); [done|].
  by destruct (p6 =? MID.onIndicator.1).
Qed.

Lemma payloadOf_unsigned (bytes : list Z) : payloadOf false bytes = bytes.
Proof.
  unfold payloadOf. induction bytes as [|b bytes IH]; [done|].
  cbn [fmap list_fmap]. by f_equal.
Qed.

Lemma payloadOf_sysexBytes (signed : bool) (typeBytes trailer : Z * Z)
  (tail : list Z) :
  payloadOf signed (sysexBytes typeBytes trailer tail)
  = sysexBytes (promoteChar signed typeBytes.1, promoteChar signed typeBytes.2)
      (promoteChar signed trailer.1, promoteChar signed trailer.2)
      (payloadOf signed tail).
Proof. by destruct signed. Qed.

(** The payloads the comment of [translateSysex] lists, given by their
    bytes, decode differently with the signedness of [char].  Where [char]
    is unsigned: the tap indicator gives 1 with the on trailer and 2 with
    the off trailer at every difficulty; the open indicator under the byte
    of a difficulty gives 3 and 4 for that difficulty, and -1 for any
    difficulty whose byte differs.  Where [char] is signed the bytes 0xFF
    and 0xF7 are promoted to -1 and -9 and match nothing: the two tap
    payloads give -1, and the open payloads give 3 with the on trailer and
    with the off trailer alike. *)
Theorem translateSysex_recognized (diff : MID.Difficulty) (tail : list Z) :
  let decode signed typeBytes trailer :=
    MID.translateSysex
      (payloadOf signed (sysexBytes typeBytes trailer tail)) diff in
  (decode false MID.tapIndicator MID.onIndicator = Some 1
   ∧ decode false MID.tapIndicator MID.offIndicator = Some 2
   ∧ ∀ b,
       (difficultyIndicator diff = Some b ->
        decode false (b, MID.openIndicator) MID.onIndicator = Some 3
        ∧ decode false (b, MID.openIndicator) MID.offIndicator = Some 4)
       ∧ (difficultyIndicator diff ≠ Some b -> b ≠ MID.tapIndicator.1 ->
          ∀ trailer,
            decode false (b, MID.openIndicator) trailer = Some (-1)))
  ∧ (decode true MID.tapIndicator MID.onIndicator = Some (-1)
     ∧ decode true MID.tapIndicator MID.offIndicator = Some (-1)
     ∧ ∀ b,
         difficultyIndicator diff = Some b ->
         decode true (b, MID.openIndicator) MID.onIndicator = Some 3
         ∧ decode true (b, MID.openIndicator) MID.offIndicator = Some 3).
Proof.
  intros decode. subst decode. cbv beta. split.
  - rewrite !payloadOf_unsigned.
    split; [by rewrite translateSysex_layout|].
    split; [by rewrite translateSysex_layout|].
    intros b. split.
    + intros Hb. rewrite !payloadOf_unsigned, !translateSysex_layout.
      cbn [fst snd]. cbv zeta.
      rewrite (bool_decide_eq_true_2 _ Hb).
      assert ((b =? MID.tapIndicator.1)
              && (MID.openIndicator =? MID.tapIndicator.2)
              = false) as -> by by rewrite andb_false_r.
      done.
    + intros Hb Htap trailer.
      rewrite payloadOf_unsigned, translateSysex_layout. cbn [fst snd].
      cbv zeta. rewrite (bool_decide_eq_false_2 _ Hb).
      by rewrite !andb_false_r.
  - rewrite !payloadOf_sysexBytes.
    split; [by rewrite translateSysex_layout|].
    split; [by rewrite translateSysex_layout|].
    intros b Hb. rewrite !payloadOf_sysexBytes, !translateSysex_layout.
    assert (Hsmall : promoteChar true b = b).
    { destruct diff; cbn in Hb; try done; by injection Hb as <-. }
    cbn [fst snd]. rewrite Hsmall.
    change (promoteChar true MID.openIndicator) with MID.openIndicator.
    cbv zeta. rewrite (bool_decide_eq_true_2 _ Hb).
    assert ((b =? MID.tapIndicator.1)
            && (MID.openIndicator =? MID.tapIndicator.2)
            = false) as -> by by rewrite andb_false_r.
    done.
Qed.

Lemma translateSysex_recognized_witness :
  MID.translateSysex
    (payloadOf false [0x50; 0x53; 0; 0; 2; 1; 1; 0xF7]) MID.Difficulty_Hard
  = Some 3
  ∧ MID.translateSysex
      (payloadOf false [0x50; 0x53; 0; 0; 2; 1; 0; 0xF7]) MID.Difficulty_Hard
    = Some 4
  ∧ MID.translateSysex
      (payloadOf false [0x50; 0x53; 0; 0; 2; 1; 1; 0xF7]) MID.Difficulty_Easy
    = Some (-1)
  ∧ MID.translateSysex
      (payloadOf true [0x50; 0x53; 0; 0; 2; 1; 0; 0xF7]) MID.Difficulty_Hard
    = Some 3
  ∧ MID.translateSysex
      (payloadOf true [0x50; 0x53; 0; 0; 0xFF; 4; 1; 0xF7]) MID.Difficulty_Hard
    = Some (-1).
Proof.
  destruct (translateSysex_recognized MID.Difficulty_Hard [])
    as [(_ & _ & H) (Htap & _ & Hs)].
  destruct (H 2) as [Hown _]. destruct (Hown eq_refl) as [Hon Hoff].
  destruct (translateSysex_recognized MID.Difficulty_Easy [])
    as [(_ & _ & H') _].
  destruct (H' 2) as [_ Hother].
  destruct (Hs 2 eq_refl) as [_ Hsoff].
  split; [exact Hon|]. split; [exact Hoff|].
  split;
    [apply (Hother ltac:(discriminate) ltac:(discriminate) MID.onIndicator)|].
  split; [exact Hsoff | exact Htap].
Defined.

(** A payload with the header whose type bytes are neither the tap
    indicator nor the open indicator under this difficulty's byte decodes
    to -1 whatever its trailer, and the event loop then leaves the guitar
    data as it was. *)
Theorem translateSysex_unknown_type (typeBytes trailer : Z * Z)
  (tail : list Z) (diff : MID.Difficulty) (gd : MID.GuitarData) :
  typeBytes ≠ MID.tapIndicator ->
  ¬ (typeBytes.2 = MID.openIndicator
     ∧ difficultyIndicator diff = Some typeBytes.1) ->
  MID.translateSysex (sysexBytes typeBytes trailer tail) diff = Some (-1)
  ∧ MID.sysexEvent (sysexBytes typeBytes trailer tail) diff gd = Some gd.
Proof.
  intros Htap Hopen.
  assert (Hdec : MID.translateSysex (sysexBytes typeBytes trailer tail) diff
                 = Some (-1)).
  { rewrite translateSysex_layout. cbv zeta.
    assert ((typeBytes.1 =? MID.tapIndicator.1)
            && (typeBytes.2 =? MID.tapIndicator.2) = false) as ->.
    { apply not_true_is_false. intros H.
      apply andb_true_iff in H as [H1 H2].
      apply Z.eqb_eq in H1, H2. apply Htap. destruct typeBytes.
      cbn [fst snd] in *. by subst. }
    assert ((typeBytes.2 =? MID.openIndicator)
            && bool_decide (difficultyIndicator diff = Some typeBytes.1)
            = false) as ->; [|done].
    apply not_true_is_false. intros H.
    apply andb_true_iff in H as [H1 H2].
    apply Z.eqb_eq in H1. apply bool_decide_eq_true in H2. by apply Hopen. }
  split; [exact Hdec|]. unfold MID.sysexEvent. by rewrite Hdec.
Qed.

Lemma translateSysex_unknown_type_witness :
  MID.translateSysex [0x50; 0x53; 0; 0; 7; 7; 1; 0xF7] MID.Difficulty_Easy
  = Some (-1).
Proof.
  apply (translateSysex_unknown_type (7, 7) (1, 0xF7) [] MID.Difficulty_Easy
           (MID.getNewGuitarData 480 170 MID.GH_HOPO_Rules MID.FIVE_FRETS)).
  - discriminate.
  - intros [H _]. discriminate H.
Defined.

(** The event loop acts on the decoded value as the code has it: 3 and 4
    set and clear the tap-section flag, 1 and 2 set and clear the
    open-section flag, -1 changes nothing; no other field of the guitar
    data is touched, and no other value is ever decoded. *)
Theorem sysexEvent_flags (pData : list Z) (diff : MID.Difficulty)
  (gd : MID.GuitarData) (r : Z) :
  MID.translateSysex pData diff = Some r ->
  (r = -1 ∨ r = 1 ∨ r = 2 ∨ r = 3 ∨ r = 4)
  ∧ MID.sysexEvent pData diff gd
    = Some (if decide (r = 3 ∨ r = 4)
            then MID.set_bInTapSection (bool_decide (r = 3)) gd
            else if decide (r = 1 ∨ r = 2)
            then MID.set_bInOpenSection (bool_decide (r = 1)) gd
            else gd).
Proof.
  intros Hdec.
  assert (Hrange : r = -1 ∨ r = 1 ∨ r = 2 ∨ r = 3 ∨ r = 4).
  { unfold MID.translateSysex in Hdec.
    destruct (MID.headerMatches pData 0 MID.commHeader) as [[]|];
      cbn [mbind option_bind negb] in Hdec; [|naive_solver|done].
    destruct (pData !! 4%nat) as [p4|]; [|done].
    destruct (pData !! 5%nat) as [p5|]; [|done].
    cbn [mbind option_bind] in Hdec.
    assert (Htrailer : ∀ ret, ret = 1 ∨ ret = 3 ->
      (p7 ← pData !! 7%nat;
       if p7 =? MID.onIndicator.2
       then p6 ← pData !! 6%nat;
            if p6 =? MID.offIndicator.1 then Some (ret + 1)
            else if negb (p6 =? MID.onIndicator.1) then Some (-1)
            else Some ret
       else Some ret) = Some r ->
      r = -1 ∨ r = 1 ∨ r = 2 ∨ r = 3 ∨ r = 4).
    { intros ret Hret H.
      destruct (pData !! 7%nat) as [p7|]; [|done].
      cbn [mbind option_bind] in H.
      destruct (p7 =? _);
        [|injection H as <-; destruct Hret as [-> | ->]; auto].
      destruct (pData !! 6%nat) as [p6|]; [|done].
      cbn [mbind option_bind] in H.
      destruct (p6 =? MID.offIndicator.1);
        [injection H as <-; destruct Hret as [-> | ->]; auto|].
      destruct (negb _); injection H as <-; [auto|].
      destruct Hret as [-> | ->]; auto. }
    destruct (_ && _); [by apply (Htrailer 1); auto|].
    destruct (_ && _); [by apply (Htrailer 3); auto|].
    injection Hdec as <-. auto. }
  split; [exact Hrange|]. unfold MID.sysexEvent. rewrite Hdec.
  cbn [mbind option_bind].
  destruct Hrange as [-> | [-> | [-> | [-> | ->]]]]; reflexivity.
Qed.

Lemma sysexEvent_flags_witness :
  let gd := MID.getNewGuitarData 480 170 MID.GH_HOPO_Rules MID.FIVE_FRETS in
  MID.sysexEvent [0x50; 0x53; 0; 0; 0xFF; 4; 1; 0xF7] MID.Difficulty_Easy gd
  = Some (MID.set_bInOpenSection true gd).
Proof.
  intros gd.
  destruct (sysexEvent_flags [0x50; 0x53; 0; 0; 0xFF; 4; 1; 0xF7]
              MID.Difficulty_Easy gd 1 eq_refl) as [_ H].
  exact H.
Defined.

Lemma forced_strum_marker_makes_strums_witness :
  let notes : NoteData :=
    {[ (1, 0) := TAP_ORIGINAL_HOPO;
       (3, 0) := mkTapNote TapNoteType_HoldHead 24 ]} in
  let gd := MID.getNewGuitarData 480 170 MID.GH_HOPO_Rules MID.FIVE_FRETS in
  ∃ notes',
    MID.addGHRBNote BeatToNoteRow notes 6 0 100 gd
    = Some (notes', MID.set_iLastForcedStrum 0 gd)
    ∧ GetTapNote notes' 1 0 = TAP_ORIGINAL_GEM
    ∧ GetTapNote notes' 3 0 = mkTapNote TapNoteType_GemHold 24
    ∧ GetTapNote notes' 2 0 = TAP_EMPTY.
Proof.
  intros notes gd.
  destruct (forced_strum_marker_makes_strums BeatToNoteRow
              notes 6 0 100 gd) as (notes' & Hrun & Hrow & _).
  - left. split; reflexivity.
  - exists notes'. split; [exact Hrun|].
    split; [apply (Hrow 1); split; [lia | reflexivity]|].
    split; [apply (Hrow 3); split; [lia | reflexivity]|].
    apply (Hrow 2). split; [lia | reflexivity].
Defined.

(** ** Section tags of a text chart *)

Lemma substring_prefix (s post : string) :
  substring 0 (String.length s) (String.append s post) = s.
Proof.
  induction s as [|c s IH].
  - change (String.append EmptyString post) with post. by destruct post.
  - change (String.append (String c s) post)
      with (String c (String.append s post)).
    cbn [String.length substring]. by rewrite IH.
Qed.

Lemma substring_middle (pre s post : string) :
  substring (String.length pre) (String.length s)
    (String.append pre (String.append s post)) = s.
Proof.
  induction pre as [|c pre IH].
  - change (String.append EmptyString (String.append s post))
      with (String.append s post).
    apply substring_prefix.
  - change (String.append (String c pre) (String.append s post))
      with (String c (String.append pre (String.append s post))).
    cbn [String.length substring]. exact IH.
Qed.

Lemma found_app (name pre post : string) :
  name ≠ EmptyString ->
  Chart.found name (String.append pre (String.append name post)) = true.
Proof.
  intros Hne. unfold Chart.found.
  destruct (String.index 0 name _) eqn:Hidx; [done|].
  exfalso.
  apply (index_correct3 0 (String.length pre) _ _ Hidx Hne); [lia|].
  apply substring_middle.
Qed.

(** The name [difficultyToString] gives a difficulty is parsed back to it
    by [parseDifficulty] for the four difficulties that have a name, and
    to the invalid difficulty for the others, whose name is Unknown; and a
    tag in which Expert occurs is parsed as the challenge difficulty
    whatever stands before and after it. *)
Theorem parseDifficulty_round_trip :
  (∀ diff,
     Chart.parseDifficulty (Chart.difficultyToString diff)
     = match diff with
       | Chart.Difficulty_Easy | Chart.Difficulty_Medium
       | Chart.Difficulty_Hard | Chart.Difficulty_Challenge => diff
       | _ => Chart.Difficulty_Invalid
       end)
  ∧ (∀ pre post,
       Chart.parseDifficulty
         (String.append pre (String.append "Expert" post))
       = Chart.Difficulty_Challenge).
Proof.
  split.
  - intros []; reflexivity.
  - intros pre post. unfold Chart.parseDifficulty.
    by rewrite found_app.
Qed.

(** ** HOPO thresholds from the song configuration *)

(** In the header of a text chart, when song.ini gives a HOPO frequency:
    the frequencies 1 and 3 leave the threshold 0 at every resolution,
    with or without the eighth-note flag, their factors 3/8 and 3/16
    being quotients of ints; and at a non-negative resolution every
    frequency leaves a threshold between 0 and half the resolution. *)
Theorem header_hopo_threshold (resolution iHopoResolution : Z)
  (hopoRes : Z) (eighth : option bool) :
  let ini := Some (Config.mkSongIni (Some hopoRes) eighth) in
  let threshold :=
    Chart.parseHeaderHopoResolution resolution iHopoResolution ini in
  ((hopoRes = 1 ∨ hopoRes = 3) -> threshold = 0)
  ∧ (0 <= resolution -> 0 <= threshold <= resolution ÷ 2).
Proof.
  intros ini threshold. subst threshold ini.
  unfold Chart.parseHeaderHopoResolution.
  cbn [Config.hopofreq Config.eighthnote_hopo].
  change (3 ÷ 8) with 0. change (3 ÷ 16) with 0. rewrite Z.mul_0_r.
  split.
  - intros [-> | ->]; cbn [Z.eqb Pos.eqb]; by destruct eighth as [[]|].
  - intros Hres.
    assert (H2 : 0 <= resolution ÷ 2) by (apply Z.quot_pos; lia).
    assert (H4 : 0 <= resolution ÷ 4 <= resolution ÷ 2).
    { split; [apply Z.quot_pos; lia|]. apply Z.quot_le_compat_l; lia. }
    assert (H8 : 0 <= resolution ÷ 8 <= resolution ÷ 2).
    { split; [apply Z.quot_pos; lia|]. apply Z.quot_le_compat_l; lia. }
    assert (Hhalf : ∀ x, 0 <= x <= resolution ÷ 2 ->
                         0 <= x ÷ 2 <= resolution ÷ 2).
    { intros x Hx. split; [apply Z.quot_pos; lia|].
      transitivity x; [|lia]. apply Z.quot_le_upper_bound; lia. }
    assert (Hfreq :
      0 <= (if hopoRes =? 0 then resolution ÷ 2
            else if hopoRes =? 1 then 0
            else if hopoRes =? 3 then 0
            else if hopoRes =? 4 then resolution ÷ 8
            else resolution ÷ 4) <= resolution ÷ 2)
      by (repeat case_match; lia).
    destruct eighth as [[]|]; [by apply Hhalf | done..].
Qed.

(** In the MIDI loader, when song.ini gives a HOPO frequency between 0
    and 5 at a non-negative resolution, the threshold grows with the
    frequency, with or without the eighth-note flag, and is never
    negative. *)
Theorem parseINI_ladder (resolution hopoResolution : Z)
  (eighth : option bool) (j k : Z) :
  let threshold hopoRes :=
    MID.parseINI resolution hopoResolution
      (Some (Config.mkSongIni (Some hopoRes) eighth)) in
  0 <= resolution -> 0 <= j <= k -> k <= 5 ->
  0 <= threshold j <= threshold k.
Proof.
  intros threshold Hres Hjk Hk. subst threshold. cbv beta.
  unfold MID.parseINI. cbn [Config.hopofreq Config.eighthnote_hopo].
  assert (H6 : 0 <= resolution ÷ 6) by (apply Z.quot_pos; lia).
  assert (H64 : resolution ÷ 6 <= resolution ÷ 4)
    by (apply Z.quot_le_compat_l; lia).
  assert (H43 : resolution ÷ 4 <= resolution ÷ 3)
    by (apply Z.quot_le_compat_l; lia).
  assert (H32 : resolution ÷ 3 <= resolution ÷ 2)
    by (apply Z.quot_le_compat_l; lia).
  assert (H2 : resolution ÷ 2 + 10 <= (2 * resolution + 30) ÷ 3).
  { apply Z.quot_le_lower_bound; [lia|].
    pose proof (Z.quot_rem' resolution 2).
    pose proof (Z.rem_bound_pos resolution 2). lia. }
  assert (H5 : (2 * resolution + 30) ÷ 3 <= resolution + 10).
  { apply Z.quot_le_upper_bound; lia. }
  set (t := fun hopoRes : Z =>
    if hopoRes =? 0 then resolution ÷ 6 + 10
    else if hopoRes =? 1 then resolution ÷ 4 + 10
    else if hopoRes =? 3 then resolution ÷ 2 + 10
    else if hopoRes =? 4 then (2 * resolution + 30) ÷ 3
    else if hopoRes =? 5 then resolution + 10
    else resolution ÷ 3 + 10).
  assert (Ht : 0 <= t j <= t k).
  { assert (j = 0 ∨ j = 1 ∨ j = 2 ∨ j = 3 ∨ j = 4 ∨ j = 5) as Hj by lia.
    assert (k = 0 ∨ k = 1 ∨ k = 2 ∨ k = 3 ∨ k = 4 ∨ k = 5) as Hk' by lia.
    destruct Hj as [-> | [-> | [-> | [-> | [-> | ->]]]]];
      destruct Hk' as [-> | [-> | [-> | [-> | [-> | ->]]]]];
      subst t; cbn [Z.eqb Pos.eqb]; lia. }
  fold (t j) (t k).
  destruct eighth as [[]|]; [|done..].
  split; [apply Z.quot_pos; lia|]. apply Z.quot_le_mono; lia.
Qed.

Lemma parseINI_ladder_witness :
  0 <= MID.parseINI 480 170 (Some (Config.mkSongIni (Some 1) None))
    <= MID.parseINI 480 170 (Some (Config.mkSongIni (Some 4) None)).
Proof. apply (parseINI_ladder 480 170 None 1 4); lia. Defined.

(** ** Track names *)

Lemma compareFrom_spec (pre name junk str : list ascii) :
  Ascii.zero ∉ name -> Ascii.zero ∉ str ->
  MID.compareFrom (pre ++ name ++ Ascii.zero :: junk) (length pre) str
  = Some (bool_decide (name = str)).
Proof.
  revert pre name. induction str as [|s str IH]; intros pre name Hname Hstr;
    cbn [MID.compareFrom].
  - destruct name as [|c name].
    + cbn [app]. rewrite list_lookup_middle by done. done.
    + rewrite lookup_app_r by lia. rewrite Nat.sub_diag. cbn.
      rewrite bool_decide_eq_false_2; [by rewrite bool_decide_eq_false_2|].
      intros ->. apply Hname. apply list_elem_of_here.
  - apply not_elem_of_cons in Hstr as [Hs Hstr].
    destruct name as [|c name].
    + cbn [app]. rewrite list_lookup_middle by done. cbn.
      rewrite bool_decide_eq_false_2 by congruence.
      by rewrite bool_decide_eq_false_2.
    + apply not_elem_of_cons in Hname as [Hc Hname].
      rewrite lookup_app_r by lia. rewrite Nat.sub_diag. cbn.
      case_bool_decide as Hcs.
      * subst c.
        replace (pre ++ s :: name ++ Ascii.zero :: junk)
          with ((pre ++ [s]) ++ name ++ Ascii.zero :: junk)
          by (by rewrite <- app_assoc).
        replace (S (length pre)) with (length (pre ++ [s]))
          by (rewrite length_app; cbn; lia).
        rewrite IH by done.
        f_equal. apply bool_decide_ext.
        split; [by intros -> | by intros [= ->]].
      * by rewrite bool_decide_eq_false_2 by congruence.
Qed.

(** On a buffer that holds a name, its terminator and anything after it,
    [compareToString] answers whether the name is the string, for every
    string without a NUL character; it reads no byte past the terminator,
    so the answer does not depend on what follows and the read stays
    inside the buffer. *)
Theorem compareToString_equal (name junk str : list ascii) :
  Ascii.zero ∉ name -> Ascii.zero ∉ str ->
  MID.compareToString (name ++ Ascii.zero :: junk) str
  = Some (bool_decide (name = str)).
Proof. apply (compareFrom_spec [] name junk str). Qed.

Lemma compareToString_equal_witness :
  MID.compareToString
    (list_ascii_of_string "BEAT" ++ Ascii.zero :: list_ascii_of_string "xy")
    (list_ascii_of_string "BEATS")
  = Some false.
Proof.
  apply (compareToString_equal (list_ascii_of_string "BEAT")
           (list_ascii_of_string "xy") (list_ascii_of_string "BEATS"));
    cbn; rewrite ?not_elem_of_cons; repeat split; try discriminate;
    apply not_elem_of_nil.
Defined.

(** ** Pitch bands *)

(** For each of the four named difficulties the pitch band has exactly as
    many pitches as the file has lanes, seven on five frets and nine on
    six, and the bands of two different named difficulties are disjoint;
    for any other difficulty the two bounds are left as they were. *)
Theorem difficulty_bands (diff : MID.Difficulty) (fretType : MID.ChartFrets)
  (lower upper : Z) :
  let band d := MID.getNoteRangeForDifficulty d fretType lower upper in
  (namedDifficulty diff ->
   (band diff).2 - (band diff).1 + 1
   = (if decide (fretType = MID.FIVE_FRETS) then 7 else 9)
   ∧ ∀ diff', namedDifficulty diff' -> diff' ≠ diff ->
       (band diff).2 < (band diff').1 ∨ (band diff').2 < (band diff).1)
  ∧ (¬ namedDifficulty diff -> band diff = (lower, upper)).
Proof.
  intros band. subst band. cbv beta. split.
  - intros Hnamed. split.
    + destruct Hnamed as [-> | [-> | [-> | ->]]], fretType; reflexivity.
    + intros diff' Hnamed' Hne.
      destruct Hnamed as [-> | [-> | [-> | ->]]],
        Hnamed' as [-> | [-> | [-> | ->]]], fretType;
        try done; vm_compute; auto.
  - intros Hother. unfold namedDifficulty in Hother.
    destruct diff; try done; exfalso; apply Hother; auto.
Qed.

Lemma difficulty_bands_witness :
  (MID.getNoteRangeForDifficulty MID.Difficulty_Hard MID.SIX_FRETS 0 0).2
  - (MID.getNoteRangeForDifficulty MID.Difficulty_Hard MID.SIX_FRETS 0 0).1
  + 1 = 9
  ∧ ((MID.getNoteRangeForDifficulty MID.Difficulty_Hard MID.SIX_FRETS 0 0).2
     < (MID.getNoteRangeForDifficulty MID.Difficulty_Challenge
          MID.SIX_FRETS 0 0).1
     ∨ (MID.getNoteRangeForDifficulty MID.Difficulty_Challenge
          MID.SIX_FRETS 0 0).2
       < (MID.getNoteRangeForDifficulty MID.Difficulty_Hard
            MID.SIX_FRETS 0 0).1).
Proof.
  destruct (difficulty_bands MID.Difficulty_Hard MID.SIX_FRETS 0 0)
    as [Hnamed _].
  destruct Hnamed as [Hwidth Hapart].
  - right. right. left. reflexivity.
  - split; [exact Hwidth|].
    apply (Hapart MID.Difficulty_Challenge).
    + right. right. right. reflexivity.
    + discriminate.
Defined.

Lemma header_hopo_threshold_witness :
  Chart.parseHeaderHopoResolution 480 120
    (Some (Config.mkSongIni (Some 1) None)) = 0
  ∧ 0 <= Chart.parseHeaderHopoResolution 480 120
           (Some (Config.mkSongIni (Some 4) (Some true))) <= 480 ÷ 2.
Proof.
  split.
  - destruct (header_hopo_threshold 480 120 1 None) as [Hzero _].
    apply Hzero. left. reflexivity.
  - destruct (header_hopo_threshold 480 120 4 (Some true)) as [_ Hbound].
    apply Hbound. lia.
Defined.

(** ** Concrete runs of the text engine *)

Lemma text_note_strum_cases_witness :
  ∃ st',
    Chart.noteRecord BeatToNoteRow 192 48 0 0 0 Chart.initialState = Some st'
    ∧ bget (Chart.bPrevNoteHOPO st') 0 = false
    ∧ isHOPO (GetTapNote (Chart.newNotes st') 0 (BeatToNoteRow 0 192))
      = false
    ∧ isStrum (GetTapNote (Chart.newNotes st') 0 (BeatToNoteRow 0 192))
      = true.
Proof.
  apply (text_note_strum_cases BeatToNoteRow 192 48 Chart.initialState 0 0 0).
  - repeat split; reflexivity.
  - lia.
  - reflexivity.
  - reflexivity.
  - right. left. intros k Hk.
    assert (k = 0 ∨ k = 1 ∨ k = 2 ∨ k = 3 ∨ k = 4)
      as [-> | [-> | [-> | [-> | ->]]]] by lia; reflexivity.
Defined.


Lemma parseLines_invariant_witness :
  match Chart.parseLines BeatToNoteRow 192 48
          ["0 = N 0 0"; "96 = N 1 48"; "}"]%string Chart.initialState with
  | Some st' => chartInvariant st'
  | None => False
  end.
Proof.
  destruct (Chart.parseLines BeatToNoteRow 192 48
              ["0 = N 0 0"; "96 = N 1 48"; "}"]%string Chart.initialState)
    as [st'|] eqn:Hrun.
  - exact (parseLines_invariant BeatToNoteRow 192 48 _ st' Hrun).
  - vm_compute in Hrun. discriminate Hrun.
Defined.

Lemma parseLines_stops_at_terminator_witness :
  Chart.parseLines BeatToNoteRow 192 48
    (["0 = N 0 0"%string] ++ "}"%string :: ["96 = N 1 48"%string])
    Chart.initialState
  = Chart.parseLines BeatToNoteRow 192 48 ["0 = N 0 0"]%string
      Chart.initialState.
Proof.
  apply (parseLines_stops_at_terminator BeatToNoteRow 192 48).
  right. exists "}"%string, []. split; reflexivity.
Defined.

Lemma parseNoteSection_in_bounds_witness :
  ∃ notes,
    Chart.parseNoteSection BeatToNoteRow 192 48
      ["{"; "0 = N 0 0"; "96 = N 1 48"; "96 = E *"; "}"]%string = Some notes
    ∧ tracksWithin notes 5.
Proof.
  apply (parseNoteSection_in_bounds BeatToNoteRow 192 48).
  repeat apply Forall_cons_2; [| | | | | apply Forall_nil_2].
  - left. reflexivity.
  - right. right. split; [vm_compute; lia|]. split.
    + intros H2. vm_compute in H2. discriminate H2.
    + intros _. split; [vm_compute; lia|].
      intros w3 H3. vm_compute in H3. injection H3 as <-.
      vm_compute. split; discriminate.
  - right. right. split; [vm_compute; lia|]. split.
    + intros H2. vm_compute in H2. discriminate H2.
    + intros _. split; [vm_compute; lia|].
      intros w3 H3. vm_compute in H3. injection H3 as <-.
      vm_compute. split; discriminate.
  - right. right. split; [vm_compute; lia|]. split.
    + intros _. vm_compute. lia.
    + intros H2. vm_compute in H2. discriminate H2.
  - right. left. reflexivity.
Defined.

(** ** Concrete runs of the MIDI engine *)

Lemma chord_row_notes_are_strums_witness :
  let notes : NoteData := {[ (1, 0) := TAP_ORIGINAL_HOPO ]} in
  let gd := MID.getNewGuitarData 480 170 MID.GH_HOPO_Rules MID.FIVE_FRETS in
  ∃ notes' gd',
    MID.addGHRBNote BeatToNoteRow notes 3 0 100 gd = Some (notes', gd')
    ∧ MID.iLastChordRow gd' = 0
    ∧ GetTapNote notes' 3 0 = TAP_ORIGINAL_GEM
    ∧ GetTapNote notes' 1 0 = TAP_ORIGINAL_GEM.
Proof.
  intros notes gd.
  destruct (chord_row_notes_are_strums BeatToNoteRow notes 3 0 100 1 gd)
    as (notes' & gd' & Hrun & Hchord & _ & _ & Hnew & Hold & _).
  - split; [left; reflexivity | reflexivity].
  - left. split; [reflexivity | lia].
  - reflexivity.
  - discriminate.
  - split; [lia | reflexivity].
  - vm_compute. discriminate.
  - intros j Hj.
    assert (j = 2 ∨ j = 3 ∨ j = 4 ∨ j = 5) as [-> | [-> | [-> | ->]]]
      by (change (MID.iCols gd) with 6 in Hj; lia);
      reflexivity.
  - exists notes', gd'. split; [exact Hrun|]. split; [exact Hchord|].
    split; [exact Hnew|]. apply Hold. discriminate.
Defined.

Lemma forced_row_keeps_one_note_witness :
  let notes : NoteData := {[ (3, 0) := TAP_ORIGINAL_HOPO ]} in
  let gd := MID.set_iLastForcedHOPO 0
              (MID.getNewGuitarData 480 170 MID.GH_HOPO_Rules
                 MID.FIVE_FRETS) in
  MID.addGHRBNote BeatToNoteRow notes 1 0 100 gd = Some (notes, gd).
Proof.
  intros notes gd.
  destruct (forced_row_keeps_one_note BeatToNoteRow notes 1 0 100 3 gd)
    as [Hlow _].
  - split; [left; reflexivity | reflexivity].
  - left. split; [reflexivity | lia].
  - reflexivity.
  - reflexivity.
  - split; [lia | reflexivity].
  - vm_compute. discriminate.
  - intros j Hj.
    assert (j = 4 ∨ j = 5) as [-> | ->]
      by (change (MID.iCols gd) with 6 in Hj; lia);
      reflexivity.
  - apply Hlow. reflexivity.
Defined.

Lemma isolated_note_follows_predicate_witness :
  let gd := MID.set_prevNote 0 0
              (MID.getNewGuitarData 480 170 MID.GH_HOPO_Rules
                 MID.FIVE_FRETS) in
  ∃ notes' gd',
    MID.addGHRBNote BeatToNoteRow ∅ 1 100 150 gd = Some (notes', gd')
    ∧ isHOPO (GetTapNote notes' 1 (BeatToNoteRow 100 480)) = true.
Proof.
  intros gd.
  destruct (isolated_note_follows_predicate BeatToNoteRow ∅ 1 100 150 gd)
    as (notes' & gd' & Hrun & _ & Hhopo & _).
  - split; [left; reflexivity | reflexivity].
  - left. split; [reflexivity | lia].
  - reflexivity.
  - intros i Hi. reflexivity.
  - exists notes', gd'. split; [exact Hrun|]. exact Hhopo.
Defined.

Lemma getGHRBNotesFromTrack_in_bounds_witness :
  ∃ notes,
    MID.getGHRBNotesFromTrack BeatToNoteRow
      [MID.MidiEvent_SYSEX [0x50; 0x53; 0; 0; 0xFF; 4; 1; 0xF7];
       MID.MidiEvent_Note MID.MidiNote_NoteOn 96 100 0;
       MID.MidiEvent_Note MID.MidiNote_NoteOff 96 0 100]
      MID.Difficulty_Challenge MID.GH_HOPO_Rules MID.FIVE_FRETS 480 170
    = Some notes
    ∧ tracksWithin notes 6.
Proof.
  apply (getGHRBNotesFromTrack_in_bounds BeatToNoteRow _
           MID.Difficulty_Challenge MID.GH_HOPO_Rules MID.FIVE_FRETS 480 170).
  repeat apply Forall_cons_2; [| | | apply Forall_nil_2].
  - exists 1. reflexivity.
  - exact I.
  - exact I.
Defined.

Lemma getGenericNotesFromTrack_in_bounds_witness :
  ∃ notes,
    MID.getGenericNotesFromTrack BeatToNoteRow
      [MID.MidiEvent_Note MID.MidiNote_NoteOn 61 100 0;
       MID.MidiEvent_Note MID.MidiNote_NoteOff 61 0 480] 480 4
    = Some notes
    ∧ tracksWithin notes 4 ∧ genericKinds notes.
Proof.
  apply (getGenericNotesFromTrack_in_bounds BeatToNoteRow _ 480 4).
  - lia.
  - repeat apply Forall_cons_2; [| | apply Forall_nil_2]; cbn; lia.
Defined.

(** ** Payloads of signed characters *)

(** When [char] is signed every payload byte is promoted to a value
    between -128 and 127, which equals neither 0xFF nor 0xF7: the decoder
    then never answers tap start, tap stop or open stop, and never checks
    the trailer; whatever the payload, it answers do-nothing or open
    start. *)
Theorem translateSysex_signed_char (pData : list Z) (diff : MID.Difficulty)
  (r : Z) :
  Forall signedChar pData ->
  MID.translateSysex pData diff = Some r ->
  r = -1 ∨ r = 3.
Proof.
  intros Hsigned Hdec. unfold MID.translateSysex in Hdec.
  destruct (MID.headerMatches pData 0 MID.commHeader) as [[]|];
    cbn [mbind option_bind negb] in Hdec; [|injection Hdec as <-; auto|done].
  destruct (pData !! 4%nat) as [p4|] eqn:H4; [|done].
  destruct (pData !! 5%nat) as [p5|]; [|done].
  cbn [mbind option_bind] in Hdec.
  pose proof (Forall_lookup_1 _ _ _ _ Hsigned H4) as Hp4.
  unfold signedChar in Hp4.
  replace (p4 =? MID.tapIndicator.1) with false in Hdec
    by (symmetry; apply Z.eqb_neq; cbn; lia).
  cbn [andb] in Hdec.
  destruct (_ && _); [|injection Hdec as <-; auto].
  destruct (pData !! 7%nat) as [p7|] eqn:H7; [|done].
  cbn [mbind option_bind] in Hdec.
  pose proof (Forall_lookup_1 _ _ _ _ Hsigned H7) as Hp7.
  unfold signedChar in Hp7.
  replace (p7 =? MID.onIndicator.2) with false in Hdec
    by (symmetry; apply Z.eqb_neq; cbn; lia).
  injection Hdec as <-. auto.
Qed.

Lemma translateSysex_signed_char_witness :
  let pData := [0x50; 0x53; 0; 0; -1; 4; 1; -9] in
  Forall signedChar pData
  ∧ MID.translateSysex pData MID.Difficulty_Easy = Some (-1)
  ∧ (-1 = -1 ∨ -1 = 3).
Proof.
  intros pData.
  assert (Hsigned : Forall signedChar pData).
  { repeat apply Forall_cons_2; try apply Forall_nil_2;
      unfold signedChar; lia. }
  split; [exact Hsigned|]. split; [reflexivity|].
  apply (translateSysex_signed_char pData MID.Difficulty_Easy (-1) Hsigned).
  reflexivity.
Defined.

(** ** Concrete runs: the kinds of the notes *)

Lemma parseNoteSection_note_kinds_witness :
  match Chart.parseNoteSection BeatToNoteRow 192 48
          ["0 = N 0 0"; "96 = N 1 192"; "96 = E *"; "}"]%string with
  | Some notes => notesKinded notes
  | None => False
  end.
Proof.
  destruct (Chart.parseNoteSection BeatToNoteRow 192 48
              ["0 = N 0 0"; "96 = N 1 192"; "96 = E *"; "}"]%string)
    as [notes|] eqn:Hrun.
  - exact (parseNoteSection_note_kinds BeatToNoteRow 192 48 _ notes Hrun).
  - vm_compute in Hrun. discriminate Hrun.
Defined.

Lemma getGHRBNotesFromTrack_note_kinds_witness :
  match MID.getGHRBNotesFromTrack BeatToNoteRow
          [MID.MidiEvent_Note MID.MidiNote_NoteOn 96 100 0;
           MID.MidiEvent_Note MID.MidiNote_NoteOff 96 0 480;
           MID.MidiEvent_Note MID.MidiNote_NoteOn 101 100 0;
           MID.MidiEvent_Note MID.MidiNote_NoteOff 101 0 10]
          MID.Difficulty_Challenge MID.GH_HOPO_Rules MID.FIVE_FRETS 480 170
  with
  | Some notes => notesKinded notes
  | None => False
  end.
Proof.
  destruct (MID.getGHRBNotesFromTrack BeatToNoteRow
              [MID.MidiEvent_Note MID.MidiNote_NoteOn 96 100 0;
               MID.MidiEvent_Note MID.MidiNote_NoteOff 96 0 480;
               MID.MidiEvent_Note MID.MidiNote_NoteOn 101 100 0;
               MID.MidiEvent_Note MID.MidiNote_NoteOff 101 0 10]
              MID.Difficulty_Challenge MID.GH_HOPO_Rules MID.FIVE_FRETS
              480 170) as [notes|] eqn:Hrun.
  - exact (getGHRBNotesFromTrack_note_kinds BeatToNoteRow _ _ _ _ _ _
             notes Hrun).
  - vm_compute in Hrun. discriminate Hrun.
Defined.
